(** * Shepherd: the visibility-to-selection pipeline of [shepherd.js]

    A shallow embedding of the module-private state of the [Shepherd]
    closure, of the part of the DOM it touches, and of its functions
    ([createTagElement], [renderTags], [setupVisibilityObserver],
    [handleVisibilityChange], [fetchAndRenderAd], [init],
    [updateVisibleCount], [updateSpacing]), followed by the properties of
    the pipeline.

    Conventions of the embedding:
    - JavaScript numbers that the code only stores, compares or passes to
      [slice] are integers ([Z]); tag indices are array positions ([nat]).
    - Strings are byte strings; the placeholder matching engine lower-cases
      ASCII letters only.
    - A DOM element is known by the id it was looked up with, so the two
      module variables [feedEl] and [adSlotEl] alias exactly when the two
      ids are equal. The feed and the ad slot are not nested in one
      another, and markup assigned through [innerHTML] stays opaque.
    - Statements that can throw live in the monad [Js], which threads the
      state and stops at the first uncaught exception, keeping the state
      reached so far.
    - An [async] function is given twice: run to completion with no other
      run interleaved (big step), and as a coroutine suspended at every
      [await] (small step), with a lemma relating the two. *)

From Stdlib Require Import ZArith Lia.
From stdpp Require Import base option list sorting strings pretty gmap.

(** ** Values *)

(** A tag of the configuration: [{text, keywords}]. *)
Record Tag := mkTag { text : string; keywords : list string }.

(** What a [throw] or a rejected promise carries. *)
Inductive JsError :=
| TypeError (detail : string)   (* a property read or written on null *)
| Error (message : string)      (* [new Error(message)] *)
| Rejection (payload : string). (* anything a provider rejects with *)

(** The object a provider resolves to: [{ html, metadata }]; the code reads
    [html] only. *)
Record Ad := mkAd { html : string }.

(** How the promise returned by [fetchAdFromProvider] settles. [Resolved
    None] is the [null] of a provider that has no match. *)
Inductive Settlement :=
| Resolved (ad : option Ad)
| Rejected (e : JsError).

(** The [tags] option as [init] receives it: [Array.isArray] tells the two
    apart. *)
Inductive TagsValue :=
| TagsArray (ts : list Tag)
| NotAnArray.

(** The argument of [init]. [None] is an option that is absent (or null). *)
Record Options := mkOptions {
  opt_feedElementId : option string;
  opt_adSlotId : option string;
  opt_visibleTagCount : option Z;
  opt_tagSpacingPx : option Z;
  opt_tags : TagsValue }.

(** The module variable [config]. *)
Record Config := mkConfig {
  feedElementId : string;
  adSlotId : string;
  visibleTagCount : Z;
  tagSpacingPx : Z;
  tags : list Tag }.

(** ** The DOM *)

(** The [div] that [createTagElement] builds. *)
Record TagElement := mkTagElement {
  classList : list string;
  dataset_idx : nat;
  textContent : string }.

(** A child of a container: a tag element, or markup assigned through
    [innerHTML], which stays opaque (and is taken to hold no element of
    class [shepherd-tag]). *)
Inductive Node :=
| TagNode (el : TagElement)
| Markup (source : string).

(** A container element (the feed or the ad slot). *)
Record Element := mkElement {
  childNodes : list Node;
  style : gmap string string }.

(** An entry handed to the observer callback. *)
Record Entry := mkEntry { target : TagElement; isIntersecting : bool }.

(** The observer built by [setupVisibilityObserver]: its root, its
    threshold (in percent) and the indices of the elements it observes. *)
Record IntersectionObserver := mkObserver {
  root : option string;
  threshold : nat;
  observed : list nat }.

(** What [getBoundingClientRect().right] answers at the time of a call:
    one coordinate for the feed, one per tag element. *)
Record Viewport := mkViewport { feedRight : Z; tagRight : nat → Z }.

(** ** The state *)

(** The four module variables, the document, the console, and two logs
    that only record what happened: the provider lookups issued and the
    markup assigned to the ad slot, oldest first. *)
Record State := mkState {
  config : option Config;
  feedEl : option string;
  adSlotEl : option string;
  observer : option IntersectionObserver;
  document : gmap string Element;
  console : list (string * JsError);
  lookups : list (string * list string);
  renders : list string }.

Definition set_config (c : option Config) (s : State) : State :=
  mkState c (feedEl s) (adSlotEl s) (observer s) (document s) (console s)
    (lookups s) (renders s).
Definition set_feedEl (f : option string) (s : State) : State :=
  mkState (config s) f (adSlotEl s) (observer s) (document s) (console s)
    (lookups s) (renders s).
Definition set_adSlotEl (a : option string) (s : State) : State :=
  mkState (config s) (feedEl s) a (observer s) (document s) (console s)
    (lookups s) (renders s).
Definition set_observer (o : option IntersectionObserver) (s : State) : State :=
  mkState (config s) (feedEl s) (adSlotEl s) o (document s) (console s)
    (lookups s) (renders s).
Definition set_document (d : gmap string Element) (s : State) : State :=
  mkState (config s) (feedEl s) (adSlotEl s) (observer s) d (console s)
    (lookups s) (renders s).
Definition set_console (c : list (string * JsError)) (s : State) : State :=
  mkState (config s) (feedEl s) (adSlotEl s) (observer s) (document s) c
    (lookups s) (renders s).
Definition set_lookups (l : list (string * list string)) (s : State) : State :=
  mkState (config s) (feedEl s) (adSlotEl s) (observer s) (document s)
    (console s) l (renders s).
Definition set_renders (r : list string) (s : State) : State :=
  mkState (config s) (feedEl s) (adSlotEl s) (observer s) (document s)
    (console s) (lookups s) r.

(** ** The monad of statements *)

Inductive Completion (A : Type) :=
| Normal (a : A)
| Throw (e : JsError).
Arguments Normal {A} a.
Arguments Throw {A} e.

Definition Js (A : Type) : Type := State → Completion A * State.

#[global] Instance Js_ret : MRet Js := λ A a s, (Normal a, s).

#[global] Instance Js_bind : MBind Js := λ A B k m s,
  match m s with
  | (Normal a, s1) => k a s1
  | (Throw e, s1) => (Throw e, s1)
  end.

Definition throw {A} (e : JsError) : Js A := λ s, (Throw e, s).

(** [try { m } catch (e) { h e }]: what [m] did to the state before it
    threw stays done. *)
Definition tryCatch {A} (m : Js A) (h : JsError → Js A) : Js A := λ s,
  match m s with
  | (Normal a, s1) => (Normal a, s1)
  | (Throw e, s1) => h e s1
  end.

Definition modify (f : State → State) : Js unit := λ s, (Normal tt, f s).

Definition gets {A} (f : State → A) : Js A := λ s, (Normal (f s), s).

(** Reading through a module variable that may still be [null]. *)
Definition deref {A} (name : string) (var : State → option A) : Js A := λ s,
  match var s with
  | Some a => (Normal a, s)
  | None => (Throw (TypeError name), s)
  end.

(** ** Array helpers *)

(** [a.slice(0, e)] for an integer [e]: a negative [e] counts from the end. *)
Definition slice {A} (a : list A) (e : Z) : list A :=
  let len := Z.of_nat (length a) in
  let final := if (e <? 0)%Z then Z.max (len + e) 0 else Z.min e len in
  take (Z.to_nat final) a.

(** [a.sort((x, y) => x - y)] on indices. *)
Definition sort (a : list nat) : list nat := merge_sort (≤) a.

(** ** Constants of the module *)

Definition providerList : list string := ["carbon"; "facebook"; "google"].

Definition emptyPoolMarkup : string :=
  "<p>No relevant ad (no keywords visible).</p>".
Definition noMatchMarkup : string :=
  "<p>No suitable ad found for the current tags.</p>".

Definition missingOptions : string :=
  "Shepherd.init – missing required options".
Definition elementsNotFound : string :=
  "Shepherd.init – could not locate feed or ad elements".

(** ** DOM operations *)

(** The children an [innerHTML] assignment leaves behind. The markup is
    kept as one node and is not parsed: what elements it holds is the
    browser's matter. It matters to the module in one case only, a feed and
    an ad slot that are one element, where the feed's [querySelectorAll]
    would look through the markup of the ad; what is said below of the tag
    elements of a feed after an ad was assigned is said for a feed and an
    ad slot that are two elements, or for markup of the module's own. *)
Definition parseHTML (source : string) : list Node :=
  if decide (source = "") then [] else [Markup source].

Definition set_childNodes (ns : list Node) (e : Element) : Element :=
  mkElement ns (style e).
Definition setProperty (name value : string) (e : Element) : Element :=
  mkElement (childNodes e) (<[name := value]> (style e)).

(** [el.innerHTML = source] for the element behind a module variable. *)
Definition setInnerHTML (name : string) (var : State → option string)
    (source : string) : Js unit :=
  id ← deref name var;
  modify (λ s, set_document (alter (set_childNodes (parseHTML source)) id (document s)) s).

(** [el.querySelectorAll('.shepherd-tag')] on a container. *)
Definition hasClass (c : string) (el : TagElement) : bool :=
  bool_decide (c ∈ classList el).
Definition querySelectorAll_tags (e : Element) : list TagElement :=
  omap (λ n, match n with
             | TagNode el => if hasClass "shepherd-tag" el then Some el else None
             | Markup _ => None
             end) (childNodes e).

(** [el.classList.toggle(c, force)]. *)
Definition toggle (c : string) (force : bool) (el : TagElement) : TagElement :=
  mkTagElement
    (if force
     then (if hasClass c el then classList el else classList el ++ [c])
     else filter (λ x, x ≠ c) (classList el))
    (dataset_idx el) (textContent el).

Definition appendChild (n : Node) (e : Element) : Element :=
  set_childNodes (childNodes e ++ [n]) e.

(** The children of the element behind a reference; a reference is only
    ever made by [getElementById] and elements never leave the document. *)
Definition tagElementsOf (id : string) (s : State) : list TagElement :=
  match document s !! id with
  | Some e => querySelectorAll_tags e
  | None => []
  end.

(** [document.getElementById(id)]: the reference, or [null]. *)
Definition getElementById (id : string) (s : State) : option string :=
  if decide (is_Some (document s !! id)) then Some id else None.

Definition updateElement (id : string) (f : Element → Element) : Js unit :=
  modify (λ s, set_document (alter f id (document s)) s).

(** ** Rendering the feed *)

Definition createTagElement (tag : Tag) (index : nat) : TagElement :=
  mkTagElement ["shepherd-tag"] index (text tag).

Definition spacingValue (px : Z) : string := pretty px +:+ "px".

Definition renderTags : Js unit :=
  setInnerHTML "feedEl" feedEl "";;
  c ← deref "config" config;
  f ← deref "feedEl" feedEl;
  updateElement f (λ e,
    foldl (λ e n, appendChild n e) e
      (imap (λ i t, TagNode (createTagElement t i)) (tags c)));;
  updateElement f (setProperty "--tag-spacing" (spacingValue (tagSpacingPx c))).

(** [observer.disconnect()] has nothing to do here: the old observer is
    dropped when the variable is assigned. *)
Definition setupVisibilityObserver : Js unit :=
  modify (λ s, set_observer (Some (mkObserver (feedEl s) 50 [])) s);;
  f ← deref "feedEl" feedEl;
  modify (λ s, set_observer
    (Some (mkObserver (Some f) 50 (dataset_idx <$> tagElementsOf f s))) s).

(** ** The selection *)

(** The indices pushed by the [forEach] of [handleVisibilityChange]. *)
Definition visibleIdx (entries : list Entry) : list nat :=
  (λ e, dataset_idx (target e)) <$> filter (λ e, isIntersecting e = true) entries.

(** [visibleIdx], sorted, then cut to the configured count. *)
Definition trimmed (count : Z) (entries : list Entry) : list nat :=
  slice (sort (visibleIdx entries)) count.

(** The [toggle] applied to every tag element of the feed. *)
Definition highlight (sel : list nat) (n : Node) : Node :=
  match n with
  | TagNode el =>
      if hasClass "shepherd-tag" el
      then TagNode (toggle "active" (bool_decide (dataset_idx el ∈ sel)) el)
      else n
  | Markup _ => n
  end.

(** [sel.flatMap(i => tags[i].keywords)]; [None] when some [tags[i]] is
    undefined, where the code throws. *)
Fixpoint keywordPool (ts : list Tag) (sel : list nat) : option (list string) :=
  match sel with
  | [] => Some []
  | i :: rest =>
      match ts !! i with
      | Some t => (λ ks, keywords t ++ ks) <$> keywordPool ts rest
      | None => None
      end
  end.

(** The synchronous part of [handleVisibilityChange]: everything before the
    call of [fetchAndRenderAd]; answers the keyword pool. *)
Definition selectVisible (entries : list Entry) : Js (list string) :=
  c ← deref "config" config;
  let sel := trimmed (visibleTagCount c) entries in
  f ← deref "feedEl" feedEl;
  updateElement f (λ e, set_childNodes (highlight sel <$> childNodes e) e);;
  match keywordPool (tags c) sel with
  | Some pool => mret pool
  | None => throw (TypeError "config.tags[i]")
  end.

(** ** The ad slot *)

(** [adSlotEl.innerHTML = source], recorded in [renders]. *)
Definition renderAd (source : string) : Js unit :=
  setInnerHTML "adSlotEl" adSlotEl source;;
  modify (λ s, set_renders (renders s ++ [source]) s).

Definition warnMessage (provider : string) : string :=
  "Shepherd – provider " +:+ provider +:+ " failed:".

Definition console_warn (provider : string) (e : JsError) : Js unit :=
  modify (λ s, set_console (console s ++ [(warnMessage provider, e)]) s).

(** How one turn of the provider loop ends. *)
Inductive LoopExit := Return | Continue.

(** [ad && ad.html]. *)
Definition truthy (ad : option Ad) : option string :=
  match ad with
  | Some a => if decide (html a = "") then None else Some (html a)
  | None => None
  end.

Section Engine.

(** The provider adapter. The one in the source is a placeholder to be
    replaced per provider (it is [Placeholder.fetchAdFromProvider] below),
    so the engine is taken over any adapter: how its promise settles for
    a provider and a keyword pool. *)
Variable fetchAdFromProvider : string → list string → Settlement.

(** The call [fetchAdFromProvider(provider, keywords)]: the lookup is
    issued, which [lookups] records. *)
Definition callProvider (provider : string) (kw : list string) : Js unit :=
  modify (λ s, set_lookups (lookups s ++ [(provider, kw)]) s).

(** What the [await] of its promise yields once the promise has settled:
    the value it resolved to, or its rejection, thrown. *)
Definition settled (provider : string) (kw : list string) : Js (option Ad) :=
  match fetchAdFromProvider provider kw with
  | Resolved ad => mret ad
  | Rejected e => throw e
  end.

(** [await fetchAdFromProvider(provider, keywords)], with nothing running
    in between. *)
Definition awaitLookup (provider : string) (kw : list string) : Js (option Ad) :=
  callProvider provider kw;; settled provider kw.

(** What follows the [await] inside the [try] block. *)
Definition afterLookup (ad : option Ad) : Js LoopExit :=
  match truthy ad with
  | Some markup => renderAd markup;; mret Return
  | None => mret Continue
  end.

(** The body of the [for] loop: the [try] block and its [catch]. *)
Definition tryProvider (provider : string) (kw : list string) : Js LoopExit :=
  tryCatch
    (ad ← awaitLookup provider kw; afterLookup ad)
    (λ e, console_warn provider e;; mret Continue).

(** The [for ... of] loop over the providers still to try, and the
    statement after it. *)
Fixpoint tryProviders (providers : list string) (kw : list string) : Js unit :=
  match providers with
  | [] => renderAd noMatchMarkup
  | provider :: rest =>
      x ← tryProvider provider kw;
      match x with
      | Return => mret tt
      | Continue => tryProviders rest kw
      end
  end.

(** [fetchAndRenderAd], run until its promise settles. *)
Definition fetchAndRenderAd (kw : list string) : Js unit :=
  if decide (length kw = 0) then renderAd emptyPoolMarkup
  else tryProviders providerList kw.

Definition handleVisibilityChange (entries : list Entry) : Js unit :=
  pool ← selectVisible entries;
  fetchAndRenderAd pool.

(** The entries [updateVisibleCount] makes up from the geometry. *)
Definition visibleEntries (vp : Viewport) (els : list TagElement) : list Entry :=
  (λ el, mkEntry el true) <$>
    filter (λ el, (tagRight vp (dataset_idx el) ≤ feedRight vp)%Z) els.

(** [updateVisibleCount] up to its call of [handleVisibilityChange]:
    answers the entries it passes. *)
Definition recount (vp : Viewport) (newCount : Z) : Js (list Entry) :=
  c ← deref "config" config;
  modify (set_config (Some (mkConfig (feedElementId c) (adSlotId c) newCount
                              (tagSpacingPx c) (tags c))));;
  f ← deref "feedEl" feedEl;
  els ← gets (tagElementsOf f);
  mret (visibleEntries vp els).

Definition updateVisibleCount (vp : Viewport) (newCount : Z) : Js unit :=
  entries ← recount vp newCount;
  handleVisibilityChange entries.

(** ** The same function as a coroutine

    [fetchAndRenderAd] is [async]: a call runs up to its first [await] and
    hands control back; the rest runs when the awaited lookup settles,
    up to the next [await]. Between the two, other callbacks run. *)

(** A call of [fetchAndRenderAd] suspended at the [await]: its argument,
    the provider whose lookup it awaits, and the providers after that. *)
Record Run := mkRun {
  run_keywords : list string;
  run_awaiting : string;
  run_rest : list string }.

(** Entering the loop with the providers still to try: either the loop is
    over and the statement after it runs, or the next lookup is issued and
    the call suspends. *)
Definition enterLoop (providers : list string) (kw : list string) : Js (option Run) :=
  match providers with
  | [] => renderAd noMatchMarkup;; mret None
  | provider :: rest => callProvider provider kw;; mret (Some (mkRun kw provider rest))
  end.

(** From the call to the first [await], or to the end. *)
Definition start (kw : list string) : Js (option Run) :=
  if decide (length kw = 0) then renderAd emptyPoolMarkup;; mret None
  else enterLoop providerList kw.

(** From one [await] to the next, or to the end. *)
Definition resume (r : Run) : Js (option Run) :=
  x ← tryCatch
        (ad ← settled (run_awaiting r) (run_keywords r); afterLookup ad)
        (λ e, console_warn (run_awaiting r) e;; mret Continue);
  match x with
  | Return => mret None
  | Continue => enterLoop (run_rest r) (run_keywords r)
  end.

(** A suspended call resumed until it is over, with nothing in between. *)
Fixpoint finish (fuel : nat) (r : option Run) : Js unit :=
  match r, fuel with
  | None, _ => mret tt
  | Some _, 0 => mret tt
  | Some r, S n => r' ← resume r; finish n r'
  end.

(** The page at rest between two callbacks: the state, and the calls of
    [fetchAndRenderAd] that are suspended, oldest first. *)
Record World := mkWorld { state : State; inflight : list Run }.

(** What the browser does next: it delivers entries to the observer
    callback, the page calls [updateVisibleCount], or the lookup awaited by
    the [i]-th suspended call settles. *)
Inductive Event :=
| Observe (entries : list Entry)
| SetCount (vp : Viewport) (n : Z)
| Settle (i : nat).

(** A callback that ends by calling [fetchAndRenderAd] without awaiting
    it. An exception ends the callback (or rejects the promise nobody
    holds); the state reached stays. *)
Definition spawn (m : Js (option Run)) (w : World) : World :=
  match m (state w) with
  | (Normal (Some r), s) => mkWorld s (inflight w ++ [r])
  | (_, s) => mkWorld s (inflight w)
  end.

Definition handleVisibilityChange_async (entries : list Entry) : Js (option Run) :=
  pool ← selectVisible entries;
  start pool.

Definition updateVisibleCount_async (vp : Viewport) (newCount : Z) : Js (option Run) :=
  entries ← recount vp newCount;
  handleVisibilityChange_async entries.

Definition react (ev : Event) (w : World) : World :=
  match ev with
  | Observe entries => spawn (handleVisibilityChange_async entries) w
  | SetCount vp n => spawn (updateVisibleCount_async vp n) w
  | Settle i =>
      match inflight w !! i with
      | Some r =>
          match resume r (state w) with
          | (Normal (Some r'), s) => mkWorld s (<[i := r']> (inflight w))
          | (_, s) => mkWorld s (delete i (inflight w))
          end
      | None => w
      end
  end.

Definition reacts (evs : list Event) (w : World) : World :=
  foldl (λ w ev, react ev w) w evs.

(** How many times an event calls [fetchAndRenderAd]: once when the
    callback gets as far as the call, never for a lookup that settles. *)
Definition callsMade (ev : Event) (s : State) : nat :=
  match ev with
  | Observe entries =>
      match fst (selectVisible entries s) with Normal _ => 1 | Throw _ => 0 end
  | SetCount vp n =>
      match fst ((entries ← recount vp n; selectVisible entries) s) with
      | Normal _ => 1
      | Throw _ => 0
      end
  | Settle _ => 0
  end.

Fixpoint callsAlong (evs : list Event) (w : World) : nat :=
  match evs with
  | [] => 0
  | ev :: rest => callsMade ev (state w) + callsAlong rest (react ev w)
  end.

End Engine.

(** ** The outcomes of the specification

    The specification speaks of an [AdOutcome] handed to a render sink. The
    source has no such value: it assigns markup to the ad slot. The type
    below is the spec's, [resolve] follows the spec's description of the
    resolution engine, and [painted] is the markup by which the source
    shows each outcome. *)

Inductive Reason := EmptyPool | NoMatch.

Inductive AdOutcome :=
| Rendered (providerId : string) (markup : string)
| NoAd (reason : Reason).

Definition painted (o : AdOutcome) : string :=
  match o with
  | Rendered _ markup => markup
  | NoAd EmptyPool => emptyPoolMarkup
  | NoAd NoMatch => noMatchMarkup
  end.

Section Resolution.

Variable fetchAdFromProvider : string → list string → Settlement.

(** A provider declines when its lookup resolves to [null] or to empty
    markup; a lookup that fails counts as declined too. *)
Definition declines (provider : string) (kw : list string) : bool :=
  match fetchAdFromProvider provider kw with
  | Resolved ad => bool_decide (truthy ad = None)
  | Rejected _ => true
  end.

(** The spec's engine on a non-empty pool: the first provider, in order,
    that does not decline wins; none left means no match. *)
Fixpoint resolveFrom (providers : list string) (kw : list string) : AdOutcome :=
  match providers with
  | [] => NoAd NoMatch
  | provider :: rest =>
      match fetchAdFromProvider provider kw with
      | Resolved ad =>
          match truthy ad with
          | Some markup => Rendered provider markup
          | None => resolveFrom rest kw
          end
      | Rejected _ => resolveFrom rest kw
      end
  end.

Definition resolve (kw : list string) : AdOutcome :=
  match kw with
  | [] => NoAd EmptyPool
  | _ => resolveFrom providerList kw
  end.

(** The providers the spec's engine queries: up to the first that does
    not decline, that one included. *)
Fixpoint queried (providers : list string) (kw : list string) : list string :=
  match providers with
  | [] => []
  | provider :: rest =>
      provider :: (if declines provider kw then queried rest kw else [])
  end.

(** None is queried for the empty pool. *)
Definition asked (kw : list string) : list string :=
  match kw with
  | [] => []
  | _ => queried providerList kw
  end.

(** The adapter that answers [null] wherever the given one fails. *)
Definition declining (provider : string) (kw : list string) : Settlement :=
  match fetchAdFromProvider provider kw with
  | Rejected _ => Resolved None
  | Resolved ad => Resolved ad
  end.

(** The failures it reports: one per queried provider whose lookup
    failed. *)
Definition failures (providers : list string) (kw : list string)
    : list (string * JsError) :=
  omap (λ provider,
          match fetchAdFromProvider provider kw with
          | Rejected e => Some (warnMessage provider, e)
          | Resolved _ => None
          end) providers.

End Resolution.

(** The state after a run that queried [qs] for [kw], reported [warns] and
    assigned [markup] to the ad slot [a]. *)
Definition completed (a : string) (markup : string) (qs : list string)
    (kw : list string) (warns : list (string * JsError)) (s : State) : State :=
  mkState (config s) (feedEl s) (adSlotEl s) (observer s)
    (alter (set_childNodes (parseHTML markup)) a (document s))
    (console s ++ warns)
    (lookups s ++ ((λ provider, (provider, kw)) <$> qs))
    (renders s ++ [markup]).

(** ** The placeholder adapter of the source *)

Module Placeholder.

Definition lowerChar (c : Ascii.ascii) : Ascii.ascii :=
  let n := Ascii.nat_of_ascii c in
  if bool_decide (65 ≤ n ≤ 90) then Ascii.ascii_of_nat (n + 32) else c.

(** Strings of ASCII characters only. On these [toLowerCase] below is
    [String.prototype.toLowerCase]: it changes the letters A to Z and
    nothing else. What the adapter answers is stated for such keywords. *)
Fixpoint isAscii (k : string) : bool :=
  match k with
  | EmptyString => true
  | String c rest => (Ascii.nat_of_ascii c <? 128) && isAscii rest
  end.

(** [k.toLowerCase()] on ASCII text. *)
Fixpoint toLowerCase (k : string) : string :=
  match k with
  | EmptyString => EmptyString
  | String c rest => String (lowerChar c) (toLowerCase rest)
  end.

(** [k.includes(part)]. *)
Fixpoint includes (k part : string) : bool :=
  String.prefix part k ||
  match k with
  | EmptyString => false
  | String _ rest => includes rest part
  end.

Definition quote : string := String (Ascii.ascii_of_nat 34) EmptyString.
Definition newline : string := String (Ascii.ascii_of_nat 10) EmptyString.

Definition carbonAd : string :=
  "<a href=" +:+ quote +:+ "https://www.carbonads.com/" +:+ quote +:+
  " target=" +:+ quote +:+ "_blank" +:+ quote +:+ ">" +:+ newline +:+
  "                <img src=" +:+ quote +:+
  "https://placehold.co/300x100?text=Carbon+Ad" +:+ quote +:+ " alt=" +:+
  quote +:+ "Carbon Ad" +:+ quote +:+ ">" +:+ newline +:+ "              </a>".
Definition facebookAd : string :=
  "<div style=" +:+ quote +:+
  "background:#4267B2;color:#fff;padding:10px;" +:+ quote +:+ ">" +:+
  newline +:+ "                  Facebook Audience Network placeholder" +:+
  newline +:+ "                 </div>".
Definition googleAd : string :=
  "<div style=" +:+ quote +:+ "border:1px solid #ccc;padding:10px;" +:+
  quote +:+ ">" +:+ newline +:+
  "                Google AdSense placeholder" +:+ newline +:+
  "               </div>".

(** [dummyAds[provider]] for the names the table has as keys, which are
    the names of [providerList], the only ones the engine passes; for any
    other name this is the absent entry, and nothing is stated about what
    the adapter does with it. *)
Definition dummyAds (provider : string) : option string :=
  if decide (provider = "carbon") then Some carbonAd
  else if decide (provider = "facebook") then Some facebookAd
  else if decide (provider = "google") then Some googleAd
  else None.

(** The simulated latency only decides when the promise settles; that is
    the scheduler's matter. *)
Definition fetchAdFromProvider (provider : string) (kw : list string) : Settlement :=
  let matched := existsb (λ k, includes (toLowerCase k) provider) kw in
  if negb matched then Resolved None
  else Resolved (Some (mkAd (default "" (dummyAds provider)))).

End Placeholder.

(** ** The public API *)

(** [!x] for an optional string: absent or empty. *)
Definition falsy (x : option string) : bool :=
  match x with
  | Some v => bool_decide (v = "")
  | None => true
  end.

Definition isArray (v : TagsValue) : bool :=
  match v with TagsArray _ => true | NotAnArray => false end.

(** The array behind [opts.tags]; read only once [isArray] has answered
    yes. *)
Definition tagsOf (v : TagsValue) : list Tag :=
  match v with TagsArray ts => ts | NotAnArray => [] end.

Definition init (opts : Options) : Js unit :=
  if falsy (opt_feedElementId opts) || falsy (opt_adSlotId opts)
     || negb (isArray (opt_tags opts))
  then throw (Error missingOptions)
  else
    modify (set_config (Some (mkConfig
      (default "" (opt_feedElementId opts))
      (default "" (opt_adSlotId opts))
      (default 5%Z (opt_visibleTagCount opts))
      (default 12%Z (opt_tagSpacingPx opts))
      (tagsOf (opt_tags opts)))));;
    c ← deref "config" config;
    modify (λ s, set_feedEl (getElementById (feedElementId c) s) s);;
    modify (λ s, set_adSlotEl (getElementById (adSlotId c) s) s);;
    f ← gets feedEl;
    a ← gets adSlotEl;
    if bool_decide (f = None) || bool_decide (a = None)
    then throw (Error elementsNotFound)
    else renderTags;; setupVisibilityObserver.

Definition updateSpacing (px : Z) : Js unit :=
  c ← deref "config" config;
  modify (set_config (Some (mkConfig (feedElementId c) (adSlotId c)
                              (visibleTagCount c) px (tags c))));;
  f ← deref "feedEl" feedEl;
  updateElement f (setProperty "--tag-spacing" (spacingValue px)).

(** The feed after the highlight of a selection. *)
Definition highlighted (f : string) (sel : list nat) (s : State) : State :=
  set_document
    (alter (λ e, set_childNodes (highlight sel <$> childNodes e) e) f (document s)) s.

(** The module as a successful [init] leaves it and as the callbacks
    expect it: configured, both elements located, and every tag element of
    the feed standing for a position of [tags]. *)
Definition Initialised (s : State) : Prop :=
  ∃ c f a,
    config s = Some c ∧ feedEl s = Some f ∧ adSlotEl s = Some a
    ∧ Forall (λ el, dataset_idx el < length (tags c)) (tagElementsOf f s).

(** The positions of the highlighted tags of a container. *)
Definition activeIdx (id : string) (s : State) : list nat :=
  dataset_idx <$> filter (λ el, hasClass "active" el = true) (tagElementsOf id s).

(** ** The resolver of the specification

    Following the spec's words (section 4.1): the resolver keeps a
    membership set; an event adds its tag id when it reports the tag
    visible and removes it otherwise; the selection is the membership in
    ascending position, cut to the visible count. *)
Module Spec.

Definition onVisibilityEvent (tagId : nat) (isVisible : bool)
    (membership : gset nat) : gset nat :=
  if isVisible then {[tagId]} ∪ membership else membership ∖ {[tagId]}.

Definition computeSelection (visibleCount : nat) (membership : gset nat) : list nat :=
  take visibleCount (merge_sort (≤) (elements membership)).

End Spec.

(** ** A page, a configuration and stubbed adapters for the examples *)

Definition page : gmap string Element :=
  {[ "tag-feed" := mkElement [] ∅; "ad-slot" := mkElement [] ∅ ]}.

(** The module before [init]. *)
Definition fresh : State := mkState None None None None page [] [] [].

Definition demoTags : list Tag :=
  [ mkTag "Search" ["google ads"; "seo"];
    mkTag "Green" ["carbon offset"];
    mkTag "Travel" ["flights"; "hotels"];
    mkTag "Social" ["facebook groups"];
    mkTag "Health" ["wellness"] ].

Definition demoOptions : Options :=
  mkOptions (Some "tag-feed") (Some "ad-slot") None None (TagsArray demoTags).

(** The module after [init(demoOptions)]. *)
Definition ready : State := snd (init demoOptions fresh).

(** The entry the observer reports for the tag at a position. *)
Definition entryOf (i : nat) (visible : bool) : Entry :=
  mkEntry (mkTagElement ["shepherd-tag"] i "") visible.

(** Providers [A → null, B → {html: x}, C → {html: y}]. *)
Definition stubNullXY (provider : string) (kw : list string) : Settlement :=
  if decide (provider = "carbon") then Resolved None
  else if decide (provider = "facebook") then Resolved (Some (mkAd "x"))
  else Resolved (Some (mkAd "y")).

(** Providers [A → throws, B → {html: x}]. *)
Definition stubThrowsX (provider : string) (kw : list string) : Settlement :=
  if decide (provider = "carbon") then Rejected (Rejection "timeout")
  else if decide (provider = "facebook") then Resolved (Some (mkAd "x"))
  else Resolved None.

(** Providers that all decline, one of them with empty markup. *)
Definition stubNone (provider : string) (kw : list string) : Settlement :=
  if decide (provider = "facebook") then Resolved (Some (mkAd ""))
  else Resolved None.

(** Options that ask for no visible tag at all, and for a negative count. *)
Definition zeroCountOptions : Options :=
  mkOptions (Some "tag-feed") (Some "ad-slot") (Some 0%Z) None (TagsArray demoTags).
Definition negativeCountOptions : Options :=
  mkOptions (Some "tag-feed") (Some "ad-slot") (Some (-3)%Z) None (TagsArray demoTags).

(** Options whose [tags] is not an array, and options naming an ad slot
    the page does not have. *)
Definition noTagsOptions : Options :=
  mkOptions (Some "tag-feed") (Some "ad-slot") (Some 5%Z) None NotAnArray.
Definition lostSlotOptions : Options :=
  mkOptions (Some "tag-feed") (Some "nowhere") (Some 5%Z) None (TagsArray demoTags).

(** A feed wide enough for all five tags: tag [i] ends at [100 (i + 1)]. *)
Definition wideViewport : Viewport :=
  mkViewport 500 (λ i, 100 * (Z.of_nat i + 1))%Z.

(** Two overlapping runs of the placeholder engine, timed as its 150 ms
    per lookup has them: tag 0 comes into view (run 1, which will match at
    the third provider), then tag 1 (run 2, which matches at the first);
    the lookups settle in the order run 1, run 2, run 1, run 1. *)
Definition overlap : list Event :=
  [Observe [entryOf 0 true]; Observe [entryOf 1 true];
   Settle 0; Settle 1; Settle 0; Settle 0].

(** ** What [init] leaves behind *)

(** The object [init] assigns to [config]. *)
Definition configOf (opts : Options) : Config :=
  mkConfig (default "" (opt_feedElementId opts)) (default "" (opt_adSlotId opts))
    (default 5%Z (opt_visibleTagCount opts)) (default 12%Z (opt_tagSpacingPx opts))
    (tagsOf (opt_tags opts)).

(** The test of the first [if] of [init]. *)
Definition optionsMissing (opts : Options) : bool :=
  falsy (opt_feedElementId opts) || falsy (opt_adSlotId opts)
  || negb (isArray (opt_tags opts)).

(** [Shepherd.init(opts)] for any argument. [None] is a call without an
    argument or with [null]: reading [opts.feedElementId] in the first test
    throws. [Some opts] is a call with an object, read through the type
    [Options]: its [tags], when an array, holds tag objects. *)
Definition init_arg (arg : option Options) : Js unit :=
  match arg with
  | Some opts => init opts
  | None => throw (TypeError "opts")
  end.

(** The feed element once [renderTags] is through with it: one tag element
    per tag, whatever it held before, and the spacing property set. *)
Definition renderedFeed (c : Config) (e : Element) : Element :=
  mkElement (imap (λ i t, TagNode (createTagElement t i)) (tags c))
    (<["--tag-spacing" := spacingValue (tagSpacingPx c)]> (style e)).

(** The module after a successful [init]. *)
Definition afterInit (opts : Options) (s : State) : State :=
  let c := configOf opts in
  mkState (Some c) (Some (feedElementId c)) (Some (adSlotId c))
    (Some (mkObserver (Some (feedElementId c)) 50 (seq 0 (length (tags c)))))
    (alter (renderedFeed c) (feedElementId c) (document s))
    (console s) (lookups s) (renders s).

(** The module after an [init] that did not find its elements. *)
Definition afterFailedInit (opts : Options) (s : State) : State :=
  let c := configOf opts in
  mkState (Some c) (getElementById (feedElementId c) s)
    (getElementById (adSlotId c) s)
    (observer s) (document s) (console s) (lookups s) (renders s).

(** How many lookups a sequence of events settles: one for each [Settle]
    that finds a suspended call. *)
Definition settlesMade (ev : Event) (w : World) : nat :=
  match ev with
  | Settle i => length (option_list (inflight w !! i))
  | Observe _ | SetCount _ _ => 0
  end.

Fixpoint settlesAlong (fetchAdFromProvider : string → list string → Settlement)
    (evs : list Event) (w : World) : nat :=
  match evs with
  | [] => 0
  | ev :: rest =>
      settlesMade ev w + settlesAlong fetchAdFromProvider rest (react fetchAdFromProvider ev w)
  end.

(** The tag elements of a container without their classes: position and
    text, which no callback changes. *)
Definition feedTags (id : string) (s : State) : list (nat * string) :=
  (λ el, (dataset_idx el, textContent el)) <$> tagElementsOf id s.

(** ** The render sink *)

(** What the ad slot holds: the children of the element behind the
    reference, when the document has it. *)
Definition slotContent (a : string) (s : State) : option (list Node) :=
  childNodes <$> document s !! a.

(** The ad slot of [s'] holds the markup assigned last among [out], the
    assignments made since [s]; with none made it holds what it held. *)
Definition showsLast (a : string) (s s' : State) (out : list string) : Prop :=
  slotContent a s'
  = match last out with
    | Some markup => (λ _, parseHTML markup) <$> slotContent a s
    | None => slotContent a s
    end.

(** The markup a suspended call assigns when it ends: the outcome of the
    providers it has still to hear from, the awaited one first. *)
Definition outcomeOf (fetchAdFromProvider : string → list string → Settlement)
    (r : Run) : string :=
  painted (resolveFrom fetchAdFromProvider (run_awaiting r :: run_rest r)
             (run_keywords r)).

(** Where a call that is to assign [markup] stands after a step from [s]
    to [s']: suspended, with the assignment still to come and the ad slot
    as it was, or over, with the assignment made. *)
Definition pending (fetchAdFromProvider : string → list string → Settlement)
    (a : string) (markup : string) (s : State) (o : option Run) (s' : State) : Prop :=
  match o with
  | Some r =>
      outcomeOf fetchAdFromProvider r = markup
      ∧ renders s' = renders s ∧ slotContent a s' = slotContent a s
  | None =>
      renders s' = renders s ++ [markup]
      ∧ slotContent a s' = (λ _, parseHTML markup) <$> slotContent a s
  end.

(** * Properties *)

(** ** The engine *)

Ltac unfold_js :=
  unfold mbind, mret, Js_bind, Js_ret, tryCatch, throw, modify, gets, deref.

Lemma renderAd_run s a markup :
  adSlotEl s = Some a →
  renderAd markup s = (Normal tt, completed a markup [] [] [] s).
Proof.
  intros Ha. unfold renderAd, setInnerHTML, completed. unfold_js.
  rewrite Ha. cbn. unfold set_renders, set_document. cbn.
  rewrite Ha, !app_nil_r. reflexivity.
Qed.

Section EngineFacts.

Variable fetchAdFromProvider : string → list string → Settlement.

(** The loop, run from any state whose ad slot is resolved, ends normally
    in the state the spec's engine describes. *)
Lemma tryProviders_run providers kw s a :
  adSlotEl s = Some a →
  tryProviders fetchAdFromProvider providers kw s =
    (Normal tt,
     completed a (painted (resolveFrom fetchAdFromProvider providers kw))
       (queried fetchAdFromProvider providers kw) kw
       (failures fetchAdFromProvider (queried fetchAdFromProvider providers kw) kw) s).
Proof.
  revert s. induction providers as [|p rest IH]; intros s Ha.
  - cbn. by apply renderAd_run.
  - cbn [tryProviders resolveFrom queried].
    unfold tryProvider, awaitLookup, callProvider, settled, afterLookup, declines.
    unfold failures. cbn [omap list_omap].
    unfold_js.
    destruct (fetchAdFromProvider p kw) as [ad|e] eqn:Hf.
    + destruct (truthy ad) as [m|] eqn:Ht.
      * rewrite (renderAd_run _ a) by done.
        rewrite bool_decide_eq_false_2 by done. cbn.
        unfold completed; cbn. by rewrite !app_nil_r.
      * rewrite bool_decide_eq_true_2 by done.
        rewrite IH by done. unfold completed; cbn.
        by rewrite <-!app_assoc.
    + unfold console_warn. unfold_js. cbn.
      rewrite IH by done. unfold completed; cbn.
      by rewrite <-!app_assoc.
Qed.

Lemma fetchAndRenderAd_run kw s a :
  adSlotEl s = Some a →
  fetchAndRenderAd fetchAdFromProvider kw s =
    (Normal tt,
     completed a (painted (resolve fetchAdFromProvider kw))
       (asked fetchAdFromProvider kw) kw
       (failures fetchAdFromProvider (asked fetchAdFromProvider kw) kw) s).
Proof.
  intros Ha. unfold fetchAndRenderAd.
  destruct kw as [|k kw]; cbn [length decide].
  - rewrite decide_True by done. by apply renderAd_run.
  - rewrite decide_False by done. by apply tryProviders_run.
Qed.

Lemma first_match pre p post kw ad :
  Forall (λ q, declines fetchAdFromProvider q kw = true) pre →
  fetchAdFromProvider p kw = Resolved (Some ad) → html ad ≠ "" →
  resolveFrom fetchAdFromProvider (pre ++ p :: post) kw = Rendered p (html ad)
  ∧ queried fetchAdFromProvider (pre ++ p :: post) kw = pre ++ [p]
  ∧ failures fetchAdFromProvider (pre ++ [p]) kw = failures fetchAdFromProvider pre kw.
Proof.
  intros Hpre Hp Hne.
  assert (Ht : truthy (Some ad) = Some (html ad)).
  { unfold truthy. by rewrite decide_False. }
  induction Hpre as [|q pre Hq _ IH]; cbn.
  - unfold declines, failures. cbn. rewrite Hp, Ht.
    by rewrite bool_decide_eq_false_2.
  - destruct IH as (IH1 & IH2 & IH3). rewrite Hq, IH2.
    unfold failures in *. cbn. rewrite IH3.
    unfold declines in Hq. destruct (fetchAdFromProvider q kw) as [r|e]; [|done].
    apply bool_decide_eq_true in Hq. by rewrite Hq.
Qed.

Lemma exhausted providers kw :
  Forall (λ q, declines fetchAdFromProvider q kw = true) providers →
  resolveFrom fetchAdFromProvider providers kw = NoAd NoMatch
  ∧ queried fetchAdFromProvider providers kw = providers.
Proof.
  induction 1 as [|q ps Hq _ [IH1 IH2]]; cbn; [done|].
  rewrite Hq, IH2. unfold declines in Hq.
  destruct (fetchAdFromProvider q kw) as [r|e]; [|done].
  apply bool_decide_eq_true in Hq. by rewrite Hq.
Qed.

Lemma declining_same providers kw :
  resolveFrom (declining fetchAdFromProvider) providers kw
  = resolveFrom fetchAdFromProvider providers kw
  ∧ queried (declining fetchAdFromProvider) providers kw
    = queried fetchAdFromProvider providers kw
  ∧ failures (declining fetchAdFromProvider) providers kw = [].
Proof.
  induction providers as [|p ps (IH1 & IH2 & IH3)]; [done|].
  unfold failures in *. cbn. unfold declines, declining in *.
  rewrite IH1, IH2.
  destruct (fetchAdFromProvider p kw) as [ad|e]; cbn; [|done].
  by destruct (truthy ad).
Qed.

Lemma failures_reported providers kw p e :
  p ∈ providers → fetchAdFromProvider p kw = Rejected e →
  (warnMessage p, e) ∈ failures fetchAdFromProvider providers kw.
Proof.
  intros Hin Hp. unfold failures. apply list_elem_of_omap.
  exists p. by rewrite Hp.
Qed.

Lemma slot_of_completed a markup qs kw ws s :
  childNodes <$> document (completed a markup qs kw ws s) !! a
  = (λ _, parseHTML markup) <$> document s !! a.
Proof.
  unfold completed; cbn. rewrite lookup_alter_eq.
  by destruct (document s !! a).
Qed.

End EngineFacts.

(** ** The provider resolution engine *)

(** C1. On a non-empty keyword pool the engine queries the providers one
    after the other in the order of [providerList], each with the whole
    pool. The first provider that resolves to a non-null result with
    non-empty markup ends the loop: its markup is what the ad slot gets,
    and the providers after it are not queried. A provider that declines
    (null or empty markup; a failed lookup counts the same) makes the loop
    go on. When all decline, the ad slot gets the no-match outcome. *)
Theorem providers_tried_in_order_first_match_wins
    (fetchAdFromProvider : string → list string → Settlement)
    (s : State) (a : string) (kw : list string) :
  kw ≠ [] →
  adSlotEl s = Some a →
  let out := fetchAndRenderAd fetchAdFromProvider kw s in
  (∀ pre p post ad,
     providerList = pre ++ p :: post →
     Forall (λ q, declines fetchAdFromProvider q kw = true) pre →
     fetchAdFromProvider p kw = Resolved (Some ad) →
     html ad ≠ "" →
     fst out = Normal tt
     ∧ lookups (snd out) = lookups s ++ ((λ q, (q, kw)) <$> pre ++ [p])
     ∧ renders (snd out) = renders s ++ [painted (Rendered p (html ad))]
     ∧ childNodes <$> document (snd out) !! a
       = (λ _, parseHTML (html ad)) <$> document s !! a)
  ∧ (Forall (λ q, declines fetchAdFromProvider q kw = true) providerList →
     fst out = Normal tt
     ∧ lookups (snd out) = lookups s ++ ((λ q, (q, kw)) <$> providerList)
     ∧ renders (snd out) = renders s ++ [painted (NoAd NoMatch)]
     ∧ childNodes <$> document (snd out) !! a
       = (λ _, parseHTML noMatchMarkup) <$> document s !! a).
Proof.
  intros Hkw Ha out. subst out.
  rewrite (fetchAndRenderAd_run _ _ _ a) by done.
  assert (Hasked : asked fetchAdFromProvider kw
                   = queried fetchAdFromProvider providerList kw)
    by (by destruct kw).
  assert (Hres : resolve fetchAdFromProvider kw
                 = resolveFrom fetchAdFromProvider providerList kw)
    by (by destruct kw).
  rewrite Hasked, Hres. cbn [fst snd]. split.
  - intros pre p post ad Hlist Hpre Hp Hne. rewrite Hlist.
    destruct (first_match fetchAdFromProvider pre p post kw ad) as (-> & -> & _);
      [done..|].
    split; [done|]. split; [done|]. split; [done|].
    apply slot_of_completed.
  - intros Hall.
    destruct (exhausted fetchAdFromProvider providerList kw Hall) as [-> ->].
    split; [done|]. split; [done|]. split; [done|].
    apply slot_of_completed.
Qed.

(** The spec's example: with providers [A → null, B → x, C → y] the ad slot
    gets B's markup and C is never queried; with providers that all
    decline it gets the no-match outcome. *)
Lemma providers_tried_in_order_first_match_wins_witness :
  (let out := fetchAndRenderAd stubNullXY ["ai"; "travel"] ready in
   fst out = Normal tt
   ∧ lookups (snd out)
     = lookups ready ++ [("carbon", ["ai"; "travel"]); ("facebook", ["ai"; "travel"])]
   ∧ renders (snd out) = renders ready ++ ["x"]
   ∧ childNodes <$> document (snd out) !! "ad-slot"
     = (λ _, parseHTML "x") <$> document ready !! "ad-slot")
  ∧ (let out := fetchAndRenderAd stubNone ["ai"; "travel"] ready in
     fst out = Normal tt
     ∧ lookups (snd out)
       = lookups ready ++ ((λ q, (q, ["ai"; "travel"])) <$> providerList)
     ∧ renders (snd out) = renders ready ++ [noMatchMarkup]
     ∧ childNodes <$> document (snd out) !! "ad-slot"
       = (λ _, parseHTML noMatchMarkup) <$> document ready !! "ad-slot").
Proof.
  split.
  - apply (proj1 (providers_tried_in_order_first_match_wins
                    stubNullXY ready "ad-slot" ["ai"; "travel"]
                    ltac:(discriminate) ltac:(reflexivity))
             ["carbon"] "facebook" ["google"] (mkAd "x")).
    + reflexivity.
    + repeat constructor.
    + reflexivity.
    + discriminate.
  - apply (proj2 (providers_tried_in_order_first_match_wins
                    stubNone ready "ad-slot" ["ai"; "travel"]
                    ltac:(discriminate) ltac:(reflexivity))).
    repeat constructor.
Defined.

(** C3. On the empty keyword pool the call is over before any [await]:
    it ends normally, the ad slot gets the empty-pool outcome, no provider
    is queried and nothing is reported. The empty selection yields the
    empty pool. *)
Theorem empty_pool_short_circuits
    (fetchAdFromProvider : string → list string → Settlement)
    (s : State) (a : string) :
  adSlotEl s = Some a →
  let done := completed a (painted (NoAd EmptyPool)) [] [] [] s in
  fetchAndRenderAd fetchAdFromProvider [] s = (Normal tt, done)
  ∧ start [] s = (Normal None, done)
  ∧ lookups done = lookups s
  ∧ console done = console s
  ∧ renders done = renders s ++ [emptyPoolMarkup]
  ∧ (∀ ts, keywordPool ts [] = Some []).
Proof.
  intros Ha done. subst done.
  split; [by rewrite (fetchAndRenderAd_run _ _ _ a)|].
  split.
  { unfold start. rewrite decide_True by done. unfold_js.
    by rewrite (renderAd_run _ a). }
  unfold completed; cbn. by rewrite !app_nil_r.
Qed.

Lemma empty_pool_short_circuits_witness :
  fetchAndRenderAd stubNullXY [] ready
  = (Normal tt, completed "ad-slot" emptyPoolMarkup [] [] [] ready)
  ∧ lookups (completed "ad-slot" emptyPoolMarkup [] [] [] ready) = [].
Proof.
  pose proof (empty_pool_short_circuits stubNullXY ready "ad-slot"
                ltac:(reflexivity)) as (H1 & _ & H3 & _).
  split; [exact H1 | exact H3].
Defined.

(** C4. A provider whose lookup fails never makes the run fail: the run
    ends normally, and what it queries and what it assigns to the ad slot
    are what they would be had every failing provider answered [null]; the
    two runs differ in the console only, where every failure of a queried
    provider is reported. With providers [A → throws, B → markup] the ad
    slot gets B's markup and A's failure is on the console. *)
Theorem provider_failure_is_isolated
    (fetchAdFromProvider : string → list string → Settlement)
    (s : State) (a : string) (kw : list string) :
  adSlotEl s = Some a →
  let out := fetchAndRenderAd fetchAdFromProvider kw s in
  let quiet := fetchAndRenderAd (declining fetchAdFromProvider) kw s in
  fst out = Normal tt
  ∧ set_console [] (snd out) = set_console [] (snd quiet)
  ∧ console (snd quiet) = console s
  ∧ (∀ p e, p ∈ asked fetchAdFromProvider kw →
            fetchAdFromProvider p kw = Rejected e →
            (warnMessage p, e) ∈ console (snd out))
  ∧ (∀ e ad, kw ≠ [] →
       fetchAdFromProvider "carbon" kw = Rejected e →
       fetchAdFromProvider "facebook" kw = Resolved (Some ad) →
       html ad ≠ "" →
       renders (snd out) = renders s ++ [html ad]
       ∧ console (snd out) = console s ++ [(warnMessage "carbon", e)]
       ∧ lookups (snd out) = lookups s ++ [("carbon", kw); ("facebook", kw)]).
Proof.
  intros Ha out quiet. subst out quiet.
  rewrite !(fetchAndRenderAd_run _ _ _ a) by done. cbn [fst snd].
  assert (Hq : asked (declining fetchAdFromProvider) kw
               = asked fetchAdFromProvider kw).
  { destruct kw; [done|]. apply declining_same. }
  assert (Hr : resolve (declining fetchAdFromProvider) kw
               = resolve fetchAdFromProvider kw).
  { destruct kw; [done|]. apply declining_same. }
  rewrite Hq, Hr.
  split; [done|]. split; [done|]. split.
  { unfold completed; cbn.
    destruct (declining_same fetchAdFromProvider (asked fetchAdFromProvider kw) kw)
      as (_ & _ & ->).
    by rewrite app_nil_r. }
  split.
  { intros p e Hin Hp. unfold completed; cbn.
    apply elem_of_app; right. by apply failures_reported. }
  intros e ad Hkw HA HB Hne.
  assert (Hd : declines fetchAdFromProvider "carbon" kw = true)
    by (unfold declines; by rewrite HA).
  destruct (first_match fetchAdFromProvider ["carbon"] "facebook" ["google"] kw ad)
    as (Hres & Hqs & Hfs); [by repeat constructor|done..|].
  change (["carbon"] ++ "facebook" :: ["google"]) with providerList in *.
  destruct kw as [|k kw]; [done|]. cbn [asked resolve].
  rewrite Hres, Hqs. unfold completed; cbn [renders console lookups painted].
  split; [done|]. split; [|done].
  unfold failures; cbn. by rewrite HA, HB.
Qed.

Lemma provider_failure_is_isolated_witness :
  let out := fetchAndRenderAd stubThrowsX ["ai"] ready in
  fst out = Normal tt
  ∧ renders (snd out) = renders ready ++ ["x"]
  ∧ console (snd out)
    = console ready ++ [(warnMessage "carbon", Rejection "timeout")]
  ∧ lookups (snd out) = lookups ready ++ [("carbon", ["ai"]); ("facebook", ["ai"])].
Proof.
  pose proof (provider_failure_is_isolated stubThrowsX ready "ad-slot" ["ai"]
                ltac:(reflexivity)) as (H1 & _ & _ & _ & H5).
  split; [exact H1|].
  apply (H5 (Rejection "timeout") (mkAd "x"));
    [discriminate | reflexivity | reflexivity | discriminate].
Defined.

(** ** The selection *)

Lemma slice_positive {A} (a : list A) (e : Z) :
  (0 ≤ e)%Z → slice a e = take (Z.to_nat e) a.
Proof.
  intros He. unfold slice.
  destruct (e <? 0)%Z eqn:Hlt; [apply Z.ltb_lt in Hlt; lia|].
  destruct (decide (e ≤ Z.of_nat (length a))%Z) as [Hle|Hgt].
  - by rewrite Z.min_l.
  - rewrite Z.min_r, Nat2Z.id by lia.
    rewrite !take_ge; [done|lia..].
Qed.

Lemma slice_negative {A} (a : list A) (e : Z) :
  (e < 0)%Z → slice a e = take (length a - Z.to_nat (- e)) a.
Proof.
  intros He. unfold slice.
  destruct (e <? 0)%Z eqn:Hlt; [|apply Z.ltb_ge in Hlt; lia].
  f_equal. lia.
Qed.

Lemma Sorted_take {A} (R : relation A) (l : list A) (n : nat) :
  Sorted R l → Sorted R (take n l).
Proof.
  intros Hl. revert n.
  induction Hl as [|x l Hl IH Hx]; intros [|n]; cbn; try constructor.
  - apply IH.
  - destruct Hx as [|y l Hxy]; [destruct n|destruct n]; cbn; by constructor.
Qed.

Lemma Sorted_slice {A} (R : relation A) (l : list A) (e : Z) :
  Sorted R l → Sorted R (slice l e).
Proof. intros. unfold slice. by apply Sorted_take. Qed.

Lemma sort_Sorted (a : list nat) : Sorted (≤) (sort a).
Proof. unfold sort. apply (Sorted_merge_sort (≤)). Qed.

Lemma sort_Permutation (a : list nat) : sort a ≡ₚ a.
Proof. unfold sort. apply merge_sort_Permutation. Qed.

(** C2. For every batch of entries and every positive count, the selection
    is the reported-visible indices put in ascending order of position and
    cut to the first [count] of them: it is a prefix of the sorted
    membership, it is sorted, and it is never longer than [count]. *)
Theorem selection_sorted_and_capped (count : Z) (entries : list Entry) :
  (0 < count)%Z →
  let membership := visibleIdx entries in
  let selection := trimmed count entries in
  selection = take (Z.to_nat count) (sort membership)
  ∧ Sorted (≤) (sort membership)
  ∧ sort membership ≡ₚ membership
  ∧ Sorted (≤) selection
  ∧ (Z.of_nat (length selection) ≤ count)%Z
  ∧ length selection = Z.to_nat count `min` length membership.
Proof.
  intros Hpos membership selection. subst membership selection.
  unfold trimmed. rewrite slice_positive by lia.
  split; [done|]. split; [apply sort_Sorted|].
  split; [apply sort_Permutation|].
  split; [apply Sorted_take, sort_Sorted|].
  rewrite length_take, (Permutation_length (sort_Permutation _)).
  split; lia.
Qed.

Lemma selection_sorted_and_capped_witness :
  trimmed 3 [entryOf 4 true; entryOf 1 true; entryOf 3 false;
             entryOf 0 true; entryOf 2 true]
  = [0; 1; 2].
Proof.
  pose proof (selection_sorted_and_capped 3
                [entryOf 4 true; entryOf 1 true; entryOf 3 false;
                 entryOf 0 true; entryOf 2 true]
                ltac:(lia)) as (H & _).
  rewrite H. reflexivity.
Defined.

(** ** The callbacks, run to completion *)

Lemma selectVisible_run entries s c f pool :
  config s = Some c → feedEl s = Some f →
  keywordPool (tags c) (trimmed (visibleTagCount c) entries) = Some pool →
  selectVisible entries s
  = (Normal pool, highlighted f (trimmed (visibleTagCount c) entries) s).
Proof.
  intros Hc Hf Hp. unfold selectVisible, updateElement. unfold_js.
  rewrite Hc, Hf. cbn. by rewrite Hp.
Qed.

Lemma recount_run vp n s c f :
  config s = Some c → feedEl s = Some f →
  recount vp n s
  = (Normal (visibleEntries vp (tagElementsOf f s)),
     set_config (Some (mkConfig (feedElementId c) (adSlotId c) n
                         (tagSpacingPx c) (tags c))) s).
Proof.
  intros Hc Hf. unfold recount. unfold_js. rewrite Hc. cbn. by rewrite Hf.
Qed.

Lemma visibleIdx_visibleEntries vp els :
  visibleIdx (visibleEntries vp els)
  = dataset_idx <$>
      filter (λ el, (tagRight vp (dataset_idx el) ≤ feedRight vp)%Z) els.
Proof.
  unfold visibleIdx, visibleEntries.
  induction (filter _ els) as [|el l IH]; [done|].
  rewrite fmap_cons, filter_cons_True by done.
  rewrite fmap_cons. cbn. by f_equal.
Qed.

Lemma slice_subseteq {A} (l : list A) (e : Z) : slice l e ⊆ l.
Proof. unfold slice. apply subseteq_take. Qed.

Lemma trimmed_subseteq count entries :
  trimmed count entries ⊆ visibleIdx entries.
Proof.
  unfold trimmed. intros x Hx. apply slice_subseteq in Hx.
  by rewrite sort_Permutation in Hx.
Qed.

(** The pool is defined as soon as every selected index is a position of
    [tags]. *)
Lemma keywordPool_total ts sel :
  Forall (λ i, i < length ts) sel → is_Some (keywordPool ts sel).
Proof.
  induction 1 as [|i sel Hi _ [pool IH]]; cbn; [by eexists|].
  destruct (lookup_lt_is_Some_2 ts i Hi) as [t ->].
  rewrite IH. by eexists.
Qed.

Lemma keywordPool_concat ts sel pool :
  keywordPool ts sel = Some pool →
  ∃ selected, Forall2 (λ i t, ts !! i = Some t) sel selected
              ∧ pool = concat (keywords <$> selected).
Proof.
  revert pool. induction sel as [|i sel IH]; intros pool; cbn.
  - intros [= <-]. exists []. by split; [constructor|].
  - destruct (ts !! i) as [t|] eqn:Ht; [|done].
    destruct (keywordPool ts sel) as [ks|]; [|done].
    intros [= <-]. destruct (IH ks eq_refl) as (sl & Hsl & ->).
    exists (t :: sl). by split; [constructor|].
Qed.

Lemma handleVisibilityChange_run fetchAdFromProvider entries s c f a pool :
  config s = Some c → feedEl s = Some f → adSlotEl s = Some a →
  keywordPool (tags c) (trimmed (visibleTagCount c) entries) = Some pool →
  handleVisibilityChange fetchAdFromProvider entries s
  = (Normal tt,
     completed a (painted (resolve fetchAdFromProvider pool))
       (asked fetchAdFromProvider pool) pool
       (failures fetchAdFromProvider (asked fetchAdFromProvider pool) pool)
       (highlighted f (trimmed (visibleTagCount c) entries) s)).
Proof.
  intros Hc Hf Ha Hp. unfold handleVisibilityChange.
  unfold mbind, Js_bind at 1.
  rewrite (selectVisible_run _ _ c f pool) by done.
  by rewrite (fetchAndRenderAd_run _ _ _ a).
Qed.

(** C7, as the code has it. [updateVisibleCount] validates nothing: on
    the initialised module, for every integer [n], positive or not, it ends
    normally, stores [n] as the visible count and recomputes once, at once:
    without waiting for the observer it runs the observer callback a single
    time, on entries it makes up itself, all intersecting and all for tag
    elements of the feed. So one selection is computed and one outcome, that
    of the selection's pool, is rendered. For a positive [n] the selection
    is the first [n], by position, of the tags of those entries. Which tag
    elements the function takes as visible is not part of the statement. *)
Theorem updateVisibleCount_stores_any_count_and_recomputes_once
    (fetchAdFromProvider : string → list string → Settlement)
    (vp : Viewport) (n : Z) (s : State) :
  Initialised s →
  let out := updateVisibleCount fetchAdFromProvider vp n s in
  ∃ c f entries pool,
    config s = Some c ∧ feedEl s = Some f
    ∧ fst (recount vp n s) = Normal entries
    ∧ Forall (λ e, isIntersecting e = true ∧ target e ∈ tagElementsOf f s) entries
    ∧ out = handleVisibilityChange fetchAdFromProvider entries (snd (recount vp n s))
    ∧ keywordPool (tags c) (trimmed n entries) = Some pool
    ∧ fst out = Normal tt
    ∧ config (snd out)
      = Some (mkConfig (feedElementId c) (adSlotId c) n (tagSpacingPx c) (tags c))
    ∧ renders (snd out) = renders s ++ [painted (resolve fetchAdFromProvider pool)]
    ∧ lookups (snd out)
      = lookups s ++ ((λ p, (p, pool)) <$> asked fetchAdFromProvider pool)
    ∧ ((0 < n)%Z →
       trimmed n entries = take (Z.to_nat n) (sort (visibleIdx entries))).
Proof.
  intros (c & f & a & Hc & Hf & Ha & Hidx) out.
  set (entries := visibleEntries vp (tagElementsOf f s)).
  assert (Hent : Forall (λ e, isIntersecting e = true
                              ∧ target e ∈ tagElementsOf f s) entries).
  { apply Forall_forall. intros e He. unfold entries, visibleEntries in He.
    apply list_elem_of_fmap in He as (el & -> & Hel).
    apply list_elem_of_filter in Hel as [_ Hel]. by split. }
  destruct (keywordPool_total (tags c) (trimmed n entries)) as [pool Hpool].
  { apply Forall_forall. intros i Hi.
    apply trimmed_subseteq in Hi. unfold visibleIdx in Hi.
    apply list_elem_of_fmap in Hi as (e & -> & He).
    apply list_elem_of_filter in He as [_ He].
    apply (proj1 (Forall_forall _ _) Hent) in He as [_ He].
    by apply (proj1 (Forall_forall _ _) Hidx). }
  assert (Hrec : recount vp n s
    = (Normal entries,
       set_config (Some (mkConfig (feedElementId c) (adSlotId c) n
                           (tagSpacingPx c) (tags c))) s)).
  { by apply recount_run. }
  assert (Hout : out
    = handleVisibilityChange fetchAdFromProvider entries (snd (recount vp n s))).
  { subst out. unfold updateVisibleCount. unfold mbind, Js_bind.
    by rewrite Hrec. }
  assert (Hrun : out
    = (Normal tt,
       completed a (painted (resolve fetchAdFromProvider pool))
         (asked fetchAdFromProvider pool) pool
         (failures fetchAdFromProvider (asked fetchAdFromProvider pool) pool)
         (highlighted f (trimmed n entries)
            (set_config (Some (mkConfig (feedElementId c) (adSlotId c) n
                                 (tagSpacingPx c) (tags c))) s)))).
  { rewrite Hout, Hrec. cbn [snd].
    by rewrite (handleVisibilityChange_run _ _ _
                  (mkConfig (feedElementId c) (adSlotId c) n (tagSpacingPx c) (tags c))
                  f a pool). }
  exists c, f, entries, pool.
  split; [done|]. split; [done|]. split; [by rewrite Hrec|].
  split; [done|]. split; [done|]. split; [done|].
  rewrite Hrun. cbn [fst snd].
  split; [done|]. split; [done|]. split; [done|]. split; [done|].
  intros Hn. unfold trimmed. by rewrite slice_positive by lia.
Qed.

Lemma updateVisibleCount_stores_any_count_and_recomputes_once_witness :
  let out := updateVisibleCount stubNullXY wideViewport 3 ready in
  fst out = Normal tt
  ∧ visibleTagCount <$> config (snd out) = Some 3%Z
  ∧ length (renders (snd out)) = length (renders ready) + 1.
Proof.
  assert (Hready : Initialised ready).
  { exists (mkConfig "tag-feed" "ad-slot" 5 12 demoTags), "tag-feed", "ad-slot".
    split; [reflexivity|]. split; [reflexivity|]. split; [reflexivity|].
    vm_compute. repeat constructor. }
  destruct (updateVisibleCount_stores_any_count_and_recomputes_once
              stubNullXY wideViewport 3 ready Hready)
    as (c & f & entries & pool & _ & _ & _ & _ & _ & _ & H1 & H2 & H3 & _).
  split; [exact H1|]. split; [rewrite H2; reflexivity|].
  rewrite H3, length_app. reflexivity.
Defined.

(** The claim C7 asks that a count of 0 or -3 be refused and the state be
    left as it was. On the initialised module with all five tags in view,
    [updateVisibleCount(0)] and [updateVisibleCount(-3)] both end normally
    and store the count; the first selects nothing and renders the
    empty-pool outcome, the second selects the first two tags (a negative
    end of [slice] counts from the end). *)
Lemma updateVisibleCount_accepts_zero_and_negative :
  let out0 := updateVisibleCount Placeholder.fetchAdFromProvider wideViewport 0 ready in
  let out3 := updateVisibleCount Placeholder.fetchAdFromProvider wideViewport (-3) ready in
  (fst out0 = Normal tt
   ∧ visibleTagCount <$> config (snd out0) = Some 0%Z
   ∧ config (snd out0) ≠ config ready
   ∧ renders (snd out0) = [emptyPoolMarkup])
  ∧ (fst out3 = Normal tt
     ∧ visibleTagCount <$> config (snd out3) = Some (-3)%Z
     ∧ config (snd out3) ≠ config ready
     ∧ renders (snd out3) = [Placeholder.carbonAd]
     ∧ lookups (snd out3) = [("carbon", ["google ads"; "seo"; "carbon offset"])]).
Proof.
  vm_compute. repeat split; discriminate.
Qed.

(** ** Initialisation *)

Lemma getElementById_Some id s :
  is_Some (document s !! id) → getElementById id s = Some id.
Proof. intros H. unfold getElementById. by rewrite decide_True. Qed.

Lemma getElementById_None id s :
  document s !! id = None → getElementById id s = None.
Proof.
  intros H. unfold getElementById. rewrite decide_False; [done|].
  rewrite H. by intros [? ?].
Qed.

(** C8, as the code has it. With both element ids given and non-empty:
    [init] fails with the missing-options error, before it touches the
    state, when [tags] is not an array; it fails with another error, the
    elements-not-found one, when the feed or the ad slot is not in the
    document; otherwise it succeeds, whatever the visible count: a count
    that is absent becomes 5, a count that is given is stored as it is. *)
Theorem init_checks_tags_and_targets_not_the_count
    (opts : Options) (s : State) (fid aid : string) :
  opt_feedElementId opts = Some fid → opt_adSlotId opts = Some aid →
  fid ≠ "" → aid ≠ "" →
  let out := init opts s in
  (isArray (opt_tags opts) = false → out = (Throw (Error missingOptions), s))
  ∧ (isArray (opt_tags opts) = true →
     document s !! fid = None ∨ document s !! aid = None →
     fst out = Throw (Error elementsNotFound))
  ∧ elementsNotFound ≠ missingOptions
  ∧ (isArray (opt_tags opts) = true →
     is_Some (document s !! fid) → is_Some (document s !! aid) →
     fst out = Normal tt
     ∧ config (snd out)
       = Some (mkConfig fid aid (default 5%Z (opt_visibleTagCount opts))
                 (default 12%Z (opt_tagSpacingPx opts)) (tagsOf (opt_tags opts)))
     ∧ feedEl (snd out) = Some fid
     ∧ adSlotEl (snd out) = Some aid).
Proof.
  intros Hfid Haid Hf Ha out. subst out. unfold init.
  rewrite Hfid, Haid. cbn [falsy default].
  rewrite !bool_decide_eq_false_2 by done. cbn [orb].
  split; [by intros ->|].
  split.
  { intros -> Hmiss. cbn [negb]. unfold_js. cbn.
    destruct Hmiss as [H|H].
    - rewrite (getElementById_None fid) by done.
      by rewrite (bool_decide_eq_true_2 (None = None)) by done.
    - rewrite (getElementById_None aid) by done.
      rewrite (bool_decide_eq_true_2 (None = None)) by done.
      by rewrite orb_true_r. }
  split; [done|].
  intros -> Hfe Hae. cbn [negb]. unfold_js. cbn.
  rewrite (getElementById_Some fid) by done.
  rewrite (getElementById_Some aid) by done.
  rewrite !bool_decide_eq_false_2 by done. cbn [orb].
  unfold renderTags, setupVisibilityObserver, setInnerHTML, updateElement.
  unfold_js. cbn. done.
Qed.

Lemma init_checks_tags_and_targets_not_the_count_witness :
  init noTagsOptions fresh = (Throw (Error missingOptions), fresh)
  ∧ fst (init lostSlotOptions fresh) = Throw (Error elementsNotFound)
  ∧ fst (init demoOptions fresh) = Normal tt
  ∧ config (snd (init demoOptions fresh))
    = Some (mkConfig "tag-feed" "ad-slot" 5 12 demoTags).
Proof.
  split.
  { apply (init_checks_tags_and_targets_not_the_count noTagsOptions fresh
             "tag-feed" "ad-slot");
      [reflexivity | reflexivity | discriminate | discriminate | reflexivity]. }
  split.
  { apply (init_checks_tags_and_targets_not_the_count lostSlotOptions fresh
             "tag-feed" "nowhere");
      [reflexivity | reflexivity | discriminate | discriminate | reflexivity
      | right; reflexivity]. }
  pose proof (init_checks_tags_and_targets_not_the_count demoOptions fresh
                "tag-feed" "ad-slot" ltac:(reflexivity) ltac:(reflexivity)
                ltac:(discriminate) ltac:(discriminate)) as (_ & _ & _ & H).
  destruct H as (H1 & H2 & _);
    [reflexivity | by eexists | by eexists |].
  split; [exact H1 | exact H2].
Defined.

(** The claim C8 asks that a visible count that is missing or not positive
    make [init] fail. On the page of the examples, [init] succeeds with a
    count of 0, with a count of -3 and with no count, and keeps 0, -3 and
    5. *)
Lemma init_accepts_missing_and_non_positive_counts :
  (fst (init zeroCountOptions fresh) = Normal tt
   ∧ visibleTagCount <$> config (snd (init zeroCountOptions fresh)) = Some 0%Z)
  ∧ (fst (init negativeCountOptions fresh) = Normal tt
     ∧ visibleTagCount <$> config (snd (init negativeCountOptions fresh))
       = Some (-3)%Z)
  ∧ (opt_visibleTagCount demoOptions = None
     ∧ fst (init demoOptions fresh) = Normal tt
     ∧ visibleTagCount <$> config (snd (init demoOptions fresh)) = Some 5%Z).
Proof. vm_compute. repeat split. Qed.

(** ** Spacing *)

Lemma childNodes_setProperty name value (d : gmap string Element) f id :
  childNodes <$> alter (setProperty name value) f d !! id = childNodes <$> d !! id.
Proof.
  destruct (decide (f = id)) as [->|Hne].
  - rewrite lookup_alter_eq. by destruct (d !! id).
  - by rewrite lookup_alter_ne.
Qed.

(** C10. For every [px] and from every state, [updateSpacing(px)] leaves
    the visible count, the tags and the element ids of the configuration,
    the three other module variables, the children of every element (the
    highlighted tags and the content of the ad slot among them) and the
    console as they are; it queries no provider and assigns nothing to the
    ad slot; the pool selected for any entries is the same after as before.
    When it ends normally, what it did change is the spacing of the
    configuration and the [--tag-spacing] property of the feed. *)
Theorem updateSpacing_changes_spacing_only (px : Z) (s : State) :
  let out := updateSpacing px s in
  visibleTagCount <$> config (snd out) = visibleTagCount <$> config s
  ∧ tags <$> config (snd out) = tags <$> config s
  ∧ feedElementId <$> config (snd out) = feedElementId <$> config s
  ∧ adSlotId <$> config (snd out) = adSlotId <$> config s
  ∧ feedEl (snd out) = feedEl s
  ∧ adSlotEl (snd out) = adSlotEl s
  ∧ observer (snd out) = observer s
  ∧ (∀ id, childNodes <$> document (snd out) !! id = childNodes <$> document s !! id)
  ∧ console (snd out) = console s
  ∧ lookups (snd out) = lookups s
  ∧ renders (snd out) = renders s
  ∧ (∀ entries, fst (selectVisible entries (snd out)) = fst (selectVisible entries s))
  ∧ (fst out = Normal tt →
     tagSpacingPx <$> config (snd out) = Some px
     ∧ ∃ f, feedEl s = Some f
            ∧ style <$> document (snd out) !! f
              = (λ e, <["--tag-spacing" := spacingValue px]> (style e))
                  <$> document s !! f).
Proof.
  intros out. subst out. unfold updateSpacing, updateElement. unfold_js.
  destruct (config s) as [c|] eqn:Hc; cbn.
  - destruct (feedEl s) as [f|] eqn:Hf; cbn.
    + repeat (split; [try done|]).
      * intros id. apply childNodes_setProperty.
      * intros entries. unfold selectVisible, updateElement. unfold_js.
        cbn. rewrite Hc, Hf. cbn.
        by destruct (keywordPool _ _).
      * exists f. split; [done|].
        rewrite lookup_alter_eq. by destruct (document s !! f).
    + repeat (split; [try done|]); try done.
      intros entries. unfold selectVisible. unfold_js. cbn.
      by rewrite ?Hc, ?Hf.
  - repeat (split; [try done|]); by rewrite ?Hc.
Qed.

(** C10 on the initialised module: a spacing of 20 is stored and nothing
    else of the configuration moves. *)
Lemma updateSpacing_changes_spacing_only_witness :
  let out := updateSpacing 20 ready in
  visibleTagCount <$> config (snd out) = visibleTagCount <$> config ready
  ∧ tags <$> config (snd out) = tags <$> config ready
  ∧ renders (snd out) = renders ready
  ∧ tagSpacingPx <$> config (snd out) = Some 20%Z.
Proof.
  pose proof (updateSpacing_changes_spacing_only 20 ready)
    as (H1 & H2 & _ & _ & _ & _ & _ & _ & _ & _ & H11 & _ & H13).
  split; [exact H1|]. split; [exact H2|]. split; [exact H11|].
  apply H13. vm_compute. reflexivity.
Defined.

(** ** The coroutine *)

Section Coroutine.

Variable fetchAdFromProvider : string → list string → Settlement.

Lemma resolveFrom_cons p rest kw :
  resolveFrom fetchAdFromProvider (p :: rest) kw
  = if declines fetchAdFromProvider p kw
    then resolveFrom fetchAdFromProvider rest kw
    else resolveFrom fetchAdFromProvider [p] kw.
Proof.
  cbn. unfold declines.
  destruct (fetchAdFromProvider p kw) as [ad|e]; [|done].
  destruct (truthy ad); [by rewrite bool_decide_eq_false_2|].
  by rewrite bool_decide_eq_true_2.
Qed.

Lemma failures_cons p rest kw :
  failures fetchAdFromProvider (p :: rest) kw
  = failures fetchAdFromProvider [p] kw ++ failures fetchAdFromProvider rest kw.
Proof.
  unfold failures. cbn. by destruct (fetchAdFromProvider p kw).
Qed.

Lemma failures_accepting p kw :
  declines fetchAdFromProvider p kw = false →
  failures fetchAdFromProvider [p] kw = [].
Proof.
  unfold declines, failures. cbn.
  by destruct (fetchAdFromProvider p kw).
Qed.

(** One resumption: the awaited provider declines and the loop goes on
    (after the warning, if the lookup failed), or its markup is assigned
    and the call is over. *)
Lemma resume_run r s a :
  adSlotEl s = Some a →
  resume fetchAdFromProvider r s =
    if declines fetchAdFromProvider (run_awaiting r) (run_keywords r)
    then enterLoop (run_rest r) (run_keywords r)
           (set_console
              (console s ++ failures fetchAdFromProvider [run_awaiting r] (run_keywords r))
              s)
    else (Normal None,
          completed a
            (painted (resolveFrom fetchAdFromProvider [run_awaiting r] (run_keywords r)))
            [] (run_keywords r) [] s).
Proof.
  intros Ha. unfold resume, settled, afterLookup, console_warn, declines, failures.
  cbn [omap list_omap resolveFrom]. unfold_js.
  destruct (fetchAdFromProvider (run_awaiting r) (run_keywords r)) as [ad|e].
  - destruct (truthy ad) as [m|].
    + rewrite (renderAd_run _ a) by done.
      by rewrite bool_decide_eq_false_2.
    + rewrite bool_decide_eq_true_2 by done.
      f_equal. destruct s; unfold set_console; cbn. by rewrite app_nil_r.
  - done.
Qed.

Lemma finish_None n s :
  finish fetchAdFromProvider n None s = (Normal tt, s).
Proof. by destruct n. Qed.

Lemma finish_run n p rest kw s a :
  adSlotEl s = Some a → length rest < n →
  finish fetchAdFromProvider n (Some (mkRun kw p rest)) s =
    (Normal tt,
     completed a (painted (resolveFrom fetchAdFromProvider (p :: rest) kw))
       (tail (queried fetchAdFromProvider (p :: rest) kw)) kw
       (failures fetchAdFromProvider (queried fetchAdFromProvider (p :: rest) kw) kw)
       s).
Proof.
  revert n p s. induction rest as [|q rest IH]; intros n p s Ha Hn;
    (destruct n as [|n]; [cbn in Hn; lia|]);
    rewrite (resolveFrom_cons p); cbn [queried tail];
    rewrite (failures_cons p);
    cbn [finish]; unfold mbind, Js_bind;
    rewrite (resume_run _ _ a) by done;
    cbn [run_awaiting run_keywords run_rest];
    destruct (declines fetchAdFromProvider p kw) eqn:Hd;
    rewrite ?finish_None, ?(failures_accepting p) by done; try done.
  - cbn [enterLoop]. unfold_js.
    rewrite (renderAd_run _ a) by done. rewrite finish_None.
    unfold completed, set_console.
    cbn [config feedEl adSlotEl observer document console lookups renders].
    cbn [resolveFrom]. unfold failures at 2. cbn [omap list_omap].
    by rewrite !app_nil_r.
  - cbn [enterLoop]. unfold callProvider. unfold_js.
    rewrite IH; [|exact Ha|cbn in Hn; lia].
    unfold completed, set_lookups, set_console.
    cbn [config feedEl adSlotEl observer document console lookups renders].
    cbn [queried tail]. by rewrite ?fmap_cons, <-?app_assoc.
Qed.

(** The two readings of [fetchAndRenderAd] agree. *)
Lemma coroutine_adequate kw s a :
  adSlotEl s = Some a →
  (r ← start kw; finish fetchAdFromProvider (length providerList) r) s
  = fetchAndRenderAd fetchAdFromProvider kw s.
Proof.
  intros Ha. rewrite (fetchAndRenderAd_run _ _ _ a) by done.
  unfold start. destruct kw as [|k kw]; cbn [length].
  - rewrite decide_True by done. unfold_js.
    rewrite (renderAd_run _ a) by done. by rewrite finish_None.
  - rewrite decide_False by done. unfold providerList.
    cbn [enterLoop]. unfold callProvider. unfold_js.
    rewrite (finish_run _ _ _ _ _ a); [|exact Ha|cbn; lia].
    cbn [asked resolve]. unfold providerList.
    unfold completed, set_lookups.
    cbn [config feedEl adSlotEl observer document console lookups renders].
    cbn [queried tail]. by rewrite fmap_cons, <-!app_assoc.
Qed.

End Coroutine.

(** ** Overlapping runs *)

Section Overlap.

Variable fetchAdFromProvider : string → list string → Settlement.

Lemma start_suspends k kw s :
  start (k :: kw) s
  = (Normal (Some (mkRun (k :: kw) "carbon" ["facebook"; "google"])),
     set_lookups (lookups s ++ [("carbon", k :: kw)]) s).
Proof. unfold start. by rewrite decide_False. Qed.

End Overlap.

(** C6, where the code departs from it. The claim asks that every run
    carry a generation number and that the result of a superseded run be
    discarded. A run of [fetchAndRenderAd] carries no generation number and
    nothing compares runs: whenever a run ends, its outcome is assigned to
    the ad slot. With the placeholder adapter on the initialised module:
    tag 0 comes into view and run 1 starts; tag 1 comes into view and
    run 2 starts; run 2 matches at its first lookup and ends, run 1 matches
    at its third and ends last. Both results are assigned, and the ad slot
    is left with the Google placeholder of run 1 while the highlighted
    selection is tag 1, whose outcome is the Carbon placeholder: the
    highlighted tags are no longer those that decided the displayed ad. *)
Lemma stale_result_reaches_the_ad_slot :
  let w := reacts Placeholder.fetchAdFromProvider overlap (mkWorld ready []) in
  inflight w = []
  ∧ activeIdx "tag-feed" (state w) = [1]
  ∧ fst (selectVisible [entryOf 1 true] ready) = Normal ["carbon offset"]
  ∧ painted (resolve Placeholder.fetchAdFromProvider ["carbon offset"])
    = Placeholder.carbonAd
  ∧ renders (state w) = [Placeholder.carbonAd; Placeholder.googleAd]
  ∧ childNodes <$> document (state w) !! "ad-slot"
    = Some [Markup Placeholder.googleAd]
  ∧ Placeholder.googleAd ≠ Placeholder.carbonAd.
Proof. vm_compute. repeat split. discriminate. Qed.

(** ** One outcome per call *)

Section Accounting.

Variable fetchAdFromProvider : string → list string → Settlement.

(** The synchronous part of a callback leaves the ad slot alone. *)
Lemma selectVisible_frame entries s :
  adSlotEl (snd (selectVisible entries s)) = adSlotEl s
  ∧ renders (snd (selectVisible entries s)) = renders s.
Proof.
  unfold selectVisible, updateElement. unfold_js.
  destruct (config s) as [c|]; [|done].
  destruct (feedEl s) as [f|]; [|done]. cbn.
  by destruct (keywordPool _ _).
Qed.

Lemma recount_frame vp n s :
  adSlotEl (snd (recount vp n s)) = adSlotEl s
  ∧ renders (snd (recount vp n s)) = renders s.
Proof.
  unfold recount. unfold_js.
  destruct (config s) as [c|]; [|done]. cbn.
  by destruct (feedEl s).
Qed.

Lemma enterLoop_accounts providers kw s a :
  adSlotEl s = Some a →
  ∃ o s' out,
    enterLoop providers kw s = (Normal o, s')
    ∧ adSlotEl s' = Some a
    ∧ renders s' = renders s ++ out
    ∧ length out + length (option_list o) = 1.
Proof.
  intros Ha. destruct providers as [|p rest]; cbn [enterLoop]; unfold_js.
  - rewrite (renderAd_run _ a) by done.
    by eexists None, _, [noMatchMarkup].
  - unfold callProvider, modify.
    eexists (Some _), _, []. by rewrite app_nil_r.
Qed.

Lemma start_accounts kw s a :
  adSlotEl s = Some a →
  ∃ o s' out,
    start kw s = (Normal o, s')
    ∧ adSlotEl s' = Some a
    ∧ renders s' = renders s ++ out
    ∧ length out + length (option_list o) = 1.
Proof.
  intros Ha. unfold start. case_decide.
  - unfold_js. rewrite (renderAd_run _ a) by done.
    by eexists None, _, [emptyPoolMarkup].
  - by apply enterLoop_accounts.
Qed.

Lemma resume_accounts r s a :
  adSlotEl s = Some a →
  ∃ o s' out,
    resume fetchAdFromProvider r s = (Normal o, s')
    ∧ adSlotEl s' = Some a
    ∧ renders s' = renders s ++ out
    ∧ length out + length (option_list o) = 1.
Proof.
  intros Ha. rewrite (resume_run _ _ _ a) by done.
  destruct (declines _ _ _).
  - destruct (enterLoop_accounts (run_rest r) (run_keywords r)
                (set_console
                   (console s ++ failures fetchAdFromProvider [run_awaiting r]
                                   (run_keywords r)) s) a Ha)
      as (o & s' & out & H1 & H2 & H3 & H4).
    by exists o, s', out.
  - eexists None, _, [_]. by unfold completed.
Qed.

(** A callback that computes a pool and then calls [fetchAndRenderAd]. *)
Lemma spawn_accounts (pre : Js (list string)) w a :
  (∀ s, adSlotEl (snd (pre s)) = adSlotEl s ∧ renders (snd (pre s)) = renders s) →
  adSlotEl (state w) = Some a →
  let w' := spawn (pool ← pre; start pool) w in
  adSlotEl (state w') = Some a
  ∧ ∃ out, renders (state w') = renders (state w) ++ out
           ∧ length out + length (inflight w')
             = length (inflight w)
               + match fst (pre (state w)) with Normal _ => 1 | Throw _ => 0 end.
Proof.
  intros Hpre Ha w'. subst w'. unfold spawn. unfold mbind, Js_bind.
  destruct (Hpre (state w)) as [Hpa Hpr].
  destruct (pre (state w)) as [[pool|e] s1]; cbn [fst snd] in *.
  - destruct (start_accounts pool s1 a) as (o & s' & out & -> & Ha' & Hr & Hlen);
      [congruence|].
    destruct o as [r|]; cbn [state inflight].
    + split; [done|]. exists out. split; [congruence|].
      rewrite length_app. cbn in *. lia.
    + split; [done|]. exists out. split; [congruence|]. cbn in *. lia.
  - cbn [state inflight]. split; [congruence|]. exists [].
    rewrite app_nil_r. split; [done|]. cbn. lia.
Qed.

Lemma react_accounts ev w a :
  adSlotEl (state w) = Some a →
  let w' := react fetchAdFromProvider ev w in
  adSlotEl (state w') = Some a
  ∧ ∃ out, renders (state w') = renders (state w) ++ out
           ∧ length out + length (inflight w')
             = length (inflight w) + callsMade ev (state w).
Proof.
  intros Ha. destruct ev as [entries|vp n|i]; cbn [react callsMade].
  - apply (spawn_accounts (selectVisible entries)); [|done].
    intros s. apply selectVisible_frame.
  - replace (spawn (updateVisibleCount_async vp n) w)
      with (spawn (pool ← (entries ← recount vp n; selectVisible entries);
                   start pool) w).
    2: { unfold spawn, updateVisibleCount_async, handleVisibilityChange_async.
         unfold mbind, Js_bind. by destruct (recount vp n (state w)) as [[?|?] ?]. }
    apply (spawn_accounts (entries ← recount vp n; selectVisible entries)); [|done].
    intros s. unfold mbind, Js_bind.
    destruct (recount_frame vp n s) as [H1 H2].
    destruct (recount vp n s) as [[entries|e] s1]; cbn [fst snd] in *; [|done].
    destruct (selectVisible_frame entries s1) as [H3 H4]. split; congruence.
  - destruct (inflight w !! i) as [r|] eqn:Hi.
    + destruct (resume_accounts r (state w) a Ha)
        as (o & s' & out & -> & Ha' & Hr & Hlen).
      pose proof (lookup_lt_Some _ _ _ Hi) as Hlt.
      destruct o as [r'|]; cbn [state inflight].
      * split; [done|]. exists out. split; [done|].
        rewrite length_insert. cbn in *. lia.
      * split; [done|]. exists out. split; [done|].
        rewrite length_delete by eauto. cbn in *. lia.
    + split; [done|]. exists []. rewrite app_nil_r. split; [done|]. cbn. lia.
Qed.

Lemma reacts_accounts evs w a :
  adSlotEl (state w) = Some a →
  let w' := reacts fetchAdFromProvider evs w in
  adSlotEl (state w') = Some a
  ∧ ∃ out, renders (state w') = renders (state w) ++ out
           ∧ length out + length (inflight w')
             = length (inflight w) + callsAlong fetchAdFromProvider evs w.
Proof.
  revert w. induction evs as [|ev evs IH]; intros w Ha.
  - cbn. split; [done|]. exists []. rewrite app_nil_r. split; [done|]. cbn. lia.
  - destruct (react_accounts ev w a Ha) as (Ha1 & out1 & Hr1 & Hl1).
    destruct (IH _ Ha1) as (Ha2 & out2 & Hr2 & Hl2).
    unfold reacts in *. cbn [foldl callsAlong].
    split; [done|]. exists (out1 ++ out2).
    split; [by rewrite Hr2, Hr1, app_assoc|].
    rewrite length_app. lia.
Qed.

End Accounting.

(** ** Delivery to the ad slot *)

Lemma slotContent_completed a markup qs kw ws s :
  slotContent a (completed a markup qs kw ws s)
  = (λ _, parseHTML markup) <$> slotContent a s.
Proof.
  unfold slotContent. rewrite slot_of_completed.
  by destruct (document s !! a).
Qed.

Lemma showsLast_app a s s1 s2 out1 out2 :
  showsLast a s s1 out1 → showsLast a s1 s2 out2 →
  showsLast a s s2 (out1 ++ out2).
Proof.
  unfold showsLast. intros H1 H2. rewrite last_app.
  destruct (last out2) as [m2|]; [|congruence].
  rewrite H2, H1.
  destruct (last out1); by destruct (slotContent a s).
Qed.

Section Delivery.

Variable fetchAdFromProvider : string → list string → Settlement.

Lemma enterLoop_pending providers kw s a :
  adSlotEl s = Some a →
  ∃ o s',
    enterLoop providers kw s = (Normal o, s')
    ∧ adSlotEl s' = Some a ∧ feedEl s' = feedEl s
    ∧ pending fetchAdFromProvider a
        (painted (resolveFrom fetchAdFromProvider providers kw)) s o s'.
Proof.
  intros Ha. destruct providers as [|p rest]; cbn [enterLoop]; unfold_js.
  - rewrite (renderAd_run _ a) by done. eexists None, _.
    split; [done|]. split; [done|]. split; [done|].
    split; [done|]. apply slotContent_completed.
  - unfold callProvider, modify. eexists (Some _), _.
    split; [done|]. by repeat split.
Qed.

Lemma start_pending kw s a :
  adSlotEl s = Some a →
  ∃ o s',
    start kw s = (Normal o, s')
    ∧ adSlotEl s' = Some a ∧ feedEl s' = feedEl s
    ∧ pending fetchAdFromProvider a
        (painted (resolve fetchAdFromProvider kw)) s o s'.
Proof.
  intros Ha. unfold start. destruct kw as [|k kw].
  - rewrite decide_True by done. unfold_js.
    rewrite (renderAd_run _ a) by done. eexists None, _.
    split; [done|]. split; [done|]. split; [done|].
    split; [done|]. apply slotContent_completed.
  - rewrite decide_False by done. by apply enterLoop_pending.
Qed.

(** A resumption does not change what the call is to assign. *)
Lemma resume_pending r s a :
  adSlotEl s = Some a →
  ∃ o s',
    resume fetchAdFromProvider r s = (Normal o, s')
    ∧ adSlotEl s' = Some a ∧ feedEl s' = feedEl s
    ∧ pending fetchAdFromProvider a (outcomeOf fetchAdFromProvider r) s o s'.
Proof.
  intros Ha. rewrite (resume_run _ _ _ a) by done.
  unfold outcomeOf.
  rewrite (resolveFrom_cons _ (run_awaiting r) (run_rest r)).
  destruct (declines _ _ _).
  - destruct (enterLoop_pending (run_rest r) (run_keywords r)
                (set_console
                   (console s ++ failures fetchAdFromProvider [run_awaiting r]
                                   (run_keywords r)) s) a Ha)
      as (o & s' & H1 & H2 & H3 & H4).
    exists o, s'. split; [done|]. split; [done|]. split; [done|].
    destruct o; exact H4.
  - eexists None, _. split; [done|]. split; [done|]. split; [done|].
    split; [done|]. apply slotContent_completed.
Qed.

(** A callback that computes a pool and then calls [fetchAndRenderAd]:
    it assigns at most once, last of all it does. *)
Lemma spawn_delivers (pre : Js (list string)) w a :
  (∀ s, adSlotEl (snd (pre s)) = adSlotEl s ∧ feedEl (snd (pre s)) = feedEl s
        ∧ renders (snd (pre s)) = renders s
        ∧ (∀ ns : list Node,
             (λ _, ns) <$> slotContent a (snd (pre s)) = (λ _, ns) <$> slotContent a s)
        ∧ (feedEl s ≠ Some a → slotContent a (snd (pre s)) = slotContent a s)) →
  adSlotEl (state w) = Some a →
  let w' := spawn (pool ← pre; start pool) w in
  adSlotEl (state w') = Some a ∧ feedEl (state w') = feedEl (state w)
  ∧ ∃ out, renders (state w') = renders (state w) ++ out
           ∧ length out ≤ 1
           ∧ (∀ m, last out = Some m →
                slotContent a (state w')
                = (λ _, parseHTML m) <$> slotContent a (state w))
           ∧ (feedEl (state w) ≠ Some a → showsLast a (state w) (state w') out).
Proof.
  intros Hpre Ha w'. subst w'. unfold spawn. unfold mbind, Js_bind.
  destruct (Hpre (state w)) as (Hpa & Hpf & Hpr & Hps & Hpn).
  destruct (pre (state w)) as [[pool|e] s1]; cbn [fst snd] in *.
  - destruct (start_pending pool s1 a) as (o & s' & -> & Ha' & Hf' & Hp);
      [congruence|].
    destruct o as [r|]; cbn [state inflight pending] in *.
    + destruct Hp as (_ & Hr & Hs). split; [done|]. split; [congruence|].
      exists []. rewrite app_nil_r. split; [congruence|]. split; [cbn; lia|].
      split; [done|]. intros Hne. unfold showsLast. cbn. rewrite Hs. by apply Hpn.
    + destruct Hp as (Hr & Hs). split; [done|]. split; [congruence|].
      eexists [_]. split; [rewrite Hr; by rewrite Hpr|]. split; [cbn; lia|].
      split.
      * intros m [= <-]. by rewrite Hs, Hps.
      * intros _. unfold showsLast. cbn. by rewrite Hs, Hps.
  - cbn [state inflight]. split; [congruence|]. split; [done|]. exists [].
    rewrite app_nil_r. split; [done|]. split; [cbn; lia|]. split; [done|].
    intros Hne. unfold showsLast. cbn. by apply Hpn.
Qed.

Lemma selectVisible_slot entries s a :
  adSlotEl (snd (selectVisible entries s)) = adSlotEl s
  ∧ feedEl (snd (selectVisible entries s)) = feedEl s
  ∧ renders (snd (selectVisible entries s)) = renders s
  ∧ (∀ ns : list Node,
       (λ _, ns) <$> slotContent a (snd (selectVisible entries s))
       = (λ _, ns) <$> slotContent a s)
  ∧ (feedEl s ≠ Some a → slotContent a (snd (selectVisible entries s)) = slotContent a s).
Proof.
  unfold selectVisible, updateElement. unfold_js.
  destruct (config s) as [c|]; [|done].
  destruct (feedEl s) as [f|] eqn:Hf; [|done]. cbn.
  assert (H : ∀ st : State, document st
               = alter (λ e, set_childNodes
                          (highlight (trimmed (visibleTagCount c) entries) <$> childNodes e) e)
                   f (document s) →
              (∀ ns : list Node, (λ _, ns) <$> slotContent a st = (λ _, ns) <$> slotContent a s)
              ∧ (Some f ≠ Some a → slotContent a st = slotContent a s)).
  { intros st Hst. unfold slotContent. rewrite Hst. split.
    - intros ns. destruct (decide (a = f)) as [->|Hne].
      + rewrite lookup_alter_eq. by destruct (document s !! f).
      + by rewrite lookup_alter_ne by done.
    - intros Hne. rewrite lookup_alter_ne by congruence. done. }
  destruct (keywordPool _ _); cbn [snd];
    (split; [done|]); (split; [done|]); (split; [done|]); by apply H.
Qed.

Lemma recount_slot vp n s a :
  adSlotEl (snd (recount vp n s)) = adSlotEl s
  ∧ feedEl (snd (recount vp n s)) = feedEl s
  ∧ renders (snd (recount vp n s)) = renders s
  ∧ slotContent a (snd (recount vp n s)) = slotContent a s.
Proof.
  unfold recount. unfold_js.
  destruct (config s) as [c|]; [|done]. cbn.
  destruct (feedEl s) eqn:Hf; cbn; rewrite ?Hf; repeat split; reflexivity.
Qed.

(** Every event assigns to the ad slot at most once, and what it appends
    to [renders] is then what the slot holds. Between assignments the slot
    keeps its content when the feed is another element. *)
Lemma react_delivers ev w a :
  adSlotEl (state w) = Some a →
  let w' := react fetchAdFromProvider ev w in
  adSlotEl (state w') = Some a ∧ feedEl (state w') = feedEl (state w)
  ∧ ∃ out, renders (state w') = renders (state w) ++ out
           ∧ length out ≤ 1
           ∧ (∀ m, last out = Some m →
                slotContent a (state w')
                = (λ _, parseHTML m) <$> slotContent a (state w))
           ∧ (feedEl (state w) ≠ Some a → showsLast a (state w) (state w') out).
Proof.
  intros Ha. destruct ev as [entries|vp n|i]; cbn [react].
  - apply (spawn_delivers (selectVisible entries)); [|done].
    intros s. apply selectVisible_slot.
  - replace (spawn (updateVisibleCount_async vp n) w)
      with (spawn (pool ← (entries ← recount vp n; selectVisible entries);
                   start pool) w).
    2: { unfold spawn, updateVisibleCount_async, handleVisibilityChange_async.
         unfold mbind, Js_bind. by destruct (recount vp n (state w)) as [[?|?] ?]. }
    apply (spawn_delivers (entries ← recount vp n; selectVisible entries)); [|done].
    intros s. unfold mbind, Js_bind.
    destruct (recount_slot vp n s a) as (H1 & H2 & H3 & H4).
    destruct (recount vp n s) as [[entries|e] s1]; cbn [fst snd] in *.
    + destruct (selectVisible_slot entries s1 a) as (H5 & H6 & H7 & H8 & H9).
      split; [congruence|]. split; [congruence|]. split; [congruence|].
      split; [intros ns; by rewrite H8, H4|].
      intros Hne. rewrite H9, H4; [done|congruence].
    + split; [done|]. split; [done|]. split; [done|].
      split; [intros ns; by rewrite H4|done].
  - destruct (inflight w !! i) as [r|] eqn:Hi.
    + destruct (resume_pending r (state w) a Ha) as (o & s' & -> & Ha' & Hf' & Hp).
      destruct o as [r'|]; cbn [state inflight pending] in *.
      * destruct Hp as (_ & Hr & Hs). split; [done|]. split; [done|].
        exists []. rewrite app_nil_r. split; [done|]. split; [cbn; lia|].
        split; [done|]. intros _. exact Hs.
      * destruct Hp as (Hr & Hs). split; [done|]. split; [done|].
        eexists [_]. split; [exact Hr|]. split; [cbn; lia|].
        split; [by intros m [= <-]|]. intros _. exact Hs.
    + split; [done|]. split; [done|]. exists []. rewrite app_nil_r.
      split; [done|]. split; [cbn; lia|]. split; [done|]. by intros _.
Qed.

Lemma reacts_delivers evs w a :
  adSlotEl (state w) = Some a → feedEl (state w) ≠ Some a →
  let w' := reacts fetchAdFromProvider evs w in
  ∃ out, renders (state w') = renders (state w) ++ out
         ∧ showsLast a (state w) (state w') out.
Proof.
  revert w. induction evs as [|ev evs IH]; intros w Ha Hne.
  - cbn. exists []. rewrite app_nil_r. by split.
  - destruct (react_delivers ev w a Ha) as (Ha1 & Hf1 & out1 & Hr1 & _ & _ & Hs1).
    destruct (IH (react fetchAdFromProvider ev w) Ha1) as (out2 & Hr2 & Hs2);
      [congruence|].
    unfold reacts in *. cbn [foldl].
    exists (out1 ++ out2). split; [by rewrite Hr2, Hr1, app_assoc|].
    eapply showsLast_app; [by apply Hs1|done].
Qed.

(** A lookup that settles ends a call, which then assigns what it was to
    assign, or leaves every suspended call with what it is to assign. *)
Lemma settle_conserves i w a :
  adSlotEl (state w) = Some a →
  let w' := react fetchAdFromProvider (Settle i) w in
  adSlotEl (state w') = Some a
  ∧ ∃ out, renders (state w') = renders (state w) ++ out
           ∧ showsLast a (state w) (state w') out
           ∧ out ++ (outcomeOf fetchAdFromProvider <$> inflight w')
             ≡ₚ outcomeOf fetchAdFromProvider <$> inflight w.
Proof.
  intros Ha. cbn [react].
  destruct (inflight w !! i) as [r|] eqn:Hi.
  - destruct (resume_pending r (state w) a Ha) as (o & s' & -> & Ha' & Hf' & Hp).
    destruct o as [r'|]; cbn [state inflight pending] in *.
    + destruct Hp as (Ho & Hr & Hs). split; [done|].
      exists []. rewrite app_nil_r. split; [done|]. split; [exact Hs|].
      cbn [app]. rewrite list_fmap_insert, Ho.
      rewrite list_insert_id; [done|]. by rewrite list_lookup_fmap, Hi.
    + destruct Hp as (Hr & Hs). split; [done|].
      eexists [_]. split; [exact Hr|]. split; [exact Hs|].
      cbn [app]. symmetry.
      exact (fmap_Permutation (outcomeOf fetchAdFromProvider) _ _
               (delete_Permutation _ _ _ Hi)).
  - split; [done|]. exists []. rewrite app_nil_r. by split.
Qed.

Lemma settles_conserve schedule w a :
  adSlotEl (state w) = Some a →
  let w' := reacts fetchAdFromProvider (Settle <$> schedule) w in
  ∃ out, renders (state w') = renders (state w) ++ out
         ∧ showsLast a (state w) (state w') out
         ∧ out ++ (outcomeOf fetchAdFromProvider <$> inflight w')
           ≡ₚ outcomeOf fetchAdFromProvider <$> inflight w.
Proof.
  revert w. induction schedule as [|i schedule IH]; intros w Ha.
  - cbn. exists []. rewrite app_nil_r. by split.
  - destruct (settle_conserves i w a Ha) as (Ha1 & out1 & Hr1 & Hs1 & Hp1).
    destruct (IH (react fetchAdFromProvider (Settle i) w) Ha1)
      as (out2 & Hr2 & Hs2 & Hp2).
    unfold reacts in *. cbn [fmap list_fmap foldl].
    exists (out1 ++ out2). split; [by rewrite Hr2, Hr1, app_assoc|].
    split; [by eapply showsLast_app|].
    by rewrite <-app_assoc, Hp2.
Qed.

Lemma reacts_references evs w a :
  adSlotEl (state w) = Some a →
  adSlotEl (state (reacts fetchAdFromProvider evs w)) = Some a
  ∧ feedEl (state (reacts fetchAdFromProvider evs w)) = feedEl (state w).
Proof.
  revert w. induction evs as [|ev evs IH]; intros w Ha; [done|].
  destruct (react_delivers ev w a Ha) as (Ha1 & Hf1 & _).
  destruct (IH _ Ha1) as [Ha2 Hf2].
  unfold reacts in *. cbn [foldl]. split; [done|congruence].
Qed.

End Delivery.

(** C9. Every call of [fetchAndRenderAd] produces exactly one outcome
    and delivers it to the ad slot. Run to its end from a state whose ad
    slot is resolved, a call ends normally having assigned once: one render
    is appended, the outcome of its pool (a provider's markup, the
    empty-pool message or the no-match message), and the ad slot then holds
    that markup and nothing else. With calls overlapping, whatever the
    callbacks and the order in which lookups settle: renders are only ever
    appended, and the renders added plus the calls still suspended are as
    many as the calls made, so that once no call is suspended there is one
    render per call; every event assigns at most once, and what it appends
    is what the slot then holds; and when the feed is another element than
    the slot, the slot holds at every moment the outcome rendered last. *)
Theorem one_outcome_per_call
    (fetchAdFromProvider : string → list string → Settlement)
    (w : World) (a : string) (kw : list string) (evs : list Event) :
  adSlotEl (state w) = Some a →
  (let out := fetchAndRenderAd fetchAdFromProvider kw (state w) in
   fst out = Normal tt
   ∧ renders (snd out)
     = renders (state w) ++ [painted (resolve fetchAdFromProvider kw)]
   ∧ slotContent a (snd out)
     = (λ _, parseHTML (painted (resolve fetchAdFromProvider kw)))
         <$> slotContent a (state w))
  ∧ (let w' := reacts fetchAdFromProvider evs w in
     ∃ outcomes,
       renders (state w') = renders (state w) ++ outcomes
       ∧ length outcomes + length (inflight w')
         = length (inflight w) + callsAlong fetchAdFromProvider evs w
       ∧ (feedEl (state w) ≠ Some a → showsLast a (state w) (state w') outcomes)
       ∧ ∀ ev,
           let w'' := react fetchAdFromProvider ev w' in
           ∃ out,
             renders (state w'') = renders (state w') ++ out
             ∧ length out ≤ 1
             ∧ ∀ markup, last out = Some markup →
                 slotContent a (state w'')
                 = (λ _, parseHTML markup) <$> slotContent a (state w')).
Proof.
  intros Ha. split.
  - rewrite (fetchAndRenderAd_run _ _ _ a) by done. cbn [fst snd].
    split; [done|]. split; [done|]. apply slotContent_completed.
  - destruct (reacts_accounts fetchAdFromProvider evs w a Ha)
      as (Ha' & outcomes & Hr & Hlen).
    exists outcomes. split; [done|]. split; [done|]. split.
    + intros Hne.
      destruct (reacts_delivers fetchAdFromProvider evs w a Ha Hne)
        as (out & Hr' & Hs).
      rewrite Hr in Hr'. by apply app_inv_head in Hr' as ->.
    + intros ev.
      destruct (react_delivers fetchAdFromProvider ev _ a Ha')
        as (_ & _ & out & H1 & H2 & H3 & _).
      by exists out.
Qed.

Lemma one_outcome_per_call_witness :
  (let out := fetchAndRenderAd Placeholder.fetchAdFromProvider ["carbon offset"] ready in
   fst out = Normal tt
   ∧ renders (snd out)
     = renders ready ++ [painted (resolve Placeholder.fetchAdFromProvider ["carbon offset"])]
   ∧ slotContent "ad-slot" (snd out)
     = (λ _, parseHTML (painted (resolve Placeholder.fetchAdFromProvider ["carbon offset"])))
         <$> slotContent "ad-slot" ready)
  ∧ (let w' := reacts Placeholder.fetchAdFromProvider overlap (mkWorld ready []) in
     ∃ outcomes,
       renders (state w') = renders ready ++ outcomes
       ∧ length outcomes + length (inflight w')
         = 0 + callsAlong Placeholder.fetchAdFromProvider overlap (mkWorld ready [])
       ∧ (feedEl ready ≠ Some "ad-slot" → showsLast "ad-slot" ready (state w') outcomes)
       ∧ ∀ ev,
           let w'' := react Placeholder.fetchAdFromProvider ev w' in
           ∃ out,
             renders (state w'') = renders (state w') ++ out
             ∧ length out ≤ 1
             ∧ ∀ markup, last out = Some markup →
                 slotContent "ad-slot" (state w'')
                 = (λ _, parseHTML markup) <$> slotContent "ad-slot" (state w')).
Proof.
  exact (one_outcome_per_call Placeholder.fetchAdFromProvider
           (mkWorld ready []) "ad-slot" ["carbon offset"] overlap
           ltac:(vm_compute; reflexivity)).
Defined.

(** ** Batches of entries *)

Lemma toggle_idempotent c force el :
  toggle c force (toggle c force el) = toggle c force el.
Proof.
  unfold toggle, hasClass. destruct el as [cl i t]. cbn. f_equal.
  destruct force.
  - destruct (bool_decide (c ∈ cl)) eqn:Hc.
    + by rewrite Hc.
    + rewrite bool_decide_eq_true_2; [done|]. apply elem_of_app. right.
      by apply list_elem_of_singleton.
  - induction cl as [|x cl IH]; [done|].
    destruct (decide (x = c)) as [->|Hne].
    + by rewrite filter_cons_False by (by intros ?).
    + rewrite filter_cons_True by done.
      rewrite filter_cons_True by done. by rewrite IH.
Qed.

Lemma toggle_keeps_class c d force el :
  c ≠ d → hasClass c (toggle d force el) = hasClass c el.
Proof.
  intros Hne. unfold toggle, hasClass. destruct el as [cl i t]. cbn.
  apply bool_decide_ext. destruct force.
  - destruct (bool_decide (d ∈ cl)); [done|].
    rewrite elem_of_app, list_elem_of_singleton. intuition congruence.
  - rewrite list_elem_of_filter. intuition congruence.
Qed.

Lemma highlight_idempotent sel n :
  highlight sel (highlight sel n) = highlight sel n.
Proof.
  destruct n as [el|src]; [|done]. cbn.
  destruct (hasClass "shepherd-tag" el) eqn:Hc; cbn; [|by rewrite Hc].
  rewrite toggle_keeps_class by done. rewrite Hc.
  by rewrite toggle_idempotent.
Qed.

(** The part of C5 that the code has: handling the same entries a second
    time changes neither the highlighted tags nor the pool. *)
Lemma highlighted_idempotent f sel s :
  highlighted f sel (highlighted f sel s) = highlighted f sel s.
Proof.
  unfold highlighted, set_document. cbn. f_equal.
  rewrite alter_alter_eq. apply alter_ext. intros e _. cbn.
  unfold set_childNodes. cbn. f_equal.
  rewrite <-list_fmap_compose. apply list_fmap_ext.
  intros _ n _. apply highlight_idempotent.
Qed.

(** The part of C5 that the code has: handling the same entries a second
    time changes neither the highlighted tags nor the pool. *)
Lemma selectVisible_idempotent entries s pool s1 :
  selectVisible entries s = (Normal pool, s1) →
  selectVisible entries s1 = (Normal pool, s1).
Proof.
  intros Hrun.
  destruct (config s) as [c|] eqn:Hc.
  2: { unfold selectVisible in Hrun. unfold mbind, mret, Js_bind, Js_ret, throw, modify, deref in Hrun. by rewrite Hc in Hrun. }
  destruct (feedEl s) as [f|] eqn:Hf.
  2: { unfold selectVisible in Hrun. unfold mbind, mret, Js_bind, Js_ret, throw, modify, deref in Hrun.
       by rewrite Hc, Hf in Hrun. }
  destruct (keywordPool (tags c) (trimmed (visibleTagCount c) entries))
    as [p|] eqn:Hp.
  2: { unfold selectVisible, updateElement in Hrun. unfold mbind, mret, Js_bind, Js_ret, throw, modify, deref in Hrun.
       rewrite Hc, Hf in Hrun. cbn in Hrun. by rewrite Hp in Hrun. }
  rewrite (selectVisible_run _ _ c f p) in Hrun by done.
  injection Hrun as <- <-.
  rewrite (selectVisible_run _ _ c f p) by done.
  by rewrite highlighted_idempotent.
Qed.

(** C5, where the code departs from it. On the initialised module (five
    tags, visible count 5):
    - the observer reports that tag 0 entered, then that tag 1 entered;
      after the second callback only tag 1 is highlighted and the pool is
      that of tag 1 alone, while the membership of the spec holds both;
    - the observer reports tags 0 and 1 visible in one batch, then that
      tag 1 left; after the second callback no tag is highlighted and the
      empty-pool message is rendered, while the membership of the spec
      still holds tag 0. *)
Theorem later_batch_replaces_the_visible_set :
  let handle := handleVisibilityChange Placeholder.fetchAdFromProvider in
  let entered0 := snd (handle [entryOf 0 true] ready) in
  let entered1 := snd (handle [entryOf 1 true] entered0) in
  let both := snd (handle [entryOf 0 true; entryOf 1 true] ready) in
  let left1 := snd (handle [entryOf 1 false] both) in
  (activeIdx "tag-feed" entered0 = [0]
   ∧ activeIdx "tag-feed" entered1 = [1]
   ∧ fst (selectVisible [entryOf 1 true] entered0) = Normal ["carbon offset"]
   ∧ Spec.computeSelection 5
       (Spec.onVisibilityEvent 1 true (Spec.onVisibilityEvent 0 true ∅))
     = [0; 1])
  ∧ (activeIdx "tag-feed" both = [0; 1]
     ∧ activeIdx "tag-feed" left1 = []
     ∧ last (renders left1) = Some emptyPoolMarkup
     ∧ Spec.computeSelection 5
         (Spec.onVisibilityEvent 1 false
            (Spec.onVisibilityEvent 1 true (Spec.onVisibilityEvent 0 true ∅)))
       = [0]).
Proof. vm_compute. repeat split. Qed.

(** ** What the callbacks rely on *)

Lemma toggle_sets_class c force el : hasClass c (toggle c force el) = force.
Proof.
  unfold toggle, hasClass. destruct el as [cl i t]. cbn. destruct force.
  - destruct (bool_decide (c ∈ cl)) eqn:Hc; [done|].
    apply bool_decide_eq_true_2, elem_of_app. right.
    by apply list_elem_of_singleton.
  - apply bool_decide_eq_false_2. rewrite list_elem_of_filter. by intros [? _].
Qed.

Lemma querySelectorAll_tags_highlight sel ns :
  querySelectorAll_tags (mkElement (highlight sel <$> ns) ∅)
  = (λ el, toggle "active" (bool_decide (dataset_idx el ∈ sel)) el)
      <$> querySelectorAll_tags (mkElement ns ∅).
Proof.
  unfold querySelectorAll_tags. cbn [childNodes].
  induction ns as [|n ns IH]; [done|].
  rewrite fmap_cons. cbn in IH |- *.
  destruct n as [el|src]; cbn.
  - destruct (hasClass "shepherd-tag" el) eqn:Hc; cbn.
    + rewrite toggle_keeps_class by done. rewrite Hc. cbn.
      f_equal. apply IH.
    + rewrite Hc. apply IH.
  - apply IH.
Qed.

Lemma tagElementsOf_highlighted f sel s :
  tagElementsOf f (highlighted f sel s)
  = (λ el, toggle "active" (bool_decide (dataset_idx el ∈ sel)) el)
      <$> tagElementsOf f s.
Proof.
  unfold tagElementsOf, highlighted, set_document. cbn [document].
  rewrite lookup_alter_eq. destruct (document s !! f) as [e|]; [|done].
  cbn. apply (querySelectorAll_tags_highlight sel (childNodes e)).
Qed.

(** After a callback the highlighted tags of the feed are the tags of the
    selection. *)
Lemma activeIdx_highlighted f sel s :
  activeIdx f (highlighted f sel s)
  = filter (λ i, i ∈ sel) (dataset_idx <$> tagElementsOf f s).
Proof.
  unfold activeIdx. rewrite tagElementsOf_highlighted.
  induction (tagElementsOf f s) as [|el els IH]; [done|].
  rewrite !fmap_cons.
  destruct (decide (dataset_idx el ∈ sel)) as [Hin|Hout].
  - rewrite bool_decide_eq_true_2 by done.
    rewrite filter_cons_True by (by rewrite toggle_sets_class).
    rewrite filter_cons_True by done.
    rewrite fmap_cons. by rewrite IH.
  - rewrite bool_decide_eq_false_2 by done.
    rewrite filter_cons_False by (by rewrite toggle_sets_class).
    by rewrite filter_cons_False by done.
Qed.

Lemma foldl_appendChild e ns :
  foldl (λ e n, appendChild n e) e ns = mkElement (childNodes e ++ ns) (style e).
Proof.
  revert e. induction ns as [|n ns IH]; intros e; cbn.
  - destruct e. by rewrite app_nil_r.
  - rewrite IH. cbn. by rewrite <-app_assoc.
Qed.

Lemma querySelectorAll_tags_TagNode els st :
  Forall (λ el, hasClass "shepherd-tag" el = true) els →
  querySelectorAll_tags (mkElement (TagNode <$> els) st) = els.
Proof.
  unfold querySelectorAll_tags. cbn [childNodes].
  induction 1 as [|el els Hel _ IH]; [done|].
  cbn in IH |- *. rewrite Hel. by rewrite IH.
Qed.

Lemma rendered_tags ts :
  imap (λ i t, TagNode (createTagElement t i)) ts
  = TagNode <$> imap (λ i t, createTagElement t i) ts.
Proof. by rewrite fmap_imap. Qed.

Lemma rendered_tags_in_range ts :
  Forall (λ el, hasClass "shepherd-tag" el = true ∧ dataset_idx el < length ts)
    (imap (λ i t, createTagElement t i) ts).
Proof.
  apply Forall_forall. intros el Hel.
  apply elem_of_lookup_imap in Hel as (i & t & -> & Hi).
  split; [done|]. cbn. by apply lookup_lt_Some in Hi.
Qed.

(** A successful [init] leaves the module as the callbacks expect it: the
    three variables set, and every tag element of the feed standing for a
    position of [tags]. *)
Lemma init_Initialised opts s :
  fst (init opts s) = Normal tt → Initialised (snd (init opts s)).
Proof.
  unfold init.
  destruct (falsy (opt_feedElementId opts) || falsy (opt_adSlotId opts)
            || negb (isArray (opt_tags opts))); [done|].
  unfold_js. cbn.
  set (c := mkConfig _ _ _ _ _).
  set (fid := default "" (opt_feedElementId opts)).
  set (aid := default "" (opt_adSlotId opts)).
  change (getElementById fid (set_config (Some c) s)) with (getElementById fid s).
  change (getElementById aid (set_feedEl (getElementById fid s) (set_config (Some c) s)))
    with (getElementById aid s).
  destruct (getElementById fid s) as [f|] eqn:Hf; [|done].
  rewrite (bool_decide_eq_false_2 (Some f = None)) by done. cbn [orb].
  destruct (getElementById aid s) as [a|] eqn:Ha.
  2: { by rewrite (bool_decide_eq_true_2 (None = None)). }
  rewrite (bool_decide_eq_false_2 (Some a = None)) by done.
  unfold renderTags, setupVisibilityObserver, setInnerHTML, updateElement.
  unfold_js. cbn. intros _.
  exists c, f, a. split; [done|]. split; [done|]. split; [done|].
  unfold tagElementsOf, set_observer, set_document. cbn [document].
  rewrite !lookup_alter_eq.
  destruct (document s !! f) as [e|]; [|by constructor]. cbn.
  rewrite foldl_appendChild. cbn. rewrite rendered_tags.
  unfold setProperty. cbn.
  change (parseHTML "") with (@nil Node). cbn [app].
  pose proof (rendered_tags_in_range (tagsOf (opt_tags opts))) as Hall.
  pose proof (querySelectorAll_tags_TagNode _ ∅
                (Forall_impl _ _ _ Hall (λ el H, proj1 H))) as Hq.
  unfold querySelectorAll_tags in Hq. cbn [childNodes] in Hq. rewrite Hq.
  eapply Forall_impl; [exact Hall|]. by intros el [_ ?].
Qed.

Lemma querySelectorAll_tags_parseHTML markup st :
  querySelectorAll_tags (mkElement (parseHTML markup) st) = [].
Proof. unfold parseHTML. by case_decide. Qed.

(** ** Rendering the feed and starting up *)

Lemma renderTags_run s c f :
  config s = Some c → feedEl s = Some f →
  renderTags s = (Normal tt, set_document (alter (renderedFeed c) f (document s)) s).
Proof.
  intros Hc Hf. unfold renderTags, setInnerHTML, updateElement. unfold_js.
  rewrite Hf. cbn. rewrite ?Hc, ?Hf. cbn. rewrite ?Hc, ?Hf. cbn.
  unfold set_document. cbn. do 2 f_equal.
  rewrite !alter_alter_eq. apply alter_ext. intros e _. cbn.
  rewrite foldl_appendChild. unfold renderedFeed, setProperty, set_childNodes. cbn.
  by change (parseHTML "") with (@nil Node).
Qed.

Lemma tagElementsOf_rendered c f d s :
  is_Some (d !! f) →
  tagElementsOf f (set_document (alter (renderedFeed c) f d) s)
  = imap (λ i t, createTagElement t i) (tags c).
Proof.
  intros [e He]. unfold tagElementsOf, set_document. cbn [document].
  rewrite lookup_alter_eq, He. cbn [fmap option_fmap option_map].
  unfold renderedFeed. rewrite rendered_tags.
  apply querySelectorAll_tags_TagNode.
  eapply Forall_impl; [apply rendered_tags_in_range|]. by intros el [? _].
Qed.

Lemma rendered_tags_idx (ts : list Tag) :
  dataset_idx <$> imap (λ i t, createTagElement t i) ts = seq 0 (length ts).
Proof.
  rewrite fmap_imap.
  rewrite (imap_ext _ (λ j _, id j)); [|done].
  by rewrite imap_seq_0, list_fmap_id.
Qed.

Lemma rendered_tags_inactive (ts : list Tag) :
  filter (λ el, hasClass "active" el = true)
    (imap (λ i t, createTagElement t i) ts) = [].
Proof.
  destruct (filter _ _) as [|el l] eqn:H; [done|].
  assert (Hel : el ∈ el :: l) by left. rewrite <-H in Hel.
  apply list_elem_of_filter in Hel as [Hact Hin].
  apply elem_of_lookup_imap in Hin as (i & t & -> & _).
  by vm_compute in Hact.
Qed.

(** X1. [renderTags] discards whatever the feed held and leaves one tag
    element per configured tag, in order, carrying its position, its text
    and the class [shepherd-tag] alone (so none is highlighted), and sets
    the [--tag-spacing] property from the configuration; it touches no
    other element and no other part of the state, and rendering again
    changes nothing. *)
Theorem renderTags_replaces_the_feed (s : State) (c : Config) (f : string) (e : Element) :
  config s = Some c → feedEl s = Some f → document s !! f = Some e →
  let out := renderTags s in
  fst out = Normal tt
  ∧ document (snd out) !! f
    = Some (mkElement
              (imap (λ i t, TagNode (mkTagElement ["shepherd-tag"] i (text t))) (tags c))
              (<["--tag-spacing" := pretty (tagSpacingPx c) +:+ "px"]> (style e)))
  ∧ (∀ id, id ≠ f → document (snd out) !! id = document s !! id)
  ∧ tagElementsOf f (snd out)
    = imap (λ i t, mkTagElement ["shepherd-tag"] i (text t)) (tags c)
  ∧ dataset_idx <$> tagElementsOf f (snd out) = seq 0 (length (tags c))
  ∧ activeIdx f (snd out) = []
  ∧ set_document (document s) (snd out) = s
  ∧ renderTags (snd out) = out.
Proof.
  intros Hc Hf He out. subst out.
  rewrite (renderTags_run s c f) by done. cbn [fst snd].
  split; [done|]. split.
  { unfold set_document. cbn [document]. by rewrite lookup_alter_eq, He. }
  split.
  { intros id Hne. unfold set_document. cbn [document]. by rewrite lookup_alter_ne. }
  rewrite tagElementsOf_rendered by eauto.
  split; [done|]. split; [apply rendered_tags_idx|].
  split; [unfold activeIdx; rewrite tagElementsOf_rendered by eauto;
          by rewrite rendered_tags_inactive|].
  split; [by destruct s|].
  rewrite (renderTags_run _ c f) by done.
  unfold set_document. cbn. do 2 f_equal.
  rewrite alter_alter_eq. apply alter_ext. intros x _.
  unfold renderedFeed. cbn. by rewrite insert_insert_eq.
Qed.

Lemma renderTags_replaces_the_feed_witness :
  let out := renderTags ready in
  fst out = Normal tt
  ∧ dataset_idx <$> tagElementsOf "tag-feed" (snd out) = seq 0 (length demoTags)
  ∧ activeIdx "tag-feed" (snd out) = []
  ∧ renderTags (snd out) = out.
Proof.
  pose proof (renderTags_replaces_the_feed ready
                (mkConfig "tag-feed" "ad-slot" 5 12 demoTags) "tag-feed"
                (renderedFeed (mkConfig "tag-feed" "ad-slot" 5 12 demoTags)
                   (mkElement [] ∅))
                ltac:(vm_compute; reflexivity) ltac:(vm_compute; reflexivity)
                ltac:(vm_compute; reflexivity))
    as (H1 & _ & _ & _ & H5 & H6 & _ & H8).
  split; [exact H1|]. split; [exact H5|]. split; [exact H6 | exact H8].
Defined.

Lemma init_missing opts s :
  optionsMissing opts = true → init opts s = (Throw (Error missingOptions), s).
Proof. unfold init, optionsMissing. by intros ->. Qed.

Lemma init_after_guard opts s :
  optionsMissing opts = false →
  init opts s
  = if bool_decide (getElementById (feedElementId (configOf opts)) s = None)
       || bool_decide (getElementById (adSlotId (configOf opts)) s = None)
    then (Throw (Error elementsNotFound), afterFailedInit opts s)
    else (renderTags;; setupVisibilityObserver) (afterFailedInit opts s).
Proof.
  unfold init, optionsMissing. intros ->. unfold_js. cbn.
  fold (configOf opts).
  change (getElementById (feedElementId (configOf opts))
            (set_config (Some (configOf opts)) s))
    with (getElementById (feedElementId (configOf opts)) s).
  change (getElementById (adSlotId (configOf opts))
            (set_feedEl (getElementById (feedElementId (configOf opts)) s)
               (set_config (Some (configOf opts)) s)))
    with (getElementById (adSlotId (configOf opts)) s).
  by destruct (bool_decide _ || bool_decide _).
Qed.

Lemma getElementById_spec id s :
  getElementById id s = if decide (is_Some (document s !! id)) then Some id else None.
Proof. done. Qed.

Lemma setupVisibilityObserver_run s f :
  feedEl s = Some f →
  setupVisibilityObserver s
  = (Normal tt,
     set_observer
       (Some (mkObserver (Some f) 50 (dataset_idx <$> tagElementsOf f s))) s).
Proof.
  intros Hf. unfold setupVisibilityObserver. unfold_js. cbn. rewrite Hf.
  done.
Qed.

Lemma init_found opts s :
  optionsMissing opts = false →
  is_Some (document s !! feedElementId (configOf opts)) →
  is_Some (document s !! adSlotId (configOf opts)) →
  init opts s = (Normal tt, afterInit opts s).
Proof.
  intros Hg Hf Ha. rewrite init_after_guard by done.
  rewrite (getElementById_Some _ _ Hf), (getElementById_Some _ _ Ha).
  rewrite !bool_decide_eq_false_2 by done. cbn [orb].
  unfold mbind, Js_bind.
  assert (Hs : afterFailedInit opts s
               = mkState (Some (configOf opts)) (Some (feedElementId (configOf opts)))
                   (Some (adSlotId (configOf opts))) (observer s) (document s)
                   (console s) (lookups s) (renders s)).
  { unfold afterFailedInit. cbv zeta.
    by rewrite (getElementById_Some _ _ Hf), (getElementById_Some _ _ Ha). }
  rewrite Hs.
  rewrite (renderTags_run _ (configOf opts) (feedElementId (configOf opts)))
    by done.
  rewrite (setupVisibilityObserver_run _ (feedElementId (configOf opts))) by done.
  rewrite (tagElementsOf_rendered _ _ _ _ Hf), rendered_tags_idx.
  done.
Qed.

Lemma init_Normal_inv opts s :
  fst (init opts s) = Normal tt →
  optionsMissing opts = false
  ∧ is_Some (document s !! feedElementId (configOf opts))
  ∧ is_Some (document s !! adSlotId (configOf opts)).
Proof.
  intros Hok. destruct (optionsMissing opts) eqn:Hg.
  { by rewrite init_missing in Hok. }
  rewrite init_after_guard in Hok by done.
  destruct (bool_decide _ || bool_decide _) eqn:Hb; [done|].
  apply orb_false_iff in Hb as [Hf Ha].
  apply bool_decide_eq_false in Hf, Ha.
  rewrite !getElementById_spec in Hf, Ha.
  destruct (decide (is_Some (document s !! feedElementId (configOf opts))));
    [|done].
  destruct (decide (is_Some (document s !! adSlotId (configOf opts))));
    [|done].
  done.
Qed.

Lemma init_notfound_inv opts s :
  fst (init opts s) = Throw (Error elementsNotFound) →
  init opts s = (Throw (Error elementsNotFound), afterFailedInit opts s)
  ∧ (getElementById (feedElementId (configOf opts)) s = None
     ∨ getElementById (adSlotId (configOf opts)) s = None).
Proof.
  intros Hfail. destruct (optionsMissing opts) eqn:Hg.
  { rewrite init_missing in Hfail by done. cbn in Hfail. by injection Hfail. }
  destruct (decide (is_Some (document s !! feedElementId (configOf opts)))) as [Hf|Hf].
  - destruct (decide (is_Some (document s !! adSlotId (configOf opts)))) as [Ha|Ha].
    + by rewrite init_found in Hfail.
    + rewrite init_after_guard by done.
      rewrite (getElementById_spec (adSlotId _)), decide_False by done.
      by rewrite (bool_decide_eq_true_2 (None = None)), orb_true_r; [auto|].
  - rewrite init_after_guard by done.
    rewrite (getElementById_spec (feedElementId _)), decide_False by done.
    by rewrite (bool_decide_eq_true_2 (None = None)); [auto|].
Qed.

Lemma init_found_config opts s :
  fst (init opts s) = Normal tt →
  config (snd (init opts s)) = Some (configOf opts)
  ∧ feedEl (snd (init opts s)) = Some (feedElementId (configOf opts))
  ∧ adSlotEl (snd (init opts s)) = Some (adSlotId (configOf opts)).
Proof.
  intros Hok. destruct (init_Normal_inv opts s Hok) as (Hg & Hf & Ha).
  by rewrite init_found.
Qed.

(** X2. The outcomes of [init]. Called without an options object (no
    argument, or [null]) it throws a [TypeError] from its first test and
    touches nothing. Called with an options object whose [tags], when an
    array, holds tag objects, it has three outcomes and no other: it throws
    the missing-options error, before touching anything, exactly when
    [feedElementId] or [adSlotId] is absent or empty or [tags] is not an
    array; otherwise it throws the elements-not-found error exactly when
    the document lacks one of the two elements; otherwise it ends
    normally. *)
Theorem init_outcomes (arg : option Options) (s : State) :
  match arg with
  | None => init_arg arg s = (Throw (TypeError "opts"), s)
  | Some opts =>
      let c := configOf opts in
      let found := bool_decide (is_Some (document s !! feedElementId c))
                   && bool_decide (is_Some (document s !! adSlotId c)) in
      (optionsMissing opts = true
       ∧ init_arg arg s = (Throw (Error missingOptions), s))
      ∨ (optionsMissing opts = false ∧ found = false
         ∧ fst (init_arg arg s) = Throw (Error elementsNotFound))
      ∨ (optionsMissing opts = false ∧ found = true
         ∧ fst (init_arg arg s) = Normal tt)
  end.
Proof.
  destruct arg as [opts|]; [|done]. cbn [init_arg]. cbv zeta.
  destruct (optionsMissing opts) eqn:Hg.
  { left. split; [done|]. by apply init_missing. }
  right.
  destruct (decide (is_Some (document s !! feedElementId (configOf opts)))) as [Hf|Hf].
  - destruct (decide (is_Some (document s !! adSlotId (configOf opts)))) as [Ha|Ha].
    + right. rewrite !bool_decide_eq_true_2 by done.
      split; [done|]. split; [done|]. by rewrite init_found.
    + left. rewrite (bool_decide_eq_false_2 _ Ha), andb_false_r.
      split; [done|]. split; [done|]. rewrite init_after_guard by done.
      rewrite (getElementById_spec (adSlotId _)), decide_False by done.
      by rewrite (bool_decide_eq_true_2 (None = None)), orb_true_r.
  - left. rewrite (bool_decide_eq_false_2 _ Hf).
    split; [done|]. split; [done|]. rewrite init_after_guard by done.
    rewrite (getElementById_spec (feedElementId _)), decide_False by done.
    by rewrite (bool_decide_eq_true_2 (None = None)).
Qed.

(** X3. A successful [init], from any state, leaves exactly this: the
    configuration built from the options (5 and 12 where the count and the
    spacing are absent), both element references set, the feed re-rendered
    with one unhighlighted tag element per tag, a single observer rooted at
    the feed with threshold one half that observes every tag element, and
    nothing else changed: no provider is queried and nothing is assigned to
    the ad slot. *)
Theorem init_postcondition (opts : Options) (s : State) :
  fst (init opts s) = Normal tt →
  let c := configOf opts in
  let s' := snd (init opts s) in
  s' = afterInit opts s
  ∧ Initialised s'
  ∧ tagElementsOf (feedElementId c) s'
    = imap (λ i t, mkTagElement ["shepherd-tag"] i (text t)) (tags c)
  ∧ activeIdx (feedElementId c) s' = []
  ∧ observer s'
    = Some (mkObserver (Some (feedElementId c)) 50 (seq 0 (length (tags c))))
  ∧ lookups s' = lookups s ∧ renders s' = renders s ∧ console s' = console s
  ∧ (∀ id, id ≠ feedElementId c → document s' !! id = document s !! id).
Proof.
  intros Hok c s'. subst c s'.
  pose proof (init_Initialised opts s Hok) as Hinit.
  destruct (init_Normal_inv opts s Hok) as (Hg & Hf & Ha).
  rewrite init_found in Hinit |- * by done. cbn [snd] in *.
  split; [done|]. split; [done|].
  unfold afterInit at 1 2.
  change (tagElementsOf ?f (mkState ?a ?b ?c ?d ?doc ?e ?g ?h))
    with (tagElementsOf f (set_document doc s)).
  unfold activeIdx.
  change (tagElementsOf ?f (mkState ?a ?b ?c ?d ?doc ?e ?g ?h))
    with (tagElementsOf f (set_document doc s)).
  rewrite !tagElementsOf_rendered by done.
  split; [done|]. split; [by rewrite rendered_tags_inactive|].
  unfold afterInit. cbn.
  repeat (split; [done|]).
  intros id Hne. by rewrite lookup_alter_ne.
Qed.

Lemma init_postcondition_witness :
  snd (init demoOptions fresh) = afterInit demoOptions fresh
  ∧ activeIdx "tag-feed" (snd (init demoOptions fresh)) = []
  ∧ observer (snd (init demoOptions fresh))
    = Some (mkObserver (Some "tag-feed") 50 [0; 1; 2; 3; 4]).
Proof.
  pose proof (init_postcondition demoOptions fresh ltac:(vm_compute; reflexivity))
    as (H1 & _ & _ & H4 & H5 & _).
  split; [exact H1|]. split; [exact H4 | exact H5].
Defined.

(** X4. A failed [init] is not undone. When the options pass the first
    test but an element is not found, [init] throws after it has replaced
    the configuration and both element references, the missing one by
    [null]; the document, the old observer and the logs stay. So a module
    that was working keeps its old observer and its old feed content, and
    when the feed is the element not found its next [updateVisibleCount]
    throws a [TypeError] after it has stored the count. *)
Theorem failed_init_keeps_the_new_configuration
    (fetchAdFromProvider : string → list string → Settlement)
    (opts : Options) (s : State) (vp : Viewport) (n : Z) :
  fst (init opts s) = Throw (Error elementsNotFound) →
  let s' := snd (init opts s) in
  s' = afterFailedInit opts s
  ∧ config s' = Some (configOf opts)
  ∧ (feedEl s' = None ∨ adSlotEl s' = None)
  ∧ document s' = document s ∧ observer s' = observer s
  ∧ (feedEl s' = None →
     let out := updateVisibleCount fetchAdFromProvider vp n s' in
     fst out = Throw (TypeError "feedEl")
     ∧ visibleTagCount <$> config (snd out) = Some n
     ∧ renders (snd out) = renders s).
Proof.
  intros Hfail s'. subst s'.
  destruct (init_notfound_inv opts s Hfail) as [-> Hnone]. cbn [snd].
  split; [done|]. split; [done|]. split; [exact Hnone|].
  split; [done|]. split; [done|].
  intros Hf. unfold updateVisibleCount, recount. unfold_js.
  cbn in Hf |- *. by rewrite Hf.
Qed.

Lemma failed_init_keeps_the_new_configuration_witness :
  config (snd (init lostSlotOptions ready))
  = Some (configOf lostSlotOptions)
  ∧ (feedEl (snd (init lostSlotOptions ready)) = None
     ∨ adSlotEl (snd (init lostSlotOptions ready)) = None).
Proof.
  pose proof (failed_init_keeps_the_new_configuration stubNone lostSlotOptions
                ready wideViewport 3 ltac:(vm_compute; reflexivity))
    as (_ & H2 & H3 & _).
  split; [exact H2 | exact H3].
Defined.

(** X5. Calling [init] again with the same options right after it
    succeeded changes nothing: it succeeds and leaves the same state. *)
Theorem init_twice (opts : Options) (s : State) :
  fst (init opts s) = Normal tt →
  init opts (snd (init opts s)) = init opts s.
Proof.
  intros Hok.
  destruct (init_Normal_inv opts s Hok) as (Hg & Hf & Ha).
  rewrite (init_found opts s) by done. cbn [snd].
  rewrite init_found.
  - f_equal. unfold afterInit. cbn. f_equal.
    rewrite alter_alter_eq. apply alter_ext. intros e _.
    unfold renderedFeed. cbn. by rewrite insert_insert_eq.
  - done.
  - unfold afterInit. cbn [document]. rewrite lookup_alter_eq.
    destruct Hf as [e ->]. by eexists.
  - unfold afterInit. cbn [document]. rewrite lookup_alter.
    case_decide; [|done]. destruct Hf as [e ->]. by eexists.
Qed.

Lemma init_twice_witness :
  init demoOptions (snd (init demoOptions fresh)) = init demoOptions fresh.
Proof.
  exact (init_twice demoOptions fresh ltac:(vm_compute; reflexivity)).
Defined.

(** ** More on the selection and the pool *)

Lemma sort_of_Permutation (a b : list nat) : a ≡ₚ b → sort a = sort b.
Proof.
  intros Hab. apply (Sorted_unique (≤)); [apply sort_Sorted..|].
  by rewrite !sort_Permutation.
Qed.

Lemma sort_of_Sorted (a : list nat) : Sorted (≤) a → sort a = a.
Proof.
  intros Ha. apply (Sorted_unique (≤)); [apply sort_Sorted|done|].
  apply sort_Permutation.
Qed.

Lemma visibleIdx_app e1 e2 : visibleIdx (e1 ++ e2) = visibleIdx e1 ++ visibleIdx e2.
Proof. unfold visibleIdx. by rewrite filter_app, fmap_app. Qed.

Lemma visibleIdx_hidden entries :
  Forall (λ e, isIntersecting e = false) entries → visibleIdx entries = [].
Proof.
  unfold visibleIdx. induction 1 as [|e es He _ IH]; [done|].
  rewrite filter_cons_False; [done|]. by rewrite He.
Qed.

Lemma trimmed_length_le count entries :
  (0 < count)%Z → (Z.of_nat (length (trimmed count entries)) ≤ count)%Z.
Proof.
  intros Hpos. unfold trimmed. rewrite slice_positive, length_take by lia. lia.
Qed.

(** X6. The selection does not depend on the order in which the observer
    lists its entries, and entries that report a tag as not intersecting
    change nothing: two batches whose visible entries are a permutation of
    each other give the same selection, for every count. *)
Theorem selection_ignores_entry_order_and_hidden_entries
    (count : Z) (entries entries' hidden : list Entry) :
  entries ≡ₚ entries' →
  Forall (λ e, isIntersecting e = false) hidden →
  trimmed count entries' = trimmed count entries
  ∧ trimmed count (entries ++ hidden) = trimmed count entries
  ∧ trimmed count (hidden ++ entries) = trimmed count entries.
Proof.
  intros Hperm Hhidden. unfold trimmed.
  rewrite !visibleIdx_app, (visibleIdx_hidden hidden) by done.
  rewrite app_nil_r, app_nil_l.
  split; [|by split]. f_equal. apply sort_of_Permutation.
  unfold visibleIdx. by rewrite Hperm.
Qed.

Lemma selection_ignores_entry_order_and_hidden_entries_witness :
  trimmed 2 [entryOf 0 true; entryOf 3 true; entryOf 1 true]
  = trimmed 2 [entryOf 3 true; entryOf 1 true; entryOf 0 true]
  ∧ trimmed 2 ([entryOf 3 true; entryOf 1 true; entryOf 0 true] ++ [entryOf 4 false])
    = trimmed 2 [entryOf 3 true; entryOf 1 true; entryOf 0 true].
Proof.
  pose proof (selection_ignores_entry_order_and_hidden_entries 2
                [entryOf 3 true; entryOf 1 true; entryOf 0 true]
                [entryOf 0 true; entryOf 3 true; entryOf 1 true]
                [entryOf 4 false]
                ltac:(symmetry; apply (Permutation_cons_append [_; _]))
                ltac:(repeat constructor)) as (H1 & H2 & _).
  split; [exact H1 | exact H2].
Defined.

(** X7. What [slice] makes of a visible count that is not positive, and of
    one that is large: with count 0 nothing is selected; with a negative
    count [-k] the selection is the sorted visible indices without the
    last [k] (nothing when there are no more than [k]); with a count no
    smaller than the number of visible entries every visible index is
    selected. *)
Theorem selection_for_edge_counts (count : Z) (entries : list Entry) :
  let visible := sort (visibleIdx entries) in
  (count = 0%Z → trimmed count entries = [])
  ∧ ((count < 0)%Z →
     trimmed count entries = take (length visible - Z.to_nat (- count)) visible
     ∧ length (trimmed count entries) = length (visibleIdx entries) - Z.to_nat (- count))
  ∧ ((Z.of_nat (length (visibleIdx entries)) ≤ count)%Z →
     trimmed count entries = visible).
Proof.
  intros visible. subst visible. unfold trimmed.
  pose proof (Permutation_length (sort_Permutation (visibleIdx entries))) as Hlen.
  split; [intros ->; by rewrite slice_positive by lia|]. split.
  - intros Hneg. rewrite slice_negative by done.
    split; [done|]. rewrite length_take. lia.
  - intros Hbig. rewrite slice_positive by lia. apply take_ge. lia.
Qed.

Lemma selection_for_edge_counts_witness :
  trimmed (-1) [entryOf 2 true; entryOf 0 true; entryOf 1 true] = [0; 1]
  ∧ trimmed 7 [entryOf 2 true; entryOf 0 true; entryOf 1 true] = [0; 1; 2].
Proof.
  pose proof (selection_for_edge_counts (-1)
                [entryOf 2 true; entryOf 0 true; entryOf 1 true]) as (_ & H2 & _).
  pose proof (selection_for_edge_counts 7
                [entryOf 2 true; entryOf 0 true; entryOf 1 true]) as (_ & _ & H3).
  split.
  - rewrite (proj1 (H2 ltac:(lia))). reflexivity.
  - rewrite (H3 ltac:(vm_compute; discriminate)). reflexivity.
Defined.

Lemma keywordPool_None ts sel :
  keywordPool ts sel = None ↔ ∃ i, i ∈ sel ∧ length ts ≤ i.
Proof.
  induction sel as [|i sel IH]; cbn.
  - split; [done|]. intros (i & Hi & _). by apply elem_of_nil in Hi.
  - destruct (ts !! i) as [t|] eqn:Ht.
    + destruct (keywordPool ts sel) as [ks|]; cbn.
      * split; [done|]. intros (j & Hj & Hlen).
        apply elem_of_cons in Hj as [->|Hj].
        -- apply lookup_lt_Some in Ht. lia.
        -- assert (H : Some ks = None); [|done].
           apply (proj2 IH). by exists j.
      * split; [|done]. intros _.
        destruct (proj1 IH eq_refl) as (j & Hj & Hlen).
        exists j. split; [by right|done].
    + split; [|done]. intros _. exists i. split; [by left|].
      by apply lookup_ge_None.
Qed.

Lemma keywordPool_app ts sel1 sel2 :
  keywordPool ts (sel1 ++ sel2)
  = p1 ← keywordPool ts sel1; p2 ← keywordPool ts sel2; Some (p1 ++ p2).
Proof.
  induction sel1 as [|i sel1 IH]; cbn.
  - by destruct (keywordPool ts sel2).
  - destruct (ts !! i) as [t|]; [|done]. rewrite IH.
    destruct (keywordPool ts sel1) as [p1|]; [|done]. cbn.
    destruct (keywordPool ts sel2) as [p2|]; [|done]. cbn.
    by rewrite app_assoc.
Qed.

(** X8. The keyword pool of a selection is defined exactly when every
    selected position is a position of [tags]; it is then the keywords of
    the selected tags, tag after tag in the order of the selection, nothing
    removed: the pool of two selections put end to end is the two pools put
    end to end (so a position selected twice gives its keywords twice), and
    its length is the sum of the lengths. *)
Theorem pool_is_the_concatenation (ts : list Tag) (sel sel' : list nat) :
  (Forall (λ i, i < length ts) sel ↔ is_Some (keywordPool ts sel))
  ∧ (∀ pool, keywordPool ts sel = Some pool →
       ∃ selected, Forall2 (λ i t, ts !! i = Some t) sel selected
                   ∧ pool = concat (keywords <$> selected)
                   ∧ length pool = sum_list ((λ t, length (keywords t)) <$> selected))
  ∧ (∀ pool pool', keywordPool ts sel = Some pool →
       keywordPool ts sel' = Some pool' →
       keywordPool ts (sel ++ sel') = Some (pool ++ pool')).
Proof.
  split; [|split].
  - split; [apply keywordPool_total|].
    intros [pool Hpool]. apply Forall_forall. intros i Hi.
    destruct (decide (i < length ts)) as [|Hge]; [done|].
    assert (Hnone : keywordPool ts sel = None).
    { apply keywordPool_None. exists i. split; [done|lia]. }
    congruence.
  - intros pool Hpool.
    destruct (keywordPool_concat ts sel pool Hpool) as (selected & Hall & ->).
    exists selected. split; [done|]. split; [done|].
    clear. induction selected as [|t l IH]; [done|].
    cbn. by rewrite length_app, IH.
  - intros pool pool' H1 H2. by rewrite keywordPool_app, H1, H2.
Qed.

Lemma pool_is_the_concatenation_witness :
  keywordPool demoTags ([0; 1] ++ [1])
  = Some (["google ads"; "seo"; "carbon offset"] ++ ["carbon offset"]).
Proof.
  pose proof (pool_is_the_concatenation demoTags [0; 1] [1]) as (_ & _ & H).
  apply H; reflexivity.
Defined.

Lemma selectVisible_state entries s c f :
  config s = Some c → feedEl s = Some f →
  selectVisible entries s
  = (match keywordPool (tags c) (trimmed (visibleTagCount c) entries) with
     | Some pool => Normal pool
     | None => Throw (TypeError "config.tags[i]")
     end,
     highlighted f (trimmed (visibleTagCount c) entries) s).
Proof.
  intros Hc Hf. unfold selectVisible, updateElement. unfold_js.
  rewrite Hc, Hf. cbn. by destruct (keywordPool _ _).
Qed.

(** X9. An entry for an element whose position is not a position of
    [tags] (one that an older rendering left behind) makes the callback
    throw a [TypeError] when it is selected: the highlights have been
    updated by then, but no provider is queried, nothing is assigned to the
    ad slot and no run of [fetchAndRenderAd] starts. *)
Theorem stale_entry_throws_after_highlighting
    (fetchAdFromProvider : string → list string → Settlement)
    (entries : list Entry) (s : State) (c : Config) (f : string) (i : nat) :
  config s = Some c → feedEl s = Some f →
  i ∈ trimmed (visibleTagCount c) entries → length (tags c) ≤ i →
  handleVisibilityChange fetchAdFromProvider entries s
  = (Throw (TypeError "config.tags[i]"),
     highlighted f (trimmed (visibleTagCount c) entries) s)
  ∧ lookups (highlighted f (trimmed (visibleTagCount c) entries) s) = lookups s
  ∧ renders (highlighted f (trimmed (visibleTagCount c) entries) s) = renders s
  ∧ ∀ runs, react fetchAdFromProvider (Observe entries) (mkWorld s runs)
            = mkWorld (highlighted f (trimmed (visibleTagCount c) entries) s) runs.
Proof.
  intros Hc Hf Hi Hlen.
  assert (Hnone : keywordPool (tags c) (trimmed (visibleTagCount c) entries) = None).
  { apply keywordPool_None. by exists i. }
  split.
  { unfold handleVisibilityChange. unfold mbind, Js_bind.
    by rewrite (selectVisible_state _ _ c f), Hnone. }
  split; [done|]. split; [done|].
  intros runs. cbn [react]. unfold spawn, handleVisibilityChange_async.
  unfold mbind, Js_bind. cbn [state inflight].
  by rewrite (selectVisible_state _ _ c f), Hnone.
Qed.

Lemma stale_entry_throws_after_highlighting_witness :
  fst (handleVisibilityChange stubNullXY [entryOf 7 true] ready)
  = Throw (TypeError "config.tags[i]").
Proof.
  pose proof (stale_entry_throws_after_highlighting stubNullXY [entryOf 7 true]
                ready (mkConfig "tag-feed" "ad-slot" 5 12 demoTags) "tag-feed" 7
                ltac:(vm_compute; reflexivity) ltac:(vm_compute; reflexivity)
                ltac:(vm_compute; left) ltac:(vm_compute; lia)) as [H _].
  rewrite H. reflexivity.
Defined.

Lemma tagElementsOf_completed a markup qs kw ws s f :
  tagElementsOf f (completed a markup qs kw ws s)
  = if decide (a = f) then [] else tagElementsOf f s.
Proof.
  unfold tagElementsOf, completed. cbn [document]. case_decide as Haf.
  - subst. rewrite lookup_alter_eq. destruct (document s !! f) as [e|]; [|done].
    cbn [fmap option_fmap option_map]. unfold set_childNodes.
    by rewrite querySelectorAll_tags_parseHTML.
  - by rewrite lookup_alter_ne.
Qed.

(** X10. Where the ad goes. A run of [fetchAndRenderAd] replaces the whole
    content of the ad slot by what it renders, whatever was there; when the
    feed is another element than the ad slot, its tag elements and their
    highlights are left as they are. *)
Theorem render_replaces_the_slot_and_spares_another_feed
    (fetchAdFromProvider : string → list string → Settlement)
    (kw : list string) (s : State) (f a : string) :
  adSlotEl s = Some a →
  let s' := snd (fetchAndRenderAd fetchAdFromProvider kw s) in
  slotContent a s'
  = (λ _, parseHTML (painted (resolve fetchAdFromProvider kw))) <$> slotContent a s
  ∧ (f ≠ a → tagElementsOf f s' = tagElementsOf f s
             ∧ activeIdx f s' = activeIdx f s).
Proof.
  intros Ha s'. subst s'.
  rewrite (fetchAndRenderAd_run _ _ _ a) by done. cbn [snd].
  split; [apply slotContent_completed|].
  assert (Hframe : ∀ id, id ≠ a →
            document (completed a (painted (resolve fetchAdFromProvider kw))
                        (asked fetchAdFromProvider kw) kw
                        (failures fetchAdFromProvider
                           (asked fetchAdFromProvider kw) kw) s) !! id
            = document s !! id).
  { intros id Hid. unfold completed. cbn [document].
    by rewrite lookup_alter_ne. }
  intros Hne. unfold activeIdx, tagElementsOf. by rewrite Hframe.
Qed.

Lemma render_replaces_the_slot_and_spares_another_feed_witness :
  let s' := snd (fetchAndRenderAd stubNullXY ["ai"] ready) in
  slotContent "ad-slot" s'
  = (λ _, parseHTML (painted (resolve stubNullXY ["ai"]))) <$> slotContent "ad-slot" ready
  ∧ tagElementsOf "tag-feed" s' = tagElementsOf "tag-feed" ready.
Proof.
  pose proof (render_replaces_the_slot_and_spares_another_feed stubNullXY ["ai"]
                ready "tag-feed" "ad-slot" ltac:(vm_compute; reflexivity)) as H.
  cbv zeta in H. destruct H as (H1 & H3).
  cbv zeta. split; [exact H1|]. apply H3. discriminate.
Defined.

(** X11. After a callback the highlighted tags of the feed are exactly the
    tag elements whose position is in the selection: highlights from an
    earlier callback that are not selected now are removed. The tag
    elements keep their number, positions and texts. When the positions of
    the tag elements are distinct and the count is positive, no more than
    [count] tags are highlighted. (The feed being another element than the
    ad slot.) *)
Theorem callback_highlights_exactly_the_selection
    (fetchAdFromProvider : string → list string → Settlement)
    (entries : list Entry) (s : State) (c : Config) (f a : string) :
  config s = Some c → feedEl s = Some f → adSlotEl s = Some a → a ≠ f →
  let s' := snd (handleVisibilityChange fetchAdFromProvider entries s) in
  let selection := trimmed (visibleTagCount c) entries in
  activeIdx f s' = filter (λ i, i ∈ selection) (dataset_idx <$> tagElementsOf f s)
  ∧ dataset_idx <$> tagElementsOf f s' = dataset_idx <$> tagElementsOf f s
  ∧ textContent <$> tagElementsOf f s' = textContent <$> tagElementsOf f s
  ∧ (NoDup (dataset_idx <$> tagElementsOf f s) → (0 < visibleTagCount c)%Z →
     (Z.of_nat (length (activeIdx f s')) ≤ visibleTagCount c)%Z).
Proof.
  intros Hc Hf Ha Hne s' selection.
  assert (Htags : tagElementsOf f s' = tagElementsOf f (highlighted f selection s)).
  { subst s'. unfold handleVisibilityChange. unfold mbind, Js_bind.
    rewrite (selectVisible_state _ _ c f) by done. fold selection.
    destruct (keywordPool _ _) as [pool|]; [|done].
    rewrite (fetchAndRenderAd_run _ _ _ a) by done. cbn [snd].
    by rewrite tagElementsOf_completed, decide_False. }
  assert (Hact : activeIdx f s'
                 = filter (λ i, i ∈ selection) (dataset_idx <$> tagElementsOf f s)).
  { unfold activeIdx. rewrite Htags. apply activeIdx_highlighted. }
  split; [done|].
  rewrite Htags, tagElementsOf_highlighted, <-!list_fmap_compose.
  split; [by apply list_fmap_ext|]. split; [by apply list_fmap_ext|].
  intros Hnd Hpos. rewrite Hact.
  assert (Hsub : filter (λ i, i ∈ selection) (dataset_idx <$> tagElementsOf f s)
                 ⊆+ selection).
  { apply NoDup_submseteq; [by apply NoDup_filter|].
    intros x Hx. by apply list_elem_of_filter in Hx as [? _]. }
  apply submseteq_length in Hsub.
  pose proof (trimmed_length_le (visibleTagCount c) entries Hpos).
  fold selection in H. lia.
Qed.

Lemma callback_highlights_exactly_the_selection_witness :
  activeIdx "tag-feed"
    (snd (handleVisibilityChange stubNullXY
            [entryOf 3 true; entryOf 1 true; entryOf 2 false] ready))
  = filter (λ i, i ∈ trimmed 5 [entryOf 3 true; entryOf 1 true; entryOf 2 false])
      (dataset_idx <$> tagElementsOf "tag-feed" ready).
Proof.
  pose proof (callback_highlights_exactly_the_selection stubNullXY
                [entryOf 3 true; entryOf 1 true; entryOf 2 false] ready
                (mkConfig "tag-feed" "ad-slot" 5 12 demoTags) "tag-feed" "ad-slot"
                ltac:(vm_compute; reflexivity) ltac:(vm_compute; reflexivity)
                ltac:(vm_compute; reflexivity) ltac:(discriminate)) as [H _].
  exact H.
Defined.

(** ** Runs that cannot render *)

Section NoSlot.

Variable fetchAdFromProvider : string → list string → Settlement.

(** What the console gets from a run that has no ad slot to write to: a
    provider that fails is reported with its failure, one that has markup
    is reported with the [TypeError] of the assignment. *)
Lemma renderAd_no_slot markup s :
  adSlotEl s = None → renderAd markup s = (Throw (TypeError "adSlotEl"), s).
Proof. intros Ha. unfold renderAd, setInnerHTML. unfold_js. by rewrite Ha. Qed.

Lemma tryProviders_no_slot providers kw s :
  adSlotEl s = None →
  ∃ warns,
    tryProviders fetchAdFromProvider providers kw s
    = (Throw (TypeError "adSlotEl"),
       set_console (console s ++ warns)
         (set_lookups (lookups s ++ ((λ p, (p, kw)) <$> providers)) s))
    ∧ ∀ p, p ∈ providers → declines fetchAdFromProvider p kw = false →
           (warnMessage p, TypeError "adSlotEl") ∈ warns.
Proof.
  revert s. induction providers as [|p rest IH]; intros s Ha.
  - exists []. cbn [tryProviders]. rewrite renderAd_no_slot by done.
    split; [|by intros p Hp; apply elem_of_nil in Hp].
    destruct s. unfold set_console, set_lookups. cbn. by rewrite !app_nil_r.
  - cbn [tryProviders]. unfold tryProvider, awaitLookup, callProvider, settled,
      afterLookup, console_warn. unfold_js.
    destruct (fetchAdFromProvider p kw) as [ad|e] eqn:Hf.
    + destruct (truthy ad) as [m|] eqn:Ht.
      * rewrite renderAd_no_slot by done.
        match goal with
        | |- context [tryProviders _ rest kw ?st] =>
            destruct (IH st Ha) as (warns & -> & Hw)
        end.
        exists ((warnMessage p, TypeError "adSlotEl") :: warns). split.
        { unfold set_console, set_lookups. cbn. by rewrite <-!app_assoc. }
        intros q Hq Hd. apply elem_of_cons in Hq as [->|Hq]; [by left|].
        right. by apply Hw.
      * match goal with
        | |- context [tryProviders _ rest kw ?st] =>
            destruct (IH st Ha) as (warns & -> & Hw)
        end.
        exists warns. split.
        { unfold set_console, set_lookups. cbn. by rewrite <-!app_assoc. }
        intros q Hq Hd. apply elem_of_cons in Hq as [->|Hq]; [|by apply Hw].
        unfold declines in Hd. rewrite Hf, Ht in Hd.
        by rewrite bool_decide_eq_true_2 in Hd.
    + match goal with
        | |- context [tryProviders _ rest kw ?st] =>
            destruct (IH st Ha) as (warns & -> & Hw)
        end.
      exists ((warnMessage p, e) :: warns). split.
      { unfold set_console, set_lookups. cbn. by rewrite <-!app_assoc. }
      intros q Hq Hd. apply elem_of_cons in Hq as [->|Hq]; [|right; by apply Hw].
      unfold declines in Hd. by rewrite Hf in Hd.
Qed.

End NoSlot.

(** X12. When the ad slot reference is [null] (after an [init] that did not
    find it), a run on a non-empty pool does not stop at a provider that
    has markup: the assignment to the slot throws inside the [try] block,
    the [catch] reports it as that provider's failure, and the loop goes
    on. So every provider is queried, in order; the run then ends with the
    [TypeError] of the last assignment, and nothing is rendered and no
    element is touched. *)
Theorem run_without_slot_queries_every_provider
    (fetchAdFromProvider : string → list string → Settlement)
    (kw : list string) (s : State) :
  adSlotEl s = None → kw ≠ [] →
  let out := fetchAndRenderAd fetchAdFromProvider kw s in
  fst out = Throw (TypeError "adSlotEl")
  ∧ lookups (snd out) = lookups s ++ ((λ p, (p, kw)) <$> providerList)
  ∧ renders (snd out) = renders s
  ∧ document (snd out) = document s
  ∧ (∀ p, p ∈ providerList → declines fetchAdFromProvider p kw = false →
          (warnMessage p, TypeError "adSlotEl") ∈ console (snd out)).
Proof.
  intros Ha Hkw out. subst out. unfold fetchAndRenderAd.
  rewrite decide_False by (by destruct kw).
  destruct (tryProviders_no_slot fetchAdFromProvider providerList kw s Ha)
    as (warns & -> & Hw).
  cbn [fst snd]. split; [done|]. split; [done|]. split; [done|]. split; [done|].
  intros p Hp Hd. cbn. apply elem_of_app. right. by apply Hw.
Qed.

Lemma run_without_slot_queries_every_provider_witness :
  let out := fetchAndRenderAd stubNullXY ["ai"] (snd (init lostSlotOptions ready)) in
  fst out = Throw (TypeError "adSlotEl")
  ∧ lookups (snd out)
    = lookups (snd (init lostSlotOptions ready))
      ++ ((λ p, (p, ["ai"])) <$> providerList).
Proof.
  pose proof (run_without_slot_queries_every_provider stubNullXY ["ai"]
                (snd (init lostSlotOptions ready))
                ltac:(vm_compute; reflexivity) ltac:(discriminate))
    as (H1 & H2 & _).
  split; [exact H1 | exact H2].
Defined.

(** X13. With a visible count of 0 every callback selects nothing: it
    removes every highlight, queries no provider and assigns the
    empty-pool message to the ad slot. *)
Theorem count_zero_never_queries
    (fetchAdFromProvider : string → list string → Settlement)
    (entries : list Entry) (s : State) (c : Config) (f a : string) :
  config s = Some c → feedEl s = Some f → adSlotEl s = Some a →
  visibleTagCount c = 0%Z →
  let out := handleVisibilityChange fetchAdFromProvider entries s in
  fst out = Normal tt
  ∧ lookups (snd out) = lookups s
  ∧ renders (snd out) = renders s ++ [emptyPoolMarkup]
  ∧ activeIdx f (snd out) = [].
Proof.
  intros Hc Hf Ha Hzero out. subst out.
  assert (Hsel : trimmed (visibleTagCount c) entries = []).
  { rewrite Hzero. unfold trimmed. by rewrite slice_positive by lia. }
  rewrite (handleVisibilityChange_run _ _ _ c f a []) by (by rewrite ?Hsel).
  rewrite Hsel. cbn [fst snd].
  split; [done|]. split; [unfold completed; cbn; by rewrite app_nil_r|].
  split; [done|].
  unfold activeIdx. rewrite tagElementsOf_completed.
  case_decide; [done|]. fold (activeIdx f (highlighted f [] s)).
  rewrite activeIdx_highlighted.
  induction (dataset_idx <$> tagElementsOf f s) as [|i l IH]; [done|].
  rewrite filter_cons_False; [done|]. apply not_elem_of_nil.
Qed.

Lemma count_zero_never_queries_witness :
  let out := handleVisibilityChange stubNullXY [entryOf 0 true; entryOf 1 true]
               (snd (init zeroCountOptions fresh)) in
  fst out = Normal tt
  ∧ lookups (snd out) = lookups (snd (init zeroCountOptions fresh))
  ∧ renders (snd out) = renders (snd (init zeroCountOptions fresh)) ++ [emptyPoolMarkup].
Proof.
  pose proof (count_zero_never_queries stubNullXY [entryOf 0 true; entryOf 1 true]
                (snd (init zeroCountOptions fresh))
                (mkConfig "tag-feed" "ad-slot" 0 12 demoTags) "tag-feed" "ad-slot"
                ltac:(vm_compute; reflexivity) ltac:(vm_compute; reflexivity)
                ltac:(vm_compute; reflexivity) ltac:(reflexivity))
    as (H1 & H2 & H3 & _).
  split; [exact H1|]. split; [exact H2 | exact H3].
Defined.

(** ** The placeholder adapter *)

Lemma append_String c (p q : string) : String c p +:+ q = String c (p +:+ q).
Proof. reflexivity. Qed.

Lemma append_empty (q : string) : "" +:+ q = q.
Proof. reflexivity. Qed.

Lemma prefix_spec (part k : string) :
  String.prefix part k = true ↔ ∃ post, k = part +:+ post.
Proof.
  revert k. induction part as [|c part IH]; intros [|d k]; cbn.
  - split; [by exists ""|done].
  - split; [by exists (String d k)|done].
  - split; [done|]. by intros [post ?].
  - destruct (Ascii.ascii_dec c d) as [->|Hne].
    + rewrite IH. split; intros [post Hpost]; exists post;
        rewrite append_String in *; congruence.
    + split; [done|]. intros [post Hpost]. rewrite append_String in Hpost.
      congruence.
Qed.

Lemma includes_spec (k part : string) :
  Placeholder.includes k part = true ↔ ∃ pre post, k = pre +:+ part +:+ post.
Proof.
  induction k as [|c k IH]; cbn [Placeholder.includes].
  - rewrite orb_false_r, prefix_spec. split.
    + intros [post ->]. by exists "", post.
    + intros (pre & post & H). destruct pre; [by exists post|].
      by rewrite append_String in H.
  - rewrite orb_true_iff, prefix_spec, IH. split.
    + intros [[post ->]|(pre & post & ->)].
      * by exists "", post.
      * by exists (String c pre), post.
    + intros (pre & post & H). destruct pre as [|d pre].
      * left. by exists post.
      * right. exists pre, post. rewrite append_String in H. congruence.
Qed.

Lemma lowerChar_idempotent c :
  Placeholder.lowerChar (Placeholder.lowerChar c) = Placeholder.lowerChar c.
Proof.
  destruct c as [[] [] [] [] [] [] [] []]; vm_compute; reflexivity.
Qed.

Lemma toLowerCase_idempotent k :
  Placeholder.toLowerCase (Placeholder.toLowerCase k) = Placeholder.toLowerCase k.
Proof.
  induction k as [|c k IH]; [done|]. cbn. by rewrite lowerChar_idempotent, IH.
Qed.

Lemma placeholder_matched provider kw :
  existsb (λ k, Placeholder.includes (Placeholder.toLowerCase k) provider) kw = true
  ↔ ∃ k, k ∈ kw ∧ ∃ pre post, Placeholder.toLowerCase k = pre +:+ provider +:+ post.
Proof.
  rewrite existsb_exists. split.
  - intros (k & Hk & Hinc). exists k. split; [by apply list_elem_of_In|].
    by apply includes_spec.
  - intros (k & Hk & Hsub). exists k. split; [by apply list_elem_of_In|].
    by apply includes_spec.
Qed.

(** X14. The placeholder adapter, asked for a provider of [providerList]
    with a pool of ASCII keywords, never fails. It answers [null] exactly
    when no keyword of the pool, lower-cased, contains the provider's name;
    otherwise it answers that provider's dummy markup, which is not empty,
    so that the engine stops there. *)
Theorem placeholder_matches_by_name (provider : string) (kw : list string) :
  provider ∈ providerList →
  Forall (λ k, Placeholder.isAscii k = true) kw →
  let answer := Placeholder.fetchAdFromProvider provider kw in
  let named := ∃ k, k ∈ kw ∧ ∃ pre post,
                 Placeholder.toLowerCase k = pre +:+ provider +:+ post in
  (∀ e, answer ≠ Rejected e)
  ∧ (answer = Resolved None ↔ ¬ named)
  ∧ (named →
     ∃ markup, Placeholder.dummyAds provider = Some markup ∧ markup ≠ ""
               ∧ answer = Resolved (Some (mkAd markup))
               ∧ declines Placeholder.fetchAdFromProvider provider kw = false).
Proof.
  intros Hin _ answer named. subst answer named.
  pose proof (placeholder_matched provider kw) as Hm.
  unfold declines, Placeholder.fetchAdFromProvider.
  destruct (existsb _ kw) eqn:He; cbn [negb].
  - assert (Hnamed := proj1 Hm eq_refl).
    split; [done|]. split; [split; [done|by intros H; destruct H]|].
    intros _. unfold providerList in Hin.
    repeat (apply elem_of_cons in Hin as [->|Hin];
            [eexists; split; [reflexivity|]; split; [by vm_compute|];
             split; [reflexivity|by vm_compute]|]).
    by apply elem_of_nil in Hin.
  - assert (Hnot : ¬ ∃ k, k ∈ kw ∧ ∃ pre post,
                     Placeholder.toLowerCase k = pre +:+ provider +:+ post).
    { intros H. apply Hm in H. congruence. }
    split; [done|]. split; [done|]. done.
Qed.

Lemma placeholder_matches_by_name_witness :
  ∃ markup, Placeholder.dummyAds "google" = Some markup ∧ markup ≠ ""
            ∧ Placeholder.fetchAdFromProvider "google" ["SEO"; "Google Ads"]
              = Resolved (Some (mkAd markup))
            ∧ declines Placeholder.fetchAdFromProvider "google" ["SEO"; "Google Ads"]
              = false.
Proof.
  pose proof (placeholder_matches_by_name "google" ["SEO"; "Google Ads"]
                ltac:(vm_compute; set_solver)
                ltac:(vm_compute; repeat constructor)) as H.
  cbv zeta in H. destruct H as (_ & _ & H).
  apply H. exists "Google Ads". split; [right; left|].
  exists "", " ads". reflexivity.
Defined.

(** X15. The answer of the placeholder adapter depends on the pool only
    through the set of its lower-cased keywords: the order of the keywords,
    their repetitions and their letter case do not matter; and a pool that
    holds every keyword of a pool that matches, matches too. *)
Theorem placeholder_sees_a_set_of_lowercased_keywords
    (provider : string) (kw kw' : list string) :
  ((∀ k, k ∈ Placeholder.toLowerCase <$> kw ↔ k ∈ Placeholder.toLowerCase <$> kw') →
   Placeholder.fetchAdFromProvider provider kw'
   = Placeholder.fetchAdFromProvider provider kw)
  ∧ Placeholder.fetchAdFromProvider provider (Placeholder.toLowerCase <$> kw)
    = Placeholder.fetchAdFromProvider provider kw
  ∧ (kw ⊆ kw' →
     Placeholder.fetchAdFromProvider provider kw ≠ Resolved None →
     Placeholder.fetchAdFromProvider provider kw'
     = Placeholder.fetchAdFromProvider provider kw).
Proof.
  assert (Hsub : ∀ a b : list string,
            (∀ k, k ∈ Placeholder.toLowerCase <$> a → k ∈ Placeholder.toLowerCase <$> b) →
            existsb (λ k, Placeholder.includes (Placeholder.toLowerCase k) provider) a = true →
            existsb (λ k, Placeholder.includes (Placeholder.toLowerCase k) provider) b = true).
  { intros a b Hab Ha. apply placeholder_matched in Ha as (k & Hk & Hin).
    assert (Hl : Placeholder.toLowerCase k ∈ Placeholder.toLowerCase <$> b).
    { apply Hab. by apply list_elem_of_fmap_2. }
    apply list_elem_of_fmap in Hl as (k' & Heq & Hk').
    apply placeholder_matched. exists k'. split; [done|]. by rewrite <-Heq. }
  assert (Heq : ∀ a b : list string,
            (∀ k, k ∈ Placeholder.toLowerCase <$> a ↔ k ∈ Placeholder.toLowerCase <$> b) →
            Placeholder.fetchAdFromProvider provider b
            = Placeholder.fetchAdFromProvider provider a).
  { intros a b Hab. unfold Placeholder.fetchAdFromProvider.
    destruct (existsb _ a) eqn:Ha.
    - by rewrite (Hsub a b) by (done || intros k; apply Hab).
    - destruct (existsb _ b) eqn:Hb; [|done].
      rewrite (Hsub b a) in Ha; [done| |done]. intros k. apply Hab. }
  split; [apply Heq|]. split.
  - apply Heq. intros k. rewrite <-list_fmap_compose.
    split; intros Hk; apply list_elem_of_fmap in Hk as (k' & -> & Hk');
      apply list_elem_of_fmap; exists k'; cbn;
      by rewrite ?toLowerCase_idempotent.
  - intros Hincl Hyes. unfold Placeholder.fetchAdFromProvider in *.
    destruct (existsb _ kw) eqn:Ha; [|done]. cbn [negb] in *.
    rewrite (Hsub kw kw'); [done| |done].
    intros k Hk. apply list_elem_of_fmap in Hk as (k' & -> & Hk').
    apply list_elem_of_fmap_2. by apply Hincl.
Qed.

Lemma placeholder_sees_a_set_of_lowercased_keywords_witness :
  Placeholder.fetchAdFromProvider "carbon" ["seo"; "Carbon Offset"; "seo"]
  = Placeholder.fetchAdFromProvider "carbon" ["carbon offset"; "SEO"].
Proof.
  pose proof (placeholder_sees_a_set_of_lowercased_keywords "carbon"
                ["carbon offset"; "SEO"] ["seo"; "Carbon Offset"; "seo"]) as [H _].
  apply H. intros k.
  change (Placeholder.toLowerCase <$> ["carbon offset"; "SEO"])
    with ["carbon offset"; "seo"].
  change (Placeholder.toLowerCase <$> ["seo"; "Carbon Offset"; "seo"])
    with ["seo"; "carbon offset"; "seo"].
  rewrite !elem_of_cons, !elem_of_nil. tauto.
Defined.

(** X16. The engine over the placeholder adapter: on a non-empty pool of
    ASCII keywords the ad slot gets the dummy markup of the first provider
    of [providerList] whose name occurs in a lower-cased keyword, which is
    not empty, or the no-match message when none does; the run ends
    normally and nothing is written to the console. *)
Theorem placeholder_engine_renders_first_named_provider
    (kw : list string) (s : State) (a : string) :
  kw ≠ [] → Forall (λ k, Placeholder.isAscii k = true) kw → adSlotEl s = Some a →
  let named := λ p, existsb (λ k, Placeholder.includes (Placeholder.toLowerCase k) p) kw in
  let out := fetchAndRenderAd Placeholder.fetchAdFromProvider kw s in
  resolve Placeholder.fetchAdFromProvider kw
  = match find named providerList with
    | Some p => Rendered p (default "" (Placeholder.dummyAds p))
    | None => NoAd NoMatch
    end
  ∧ fst out = Normal tt
  ∧ renders (snd out)
    = renders s ++ [match find named providerList with
                    | Some p => default "" (Placeholder.dummyAds p)
                    | None => noMatchMarkup
                    end]
  ∧ console (snd out) = console s
  ∧ (∀ p, find named providerList = Some p → Placeholder.dummyAds p ≠ Some ""
          ∧ Placeholder.dummyAds p ≠ None).
Proof.
  intros Hkw _ Ha named out. subst out.
  assert (Hres : resolve Placeholder.fetchAdFromProvider kw
    = match find named providerList with
      | Some p => Rendered p (default "" (Placeholder.dummyAds p))
      | None => NoAd NoMatch
      end).
  { destruct kw as [|k kw]; [done|]. cbn [resolve].
    unfold providerList. cbn [resolveFrom find].
    unfold Placeholder.fetchAdFromProvider. fold (named "carbon").
    fold (named "facebook"). fold (named "google").
    destruct (named "carbon"); [done|].
    destruct (named "facebook"); [done|].
    by destruct (named "google"). }
  assert (Hquiet : ∀ providers,
            failures Placeholder.fetchAdFromProvider providers kw = []).
  { intros providers. unfold failures.
    induction providers as [|p ps IH]; [done|]. cbn.
    unfold Placeholder.fetchAdFromProvider at 1.
    by destruct (negb _). }
  rewrite (fetchAndRenderAd_run _ _ _ a) by done. cbn [fst snd].
  split; [done|]. split; [done|].
  unfold completed. cbn [renders console]. rewrite Hres, Hquiet, app_nil_r.
  split; [by destruct (find named providerList)|]. split; [done|].
  intros p Hp. unfold providerList in Hp. cbn [find] in Hp.
  repeat (destruct (named _); [injection Hp as <-; by vm_compute|]).
  done.
Qed.

Lemma placeholder_engine_renders_first_named_provider_witness :
  resolve Placeholder.fetchAdFromProvider ["Google Ads"; "carbon offset"]
  = Rendered "carbon" (default "" (Placeholder.dummyAds "carbon")).
Proof.
  pose proof (placeholder_engine_renders_first_named_provider
                ["Google Ads"; "carbon offset"] ready "ad-slot"
                ltac:(discriminate) ltac:(vm_compute; repeat constructor)
                ltac:(vm_compute; reflexivity)) as H.
  cbv zeta in H. destruct H as [H _]. rewrite H. reflexivity.
Defined.

(** ** Spacing and count updates *)

Lemma updateSpacing_run px s c f :
  config s = Some c → feedEl s = Some f →
  updateSpacing px s
  = (Normal tt,
     set_document
       (alter (setProperty "--tag-spacing" (spacingValue px)) f (document s))
       (set_config (Some (mkConfig (feedElementId c) (adSlotId c)
                            (visibleTagCount c) px (tags c))) s)).
Proof.
  intros Hc Hf. unfold updateSpacing, updateElement. unfold_js.
  rewrite Hc. cbn. by rewrite Hf.
Qed.

(** X17. Of two calls of [updateSpacing] the later one wins: from every
    state, initialised or not, calling it with [p] and then with [q] gives
    the result and the state of calling it with [q] alone. Before [init]
    the call throws a [TypeError] and changes nothing. *)
Theorem updateSpacing_last_call_wins (p q : Z) (s : State) :
  updateSpacing q (snd (updateSpacing p s)) = updateSpacing q s
  ∧ (config s = None → updateSpacing q s = (Throw (TypeError "config"), s)).
Proof.
  split.
  - unfold updateSpacing, updateElement. unfold_js.
    destruct (config s) as [c|] eqn:Hc; cbn; [|by rewrite Hc].
    destruct (feedEl s) as [f|] eqn:Hf; cbn; [|by rewrite Hf].
    rewrite Hf. unfold set_document, set_config. cbn. do 2 f_equal.
    rewrite alter_alter_eq. apply alter_ext. intros e _.
    unfold setProperty. cbn. by rewrite insert_insert_eq.
  - intros Hc. unfold updateSpacing. unfold_js. by rewrite Hc.
Qed.

Lemma updateSpacing_last_call_wins_witness :
  updateSpacing 20 fresh = (Throw (TypeError "config"), fresh).
Proof.
  apply (proj2 (updateSpacing_last_call_wins 8 20 fresh)). reflexivity.
Defined.

(** X18. [updateSpacing] and the observer callback do not see each other:
    on an initialised module, changing the spacing and then handling a
    batch of entries ends in the same state as handling the batch and then
    changing the spacing, also when the feed and the ad slot are the same
    element. *)
Theorem updateSpacing_commutes_with_callback
    (fetchAdFromProvider : string → list string → Settlement)
    (px : Z) (entries : list Entry) (s : State) (c : Config) (f a : string) :
  config s = Some c → feedEl s = Some f → adSlotEl s = Some a →
  Forall (λ i, i < length (tags c)) (trimmed (visibleTagCount c) entries) →
  handleVisibilityChange fetchAdFromProvider entries (snd (updateSpacing px s))
  = (Normal tt,
     snd (updateSpacing px
            (snd (handleVisibilityChange fetchAdFromProvider entries s))))
  ∧ fst (updateSpacing px
           (snd (handleVisibilityChange fetchAdFromProvider entries s)))
    = Normal tt.
Proof.
  intros Hc Hf Ha Hall.
  destruct (keywordPool_total _ _ Hall) as [pool Hpool].
  rewrite (updateSpacing_run px s c f) by done. cbn [snd].
  rewrite (handleVisibilityChange_run _ _ s c f a pool) by done. cbn [snd].
  rewrite (handleVisibilityChange_run _ _ _
             (mkConfig (feedElementId c) (adSlotId c) (visibleTagCount c) px (tags c))
             f a pool) by done.
  rewrite (updateSpacing_run px _ c f) by done. cbn [fst snd].
  split; [|done]. f_equal.
  unfold completed, highlighted, set_document, set_config. cbn. f_equal.
  apply map_eq. intros i. rewrite !lookup_alter.
  repeat case_decide; subst; try done; by destruct (document s !! _).
Qed.

Lemma updateSpacing_commutes_with_callback_witness :
  handleVisibilityChange stubNullXY [entryOf 1 true] (snd (updateSpacing 20 ready))
  = (Normal tt,
     snd (updateSpacing 20 (snd (handleVisibilityChange stubNullXY [entryOf 1 true] ready)))).
Proof.
  apply (updateSpacing_commutes_with_callback stubNullXY 20 [entryOf 1 true] ready
           (mkConfig "tag-feed" "ad-slot" 5 12 demoTags) "tag-feed" "ad-slot"
           ltac:(vm_compute; reflexivity) ltac:(vm_compute; reflexivity)
           ltac:(vm_compute; reflexivity) ltac:(vm_compute; repeat constructor)).
Defined.

(** ** More on overlapping runs *)

Section Pending.

Variable fetchAdFromProvider : string → list string → Settlement.

Lemma enterLoop_issues providers kw s a :
  adSlotEl s = Some a →
  ∃ o s' issued,
    enterLoop providers kw s = (Normal o, s')
    ∧ adSlotEl s' = Some a
    ∧ lookups s' = lookups s ++ issued
    ∧ length issued = length (option_list o).
Proof.
  intros Ha. destruct providers as [|p rest]; cbn [enterLoop]; unfold_js.
  - rewrite (renderAd_run _ a) by done.
    eexists None, _, []. unfold completed. cbn. by rewrite !app_nil_r.
  - unfold callProvider, modify. by eexists (Some _), _, [_].
Qed.

Lemma start_issues kw s a :
  adSlotEl s = Some a →
  ∃ o s' issued,
    start kw s = (Normal o, s')
    ∧ adSlotEl s' = Some a
    ∧ lookups s' = lookups s ++ issued
    ∧ length issued = length (option_list o).
Proof.
  intros Ha. unfold start. case_decide.
  - unfold_js. rewrite (renderAd_run _ a) by done.
    eexists None, _, []. unfold completed. cbn. by rewrite !app_nil_r.
  - by apply enterLoop_issues.
Qed.

Lemma resume_issues r s a :
  adSlotEl s = Some a →
  ∃ o s' issued,
    resume fetchAdFromProvider r s = (Normal o, s')
    ∧ adSlotEl s' = Some a
    ∧ lookups s' = lookups s ++ issued
    ∧ length issued = length (option_list o).
Proof.
  intros Ha. rewrite (resume_run _ _ _ a) by done.
  destruct (declines _ _ _).
  - destruct (enterLoop_issues (run_rest r) (run_keywords r)
                (set_console
                   (console s ++ failures fetchAdFromProvider [run_awaiting r]
                                   (run_keywords r)) s) a Ha)
      as (o & s' & issued & H1 & H2 & H3 & H4).
    by exists o, s', issued.
  - eexists None, _, []. unfold completed. cbn. by rewrite !app_nil_r.
Qed.

Lemma selectVisible_lookups entries s :
  adSlotEl (snd (selectVisible entries s)) = adSlotEl s
  ∧ lookups (snd (selectVisible entries s)) = lookups s.
Proof.
  unfold selectVisible, updateElement. unfold_js.
  destruct (config s) as [c|]; [|done].
  destruct (feedEl s) as [f|]; [|done]. cbn.
  by destruct (keywordPool _ _).
Qed.

Lemma recount_lookups vp n s :
  adSlotEl (snd (recount vp n s)) = adSlotEl s
  ∧ lookups (snd (recount vp n s)) = lookups s.
Proof.
  unfold recount. unfold_js.
  destruct (config s) as [c|]; [|done]. cbn.
  by destruct (feedEl s).
Qed.

Lemma spawn_issues (pre : Js (list string)) w a :
  (∀ s, adSlotEl (snd (pre s)) = adSlotEl s ∧ lookups (snd (pre s)) = lookups s) →
  adSlotEl (state w) = Some a →
  let w' := spawn (pool ← pre; start pool) w in
  adSlotEl (state w') = Some a
  ∧ ∃ issued, lookups (state w') = lookups (state w) ++ issued
              ∧ length issued + length (inflight w) = length (inflight w').
Proof.
  intros Hpre Ha w'. subst w'. unfold spawn. unfold mbind, Js_bind.
  destruct (Hpre (state w)) as [Hpa Hpl].
  destruct (pre (state w)) as [[pool|e] s1]; cbn [fst snd] in *.
  - destruct (start_issues pool s1 a) as (o & s' & issued & -> & Ha' & Hl & Hlen);
      [congruence|].
    destruct o as [r|]; cbn [state inflight]; (split; [done|]); exists issued;
      (split; [congruence|]); rewrite ?length_app; cbn in *; lia.
  - cbn [state inflight]. split; [congruence|]. exists [].
    rewrite app_nil_r. split; [done|]. cbn. lia.
Qed.

Lemma react_issues ev w a :
  adSlotEl (state w) = Some a →
  let w' := react fetchAdFromProvider ev w in
  adSlotEl (state w') = Some a
  ∧ ∃ issued, lookups (state w') = lookups (state w) ++ issued
              ∧ length issued + length (inflight w)
                = settlesMade ev w + length (inflight w').
Proof.
  intros Ha. destruct ev as [entries|vp n|i]; cbn [react settlesMade].
  - apply (spawn_issues (selectVisible entries)); [|done].
    intros s. apply selectVisible_lookups.
  - replace (spawn (updateVisibleCount_async vp n) w)
      with (spawn (pool ← (entries ← recount vp n; selectVisible entries);
                   start pool) w).
    2: { unfold spawn, updateVisibleCount_async, handleVisibilityChange_async.
         unfold mbind, Js_bind. by destruct (recount vp n (state w)) as [[?|?] ?]. }
    apply (spawn_issues (entries ← recount vp n; selectVisible entries)); [|done].
    intros s. unfold mbind, Js_bind.
    destruct (recount_lookups vp n s) as [H1 H2].
    destruct (recount vp n s) as [[entries|e] s1]; cbn [fst snd] in *; [|done].
    destruct (selectVisible_lookups entries s1) as [H3 H4]. split; congruence.
  - destruct (inflight w !! i) as [r|] eqn:Hi.
    + destruct (resume_issues r (state w) a Ha)
        as (o & s' & issued & -> & Ha' & Hl & Hlen).
      pose proof (lookup_lt_Some _ _ _ Hi) as Hlt.
      destruct o as [r'|]; cbn [state inflight]; (split; [done|]); exists issued;
        (split; [done|]).
      * rewrite length_insert. cbn in *. lia.
      * rewrite length_delete by eauto. cbn in *. lia.
    + split; [done|]. exists []. rewrite app_nil_r. split; [done|]. cbn. lia.
Qed.

Lemma reacts_issues evs w a :
  adSlotEl (state w) = Some a →
  let w' := reacts fetchAdFromProvider evs w in
  adSlotEl (state w') = Some a
  ∧ ∃ issued, lookups (state w') = lookups (state w) ++ issued
              ∧ length issued + length (inflight w)
                = settlesAlong fetchAdFromProvider evs w + length (inflight w').
Proof.
  revert w. induction evs as [|ev evs IH]; intros w Ha.
  - cbn. split; [done|]. exists []. rewrite app_nil_r. split; [done|]. cbn. lia.
  - destruct (react_issues ev w a Ha) as (Ha1 & l1 & Hl1 & Hn1).
    destruct (IH _ Ha1) as (Ha2 & l2 & Hl2 & Hn2).
    unfold reacts in *. cbn [foldl settlesAlong].
    split; [done|]. exists (l1 ++ l2).
    split; [by rewrite Hl2, Hl1, app_assoc|].
    rewrite length_app. lia.
Qed.

End Pending.

(** X19. Under any interleaving, the provider lookups are only ever
    appended to, and those issued are as many as the lookups that have
    settled plus the calls that are suspended: each suspended call awaits
    exactly one lookup, so no call ever has two lookups under way. *)
Theorem one_lookup_per_suspended_call
    (fetchAdFromProvider : string → list string → Settlement)
    (evs : list Event) (w : World) (a : string) :
  adSlotEl (state w) = Some a →
  let w' := reacts fetchAdFromProvider evs w in
  ∃ issued,
    lookups (state w') = lookups (state w) ++ issued
    ∧ length issued + length (inflight w)
      = settlesAlong fetchAdFromProvider evs w + length (inflight w').
Proof.
  intros Ha. by destruct (reacts_issues fetchAdFromProvider evs w a Ha) as [_ H].
Qed.

Lemma one_lookup_per_suspended_call_witness :
  let w' := reacts Placeholder.fetchAdFromProvider overlap (mkWorld ready []) in
  ∃ issued,
    lookups (state w') = lookups ready ++ issued
    ∧ length issued + 0
      = settlesAlong Placeholder.fetchAdFromProvider overlap (mkWorld ready [])
        + length (inflight w').
Proof.
  exact (one_lookup_per_suspended_call Placeholder.fetchAdFromProvider overlap
           (mkWorld ready []) "ad-slot" ltac:(vm_compute; reflexivity)).
Defined.

(** X20. Two overlapping runs under every order of settlements. Two
    calls of [fetchAndRenderAd] on non-empty pools are started one after
    the other, and lookups then settle in any order until both calls are
    over. Each call renders the outcome of its own pool, once; the two
    outcomes are rendered in the order in which the calls end, and the ad
    slot is left with the one rendered last. So when the older call ends
    first the slot is left with the outcome of the newer one, and when it
    ends last, with its own. *)
Theorem overlapping_runs_leave_the_one_that_ended_last
    (fetchAdFromProvider : string → list string → Settlement)
    (s : State) (a : string) (kw1 kw2 : list string) (schedule : list nat) :
  adSlotEl s = Some a → kw1 ≠ [] → kw2 ≠ [] →
  let started := spawn (start kw2) (spawn (start kw1) (mkWorld s [])) in
  let ended := reacts fetchAdFromProvider (Settle <$> schedule) started in
  let older := painted (resolve fetchAdFromProvider kw1) in
  let newer := painted (resolve fetchAdFromProvider kw2) in
  inflight ended = [] →
  (renders (state ended) = renders s ++ [older; newer]
   ∧ slotContent a (state ended) = (λ _, parseHTML newer) <$> slotContent a s)
  ∨ (renders (state ended) = renders s ++ [newer; older]
     ∧ slotContent a (state ended) = (λ _, parseHTML older) <$> slotContent a s).
Proof.
  intros Ha H1 H2 started ended older newer Hover.
  destruct kw1 as [|k1 kw1]; [done|]. destruct kw2 as [|k2 kw2]; [done|].
  set (r1 := mkRun (k1 :: kw1) "carbon" ["facebook"; "google"]).
  set (r2 := mkRun (k2 :: kw2) "carbon" ["facebook"; "google"]).
  set (s1 := set_lookups (lookups s ++ [("carbon", k1 :: kw1)]) s).
  set (s2 := set_lookups (lookups s1 ++ [("carbon", k2 :: kw2)]) s1).
  assert (Hstarted : started = mkWorld s2 [r1; r2]).
  { subst started. unfold spawn. cbn [state inflight].
    rewrite start_suspends. cbn [state inflight]. by rewrite start_suspends. }
  destruct (settles_conserve fetchAdFromProvider schedule started a)
    as (out & Hr & Hs & Hp).
  { by rewrite Hstarted. }
  fold ended in Hr, Hs, Hp. rewrite Hover, app_nil_r in Hp.
  rewrite Hstarted in Hr, Hs, Hp. cbn [state inflight] in Hr, Hs, Hp.
  change (outcomeOf fetchAdFromProvider <$> [r1; r2]) with [older; newer] in Hp.
  change (renders s2) with (renders s) in Hr.
  unfold showsLast in Hs. change (slotContent a s2) with (slotContent a s) in Hs.
  symmetry in Hp. apply Permutation_length_2_inv in Hp as [->| ->].
  - left. by split.
  - right. by split.
Qed.

Lemma overlapping_runs_leave_the_one_that_ended_last_witness :
  let started := spawn (start ["carbon offset"])
                   (spawn (start ["google ads"]) (mkWorld ready [])) in
  let ended := reacts Placeholder.fetchAdFromProvider
                 (Settle <$> [0; 0; 0; 0]) started in
  let older := painted (resolve Placeholder.fetchAdFromProvider ["google ads"]) in
  let newer := painted (resolve Placeholder.fetchAdFromProvider ["carbon offset"]) in
  (renders (state ended) = renders ready ++ [older; newer]
   ∧ slotContent "ad-slot" (state ended)
     = (λ _, parseHTML newer) <$> slotContent "ad-slot" ready)
  ∨ (renders (state ended) = renders ready ++ [newer; older]
     ∧ slotContent "ad-slot" (state ended)
       = (λ _, parseHTML older) <$> slotContent "ad-slot" ready).
Proof.
  exact (overlapping_runs_leave_the_one_that_ended_last Placeholder.fetchAdFromProvider
           ready "ad-slot" ["google ads"] ["carbon offset"] [0; 0; 0; 0]
           ltac:(vm_compute; reflexivity) ltac:(discriminate) ltac:(discriminate)
           ltac:(vm_compute; reflexivity)).
Defined.

(** ** After a successful [init] *)

Lemma updateVisibleCount_Normal fetchAdFromProvider vp n s :
  Initialised s → fst (updateVisibleCount fetchAdFromProvider vp n s) = Normal tt.
Proof.
  intros (c & f & a & Hc & Hf & Ha & Hall).
  unfold updateVisibleCount. unfold mbind, Js_bind.
  rewrite (recount_run _ _ _ c f) by done.
  destruct (keywordPool_total (tags c)
              (trimmed n (visibleEntries vp (tagElementsOf f s)))) as [pool Hpool].
  { apply Forall_forall. intros i Hi.
    apply trimmed_subseteq in Hi. rewrite visibleIdx_visibleEntries in Hi.
    apply list_elem_of_fmap in Hi as (el & -> & Hel).
    apply list_elem_of_filter in Hel as [_ Hel].
    by apply (proj1 (Forall_forall _ _) Hall). }
  by rewrite (handleVisibilityChange_run _ _ _
                (mkConfig (feedElementId c) (adSlotId c) n (tagSpacingPx c) (tags c))
                f a pool).
Qed.

Lemma handleVisibilityChange_Normal fetchAdFromProvider entries s c :
  Initialised s → config s = Some c →
  Forall (λ e, isIntersecting e = true → dataset_idx (target e) < length (tags c))
    entries →
  fst (handleVisibilityChange fetchAdFromProvider entries s) = Normal tt.
Proof.
  intros (c' & f & a & Hc & Hf & Ha & Hall) Hc' Hentries.
  assert (c' = c) as -> by congruence.
  destruct (keywordPool_total (tags c) (trimmed (visibleTagCount c) entries))
    as [pool Hpool].
  { apply Forall_forall. intros i Hi. apply trimmed_subseteq in Hi.
    unfold visibleIdx in Hi. apply list_elem_of_fmap in Hi as (e & -> & He).
    apply list_elem_of_filter in He as [Hvis He].
    by apply (proj1 (Forall_forall _ _) Hentries). }
  by rewrite (handleVisibilityChange_run _ _ _ c f a pool).
Qed.

Lemma enterLoop_config providers kw s a :
  adSlotEl s = Some a → config (snd (enterLoop providers kw s)) = config s.
Proof.
  intros Ha. destruct providers as [|p rest]; cbn [enterLoop]; unfold_js; [|done].
  by rewrite (renderAd_run _ a).
Qed.

Lemma start_config kw s a :
  adSlotEl s = Some a → config (snd (start kw s)) = config s.
Proof.
  intros Ha. unfold start. case_decide; [|by apply (enterLoop_config _ _ _ a)].
  unfold_js. by rewrite (renderAd_run _ a).
Qed.

Lemma resume_config fetchAdFromProvider r s a :
  adSlotEl s = Some a → config (snd (resume fetchAdFromProvider r s)) = config s.
Proof.
  intros Ha. rewrite (resume_run _ _ _ a) by done.
  destruct (declines _ _ _); [|done].
  by rewrite (enterLoop_config _ _ _ a).
Qed.

Lemma selectVisible_config entries s :
  config (snd (selectVisible entries s)) = config s.
Proof.
  unfold selectVisible, updateElement. unfold_js.
  destruct (config s) as [c|] eqn:Hc; [|done].
  destruct (feedEl s) as [f|]; [|done]. cbn.
  by destruct (keywordPool _ _).
Qed.

Lemma recount_tags vp n s :
  tags <$> config (snd (recount vp n s)) = tags <$> config s.
Proof.
  unfold recount. unfold_js.
  destruct (config s) as [c|] eqn:Hc; cbn; [|by rewrite ?Hc].
  destruct (feedEl s); cbn; by rewrite ?Hc.
Qed.

Lemma spawn_tags (pre : Js (list string)) w a :
  (∀ s, tags <$> config (snd (pre s)) = tags <$> config s
        ∧ adSlotEl (snd (pre s)) = adSlotEl s) →
  adSlotEl (state w) = Some a →
  tags <$> config (state (spawn (pool ← pre; start pool) w))
  = tags <$> config (state w).
Proof.
  intros Hpre Ha. unfold spawn. unfold mbind, Js_bind.
  destruct (Hpre (state w)) as [Ht Hs].
  destruct (pre (state w)) as [[pool|e] s1]; cbn [snd] in *; [|done].
  pose proof (start_config pool s1 a ltac:(congruence)) as Hst.
  destruct (start pool s1) as [[[r|]|e] s2]; cbn in *; congruence.
Qed.

Lemma react_tags fetchAdFromProvider ev w a :
  adSlotEl (state w) = Some a →
  tags <$> config (state (react fetchAdFromProvider ev w))
  = tags <$> config (state w).
Proof.
  intros Ha. destruct ev as [entries|vp n|i]; cbn [react].
  - apply (spawn_tags (selectVisible entries) w a); [|done]. intros s.
    rewrite selectVisible_config. split; [done|]. apply selectVisible_frame.
  - replace (spawn (updateVisibleCount_async vp n) w)
      with (spawn (pool ← (entries ← recount vp n; selectVisible entries);
                   start pool) w).
    2: { unfold spawn, updateVisibleCount_async, handleVisibilityChange_async.
         unfold mbind, Js_bind. by destruct (recount vp n (state w)) as [[?|?] ?]. }
    apply (spawn_tags (entries ← recount vp n; selectVisible entries) w a); [|done].
    intros s. unfold mbind, Js_bind. pose proof (recount_tags vp n s) as Hr.
    destruct (recount_frame vp n s) as [Hra _].
    destruct (recount vp n s) as [[entries|e] s1]; cbn [snd] in *; [|done].
    rewrite selectVisible_config.
    destruct (selectVisible_frame entries s1) as [Hsa _]. split; congruence.
  - destruct (inflight w !! i) as [r|]; [|done].
    pose proof (resume_config fetchAdFromProvider r (state w) a Ha) as Hr.
    destruct (resume fetchAdFromProvider r (state w)) as [[[r'|]|e] s1];
      cbn in *; congruence.
Qed.

Lemma reacts_tags fetchAdFromProvider evs w a :
  adSlotEl (state w) = Some a →
  tags <$> config (state (reacts fetchAdFromProvider evs w))
  = tags <$> config (state w).
Proof.
  revert w. induction evs as [|ev evs IH]; intros w Ha; [done|].
  unfold reacts in *. cbn [foldl].
  rewrite IH; [by apply (react_tags _ _ _ a)|].
  by destruct (react_accounts fetchAdFromProvider ev w a Ha) as [? _].
Qed.

(** With the feed and the ad slot two elements, no callback and no run
    adds, removes or renumbers a tag element of the feed. *)
Section FeedKept.

Variable fetchAdFromProvider : string → list string → Settlement.
Variables f a : string.
Hypothesis Hne : a ≠ f.

Lemma feedTags_completed markup qs kw ws s :
  feedTags f (completed a markup qs kw ws s) = feedTags f s.
Proof. unfold feedTags. by rewrite tagElementsOf_completed, decide_False. Qed.

Lemma feedTags_highlighted sel s :
  feedTags f (highlighted f sel s) = feedTags f s.
Proof.
  unfold feedTags. rewrite tagElementsOf_highlighted, <-list_fmap_compose.
  by apply list_fmap_ext.
Qed.

Lemma enterLoop_feed providers kw s :
  adSlotEl s = Some a → feedTags f (snd (enterLoop providers kw s)) = feedTags f s.
Proof.
  intros Ha. destruct providers as [|p rest]; cbn [enterLoop]; unfold_js; [|done].
  rewrite (renderAd_run _ a) by done. apply feedTags_completed.
Qed.

Lemma start_feed kw s :
  adSlotEl s = Some a → feedTags f (snd (start kw s)) = feedTags f s.
Proof.
  intros Ha. unfold start. case_decide; [|by apply enterLoop_feed].
  unfold_js. rewrite (renderAd_run _ a) by done. apply feedTags_completed.
Qed.

Lemma resume_feed r s :
  adSlotEl s = Some a →
  feedTags f (snd (resume fetchAdFromProvider r s)) = feedTags f s.
Proof.
  intros Ha. rewrite (resume_run _ _ _ a) by done.
  destruct (declines _ _ _); [|apply feedTags_completed].
  by rewrite enterLoop_feed.
Qed.

Lemma selectVisible_feed entries s :
  feedEl s = Some f → feedTags f (snd (selectVisible entries s)) = feedTags f s.
Proof.
  intros Hf. unfold selectVisible, updateElement. unfold_js.
  destruct (config s) as [c|]; [|done]. rewrite Hf. cbn.
  destruct (keywordPool _ _); cbn [snd];
    apply (feedTags_highlighted (trimmed (visibleTagCount c) entries) s).
Qed.

Lemma recount_feed vp n s :
  feedTags f (snd (recount vp n s)) = feedTags f s.
Proof.
  unfold recount. unfold_js.
  destruct (config s) as [c|]; [|done]. cbn.
  by destruct (feedEl s).
Qed.

Lemma spawn_feed (pre : Js (list string)) w :
  (∀ s, feedEl s = Some f →
        feedTags f (snd (pre s)) = feedTags f s
        ∧ adSlotEl (snd (pre s)) = adSlotEl s) →
  feedEl (state w) = Some f → adSlotEl (state w) = Some a →
  feedTags f (state (spawn (pool ← pre; start pool) w)) = feedTags f (state w).
Proof.
  intros Hpre Hf Ha. unfold spawn. unfold mbind, Js_bind.
  destruct (Hpre (state w) Hf) as [Ht Hs].
  destruct (pre (state w)) as [[pool|e] s1]; cbn [snd] in *; [|done].
  pose proof (start_feed pool s1 ltac:(congruence)) as Hst.
  destruct (start pool s1) as [[[r|]|e] s2]; cbn in *; congruence.
Qed.

Lemma react_feed ev w :
  feedEl (state w) = Some f → adSlotEl (state w) = Some a →
  feedTags f (state (react fetchAdFromProvider ev w)) = feedTags f (state w).
Proof.
  intros Hf Ha. destruct ev as [entries|vp n|i]; cbn [react].
  - apply (spawn_feed (selectVisible entries) w); [|done..]. intros s Hs.
    split; [by apply selectVisible_feed|apply selectVisible_frame].
  - replace (spawn (updateVisibleCount_async vp n) w)
      with (spawn (pool ← (entries ← recount vp n; selectVisible entries);
                   start pool) w).
    2: { unfold spawn, updateVisibleCount_async, handleVisibilityChange_async.
         unfold mbind, Js_bind. by destruct (recount vp n (state w)) as [[?|?] ?]. }
    apply (spawn_feed (entries ← recount vp n; selectVisible entries) w); [|done..].
    intros s Hs. unfold mbind, Js_bind.
    pose proof (recount_feed vp n s) as Hr.
    destruct (recount_slot vp n s a) as (Hra & Hrf & _).
    destruct (recount vp n s) as [[entries|e] s1]; cbn [snd] in *; [|done].
    rewrite selectVisible_feed by congruence.
    destruct (selectVisible_frame entries s1) as [Hsa _]. split; congruence.
  - destruct (inflight w !! i) as [r|]; [|done].
    pose proof (resume_feed r (state w) Ha) as Hr.
    destruct (resume fetchAdFromProvider r (state w)) as [[[r'|]|e] s1];
      cbn in *; congruence.
Qed.

Lemma reacts_feed evs w :
  feedEl (state w) = Some f → adSlotEl (state w) = Some a →
  feedTags f (state (reacts fetchAdFromProvider evs w)) = feedTags f (state w).
Proof.
  revert w. induction evs as [|ev evs IH]; intros w Hf Ha; [done|].
  unfold reacts in *. cbn [foldl].
  destruct (react_delivers fetchAdFromProvider ev w a Ha) as (Ha1 & Hf1 & _).
  rewrite IH; [by apply react_feed|congruence|done].
Qed.

End FeedKept.

(** X21. Once [init] has succeeded with a feed and an ad slot that are two
    elements, the module stays usable: whatever batches of entries the
    observer delivers, whatever counts [updateVisibleCount] is given and in
    whatever order lookups settle, the three variables stay set, the tags
    stay those of the options and the feed keeps the tag elements [init]
    rendered, one per position of [tags], only their highlight changing; so
    [updateVisibleCount] and [updateSpacing] never throw, and neither does
    the callback on entries for positions of [tags]. *)
Theorem module_stays_usable_after_init
    (fetchAdFromProvider : string → list string → Settlement)
    (opts : Options) (s0 : State) (evs : list Event) :
  fst (init opts s0) = Normal tt →
  feedElementId (configOf opts) ≠ adSlotId (configOf opts) →
  let s := state (reacts fetchAdFromProvider evs (mkWorld (snd (init opts s0)) [])) in
  Initialised s
  ∧ tags <$> config s = Some (tagsOf (opt_tags opts))
  ∧ feedEl s = Some (feedElementId (configOf opts))
  ∧ adSlotEl s = Some (adSlotId (configOf opts))
  ∧ feedTags (feedElementId (configOf opts)) s
    = imap (λ i t, (i, text t)) (tagsOf (opt_tags opts))
  ∧ (∀ vp n, fst (updateVisibleCount fetchAdFromProvider vp n s) = Normal tt)
  ∧ (∀ px, fst (updateSpacing px s) = Normal tt)
  ∧ (∀ entries,
       Forall (λ e, dataset_idx (target e) < length (tagsOf (opt_tags opts))) entries →
       fst (handleVisibilityChange fetchAdFromProvider entries s) = Normal tt).
Proof.
  intros Hok Hne s.
  destruct (init_Normal_inv opts s0 Hok) as (Hg & Hfd & Had).
  destruct (init_found_config opts s0 Hok) as (Hc0 & Hf0 & Ha0).
  set (c := configOf opts) in *.
  set (w0 := mkWorld (snd (init opts s0)) []) in *.
  destruct (reacts_references fetchAdFromProvider evs w0 _ Ha0) as [Ha Hf].
  fold s in Ha, Hf. cbn [state w0] in Hf. rewrite Hf0 in Hf.
  assert (Htags : tags <$> config s = Some (tagsOf (opt_tags opts))).
  { subst s. rewrite (reacts_tags _ evs w0 _ Ha0).
    cbn [state w0]. by rewrite Hc0. }
  assert (Hfeed : feedTags (feedElementId c) s
                  = imap (λ i t, (i, text t)) (tagsOf (opt_tags opts))).
  { subst s.
    rewrite (reacts_feed fetchAdFromProvider (feedElementId c) (adSlotId c)
               ltac:(congruence) evs w0 Hf0 Ha0).
    cbn [state w0]. rewrite init_found by done. cbn [snd]. unfold feedTags.
    assert (Hels : tagElementsOf (feedElementId c) (afterInit opts s0)
                   = imap (λ i t, createTagElement t i) (tags c)).
    { apply (tagElementsOf_rendered c (feedElementId c) (document s0) s0 Hfd). }
    rewrite Hels. by rewrite fmap_imap. }
  assert (Hinit : Initialised s).
  { destruct (config s) as [c'|] eqn:Hc; [|done].
    injection Htags as Htags.
    exists c', (feedElementId c), (adSlotId c).
    split; [done|]. split; [done|]. split; [done|].
    apply Forall_forall. intros el Hel.
    assert (Hin : (dataset_idx el, textContent el)
                  ∈ imap (λ i t, (i, text t)) (tagsOf (opt_tags opts))).
    { rewrite <-Hfeed. unfold feedTags. apply list_elem_of_fmap. by exists el. }
    apply elem_of_lookup_imap in Hin as (i & t & [= -> _] & Hi).
    rewrite Htags. by apply lookup_lt_Some in Hi. }
  split; [done|]. split; [done|]. split; [done|]. split; [done|].
  split; [done|].
  split; [intros vp n; by apply updateVisibleCount_Normal|].
  pose proof Hinit as (c' & f' & a' & Hc & Hf' & Ha' & Hall).
  split.
  { intros px. by rewrite (updateSpacing_run px s c' f'). }
  intros entries Hentries.
  apply (handleVisibilityChange_Normal _ _ _ c'); [done..|].
  rewrite Hc in Htags. injection Htags as ->.
  eapply Forall_impl; [exact Hentries|]. by intros e He _.
Qed.

Lemma module_stays_usable_after_init_witness :
  let s := state (reacts Placeholder.fetchAdFromProvider overlap
                    (mkWorld (snd (init demoOptions fresh)) [])) in
  fst (updateVisibleCount Placeholder.fetchAdFromProvider wideViewport (-2) s) = Normal tt
  ∧ fst (updateSpacing 30 s) = Normal tt.
Proof.
  pose proof (module_stays_usable_after_init Placeholder.fetchAdFromProvider
                demoOptions fresh overlap ltac:(vm_compute; reflexivity)
                ltac:(discriminate)) as H.
  cbv zeta in H. destruct H as (_ & _ & _ & _ & _ & H3 & H4 & _).
  cbv zeta. split; [apply H3 | apply H4].
Defined.

(** ** From [init] to the first recount *)

Lemma Sorted_seq j n : Sorted (≤) (seq j n).
Proof.
  revert j. induction n as [|n IH]; intros j; cbn; constructor; [apply IH|].
  destruct n; cbn; constructor. lia.
Qed.

Lemma filter_lt_seq k j n :
  filter (λ i, i < k) (seq j n) = seq j ((k - j) `min` n).
Proof.
  revert j. induction n as [|n IH]; intros j; cbn [seq].
  - by rewrite Nat.min_0_r.
  - destruct (decide (j < k)) as [Hlt|Hge].
    + rewrite filter_cons_True by done. rewrite IH.
      replace ((k - j) `min` S n) with (S ((k - S j) `min` n)) by lia. done.
    + rewrite filter_cons_False by done. rewrite IH.
      replace ((k - S j) `min` n) with 0 by lia.
      by replace ((k - j) `min` S n) with 0 by lia.
Qed.

Lemma filter_elem_of_seq k n :
  filter (λ i, i ∈ seq 0 k) (seq 0 n) = seq 0 (k `min` n).
Proof.
  rewrite (list_filter_iff _ (λ i, i < k)).
  - rewrite filter_lt_seq. f_equal. lia.
  - intros i. rewrite elem_of_seq. lia.
Qed.

Lemma keywordPool_seq ts k :
  k ≤ length ts →
  keywordPool ts (seq 0 k) = Some (concat (keywords <$> take k ts)).
Proof.
  induction k as [|k IH]; intros Hk; [done|].
  rewrite seq_S, keywordPool_app, IH by lia. cbn.
  destruct (lookup_lt_is_Some_2 ts k ltac:(lia)) as [t Ht].
  rewrite Ht. cbn. rewrite (take_S_r _ _ _ Ht), fmap_app, concat_app. cbn.
  by rewrite !app_nil_r.
Qed.

Lemma visibleEntries_all vp els :
  Forall (λ el, (tagRight vp (dataset_idx el) ≤ feedRight vp)%Z) els →
  visibleIdx (visibleEntries vp els) = dataset_idx <$> els.
Proof.
  intros Hall. rewrite visibleIdx_visibleEntries. f_equal.
  induction Hall as [|el els Hel _ IH]; [done|].
  by rewrite filter_cons_True, IH.
Qed.

(** X22. From [init] to the first recount. Right after a successful
    [init] whose feed and ad slot are two elements, when every tag ends
    inside the feed's right edge, [updateVisibleCount(n)] with a positive [n]
    highlights the first [n] tags (all of them when there are fewer), and
    the pool it resolves is the keywords of those tags, in the order of the
    configuration. *)
Theorem first_recount_selects_the_first_tags
    (fetchAdFromProvider : string → list string → Settlement)
    (opts : Options) (s0 : State) (vp : Viewport) (n : Z) :
  fst (init opts s0) = Normal tt →
  feedElementId (configOf opts) ≠ adSlotId (configOf opts) →
  (∀ i, i < length (tagsOf (opt_tags opts)) → (tagRight vp i ≤ feedRight vp)%Z) →
  (0 < n)%Z →
  let ts := tagsOf (opt_tags opts) in
  let k := Z.to_nat n `min` length ts in
  let pool := concat (keywords <$> take k ts) in
  let out := updateVisibleCount fetchAdFromProvider vp n (snd (init opts s0)) in
  fst out = Normal tt
  ∧ activeIdx (feedElementId (configOf opts)) (snd out) = seq 0 k
  ∧ renders (snd out) = renders s0 ++ [painted (resolve fetchAdFromProvider pool)]
  ∧ lookups (snd out)
    = lookups s0 ++ ((λ p, (p, pool)) <$> asked fetchAdFromProvider pool).
Proof.
  intros Hok Hne Hview Hn ts k pool out.
  destruct (init_Normal_inv opts s0 Hok) as (Hg & Hf & Ha).
  set (c := configOf opts) in *. set (f := feedElementId c) in *.
  set (a := adSlotId c) in *.
  assert (Hs1 : snd (init opts s0) = afterInit opts s0) by (by rewrite init_found).
  assert (Hels : tagElementsOf f (afterInit opts s0)
                 = imap (λ i t, createTagElement t i) ts).
  { apply (tagElementsOf_rendered c f (document s0) s0 Hf). }
  assert (Hsel : trimmed n (visibleEntries vp (tagElementsOf f (afterInit opts s0)))
                 = seq 0 k).
  { unfold trimmed. rewrite Hels, visibleEntries_all, rendered_tags_idx.
    2:{ eapply Forall_impl; [apply rendered_tags_in_range|].
        intros el [_ Hel]. by apply Hview. }
    rewrite sort_of_Sorted by apply Sorted_seq.
    rewrite slice_positive by lia. by rewrite take_seq. }
  assert (Hpool : keywordPool ts (seq 0 k) = Some pool).
  { apply keywordPool_seq. subst k. lia. }
  assert (Hrun : out
    = (Normal tt,
       completed a (painted (resolve fetchAdFromProvider pool))
         (asked fetchAdFromProvider pool) pool
         (failures fetchAdFromProvider (asked fetchAdFromProvider pool) pool)
         (highlighted f (seq 0 k)
            (set_config (Some (mkConfig (feedElementId c) (adSlotId c) n
                                 (tagSpacingPx c) (tags c)))
               (afterInit opts s0))))).
  { subst out. rewrite Hs1. unfold updateVisibleCount. unfold mbind, Js_bind.
    rewrite (recount_run _ _ _ c f) by done.
    rewrite (handleVisibilityChange_run _ _ _
               (mkConfig (feedElementId c) (adSlotId c) n (tagSpacingPx c) (tags c))
               f a pool); [|done..|cbn [visibleTagCount tags]; rewrite Hsel; exact Hpool].
    cbn [visibleTagCount]. by rewrite Hsel. }
  rewrite Hrun. cbn [fst snd].
  split; [done|]. split; [|by split].
  unfold activeIdx. rewrite tagElementsOf_completed, decide_False by done.
  fold (activeIdx f (highlighted f (seq 0 k)
          (set_config (Some (mkConfig (feedElementId c) (adSlotId c) n
                               (tagSpacingPx c) (tags c))) (afterInit opts s0)))).
  rewrite activeIdx_highlighted.
  change (tagElementsOf f (set_config ?x ?s)) with (tagElementsOf f s).
  rewrite Hels, rendered_tags_idx, filter_elem_of_seq. f_equal. subst k. lia.
Qed.

Lemma first_recount_selects_the_first_tags_witness :
  let out := updateVisibleCount stubNullXY wideViewport 3 (snd (init demoOptions fresh)) in
  fst out = Normal tt
  ∧ activeIdx (feedElementId (configOf demoOptions)) (snd out)
    = seq 0 (Z.to_nat 3 `min` length (tagsOf (opt_tags demoOptions))).
Proof.
  pose proof (first_recount_selects_the_first_tags stubNullXY demoOptions fresh
                wideViewport 3 ltac:(vm_compute; reflexivity) ltac:(discriminate)
                ltac:(intros i; cbn; lia) ltac:(lia)) as H.
  cbv zeta in H. destruct H as (H1 & H2 & _).
  cbv zeta. split; [exact H1 | exact H2].
Defined.

(** X23. Handling the same batch of entries a second time changes nothing
    but the logs: the same tags stay highlighted, the same pool is
    resolved, the same providers are queried again and the same outcome is
    rendered again. *)
Theorem same_batch_twice
    (fetchAdFromProvider : string → list string → Settlement)
    (entries : list Entry) (s : State) (c : Config) (f a : string) :
  config s = Some c → feedEl s = Some f → adSlotEl s = Some a →
  Forall (λ i, i < length (tags c)) (trimmed (visibleTagCount c) entries) →
  let once := handleVisibilityChange fetchAdFromProvider entries s in
  let twice := handleVisibilityChange fetchAdFromProvider entries (snd once) in
  fst once = Normal tt ∧ fst twice = Normal tt
  ∧ document (snd twice) = document (snd once)
  ∧ config (snd twice) = config (snd once)
  ∧ activeIdx f (snd twice) = activeIdx f (snd once)
  ∧ ∃ markup queried reported,
      renders (snd once) = renders s ++ [markup]
      ∧ renders (snd twice) = renders s ++ [markup; markup]
      ∧ lookups (snd once) = lookups s ++ queried
      ∧ lookups (snd twice) = lookups s ++ queried ++ queried
      ∧ console (snd once) = console s ++ reported
      ∧ console (snd twice) = console s ++ reported ++ reported.
Proof.
  intros Hc Hf Ha Hall once twice.
  destruct (keywordPool_total _ _ Hall) as [pool Hpool].
  assert (H1 : once = (Normal tt,
    completed a (painted (resolve fetchAdFromProvider pool))
      (asked fetchAdFromProvider pool) pool
      (failures fetchAdFromProvider (asked fetchAdFromProvider pool) pool)
      (highlighted f (trimmed (visibleTagCount c) entries) s))).
  { subst once. by rewrite (handleVisibilityChange_run _ _ _ c f a pool). }
  assert (H2 : twice = (Normal tt,
    completed a (painted (resolve fetchAdFromProvider pool))
      (asked fetchAdFromProvider pool) pool
      (failures fetchAdFromProvider (asked fetchAdFromProvider pool) pool)
      (highlighted f (trimmed (visibleTagCount c) entries) (snd once)))).
  { subst twice. rewrite H1. cbn [snd].
    by rewrite (handleVisibilityChange_run _ _ _ c f a pool). }
  assert (Hdoc : document (snd twice) = document (snd once)).
  { rewrite H2, H1. cbn [snd]. unfold completed, highlighted, set_document.
    cbn [document]. apply map_eq. intros i.
    destruct (decide (i = a)) as [Hia|Hia], (decide (i = f)) as [Hif|Hif];
      subst;
      repeat (rewrite lookup_alter_eq || rewrite lookup_alter_ne by congruence);
      destruct (document s !! _) as [e|]; try reflexivity.
    cbn [fmap option_fmap option_map]. f_equal.
    unfold set_childNodes. cbn [childNodes style]. f_equal.
    rewrite <-list_fmap_compose. apply list_fmap_ext.
    intros _ x _. apply highlight_idempotent. }
  split; [by rewrite H1|]. split; [by rewrite H2|]. split; [done|].
  split; [rewrite H2, H1; reflexivity|].
  split; [unfold activeIdx, tagElementsOf; by rewrite Hdoc|].
  exists (painted (resolve fetchAdFromProvider pool)),
    ((λ provider, (provider, pool)) <$> asked fetchAdFromProvider pool),
    (failures fetchAdFromProvider (asked fetchAdFromProvider pool) pool).
  rewrite H2, H1. cbn [snd]. unfold completed, highlighted, set_document.
  cbn [renders lookups console]. rewrite <-!app_assoc.
  repeat split; reflexivity.
Qed.

Lemma same_batch_twice_witness :
  let once := handleVisibilityChange stubThrowsX [entryOf 2 true; entryOf 0 true] ready in
  let twice := handleVisibilityChange stubThrowsX [entryOf 2 true; entryOf 0 true] (snd once) in
  document (snd twice) = document (snd once)
  ∧ activeIdx "tag-feed" (snd twice) = activeIdx "tag-feed" (snd once).
Proof.
  pose proof (same_batch_twice stubThrowsX [entryOf 2 true; entryOf 0 true] ready
                (mkConfig "tag-feed" "ad-slot" 5 12 demoTags) "tag-feed" "ad-slot"
                ltac:(vm_compute; reflexivity) ltac:(vm_compute; reflexivity)
                ltac:(vm_compute; reflexivity) ltac:(vm_compute; repeat constructor))
    as H.
  cbv zeta in H. destruct H as (_ & _ & H3 & _ & H5 & _).
  cbv zeta. split; [exact H3 | exact H5].
Defined.

(** ** Before [init] *)

(** X24. Before any [init] has got past its first test the configuration
    is still [null]: [updateVisibleCount] and [updateSpacing] then throw a
    [TypeError] at their first statement and change nothing, neither a
    module variable nor the document nor a log, and no provider is
    queried. An [init] that fails its first test leaves the module in that
    same condition. *)
Theorem api_before_init_throws_and_changes_nothing
    (fetchAdFromProvider : string → list string → Settlement)
    (s : State) (vp : Viewport) (n px : Z) (opts : Options) :
  config s = None →
  updateVisibleCount fetchAdFromProvider vp n s = (Throw (TypeError "config"), s)
  ∧ updateSpacing px s = (Throw (TypeError "config"), s)
  ∧ (optionsMissing opts = true →
     let s' := snd (init opts s) in
     s' = s
     ∧ updateVisibleCount fetchAdFromProvider vp n s' = (Throw (TypeError "config"), s')
     ∧ updateSpacing px s' = (Throw (TypeError "config"), s')).
Proof.
  intros Hc.
  assert (H1 : ∀ st, config st = None →
            updateVisibleCount fetchAdFromProvider vp n st = (Throw (TypeError "config"), st)).
  { intros st Hst. unfold updateVisibleCount, recount. unfold_js. by rewrite Hst. }
  assert (H2 : ∀ st, config st = None →
            updateSpacing px st = (Throw (TypeError "config"), st)).
  { intros st Hst. unfold updateSpacing. unfold_js. by rewrite Hst. }
  split; [by apply H1|]. split; [by apply H2|].
  intros Hm. cbv zeta. rewrite (init_missing opts s Hm). cbn [snd].
  split; [done|]. split; [by apply H1 | by apply H2].
Qed.

Lemma api_before_init_throws_and_changes_nothing_witness :
  updateVisibleCount stubNone wideViewport 3 fresh = (Throw (TypeError "config"), fresh)
  ∧ updateSpacing 8 fresh = (Throw (TypeError "config"), fresh).
Proof.
  pose proof (api_before_init_throws_and_changes_nothing stubNone fresh wideViewport
                3 8 noTagsOptions ltac:(reflexivity)) as (H1 & H2 & _).
  split; [exact H1 | exact H2].
Defined.

